(** * embeNET Node port for nRF52832

    Shallow embedding of the border-router transport
    (embenet_node_port/src/embenet_brt.c) and of the critical section
    (embenet_node_port/src/embenet_critical_section.c), with the
    properties of the HDLC-style framing, the CRC, the transmit pump and
    the nesting counter.

    Conventions.  A [uint8_t] or [uint16_t] is a [Z] and every conversion
    to the narrower type is written out with [u8] or [u16]; [size_t]
    indices are [nat] (they never exceed the frame size here).  A caller's
    buffer is the list of bytes found at the pointer; a store outside of
    the modelled memory is a [Fault]. *)

From Stdlib Require Import ZArith Lia Bool.
From stdpp Require Import list.

Local Open Scope Z_scope.

(** ** Machine integers *)

Definition u8 (x : Z) : Z := x mod 256.
Definition u16 (x : Z) : Z := x mod 65536.

(** [int] of the Cortex-M4: 32 bits, two's complement. *)
Definition INT_MAX : Z := 2147483647.
Definition int32 (x : Z) : Z := (x + 2147483648) mod 4294967296 - 2147483648.

Definition is_u8 (x : Z) : Prop := 0 <= x < 256.
Definition is_u16 (x : Z) : Prop := 0 <= x < 65536.

(** ** Outcome of code that can leave the defined behaviour of C *)

Inductive fault : Type :=
| OutOfBounds      (* store or copy outside of the object *)
| Uninitialised    (* use of a local that was never written *)
| OutOfFuel.       (* the loop model ran out of steps *)

Inductive result (A : Type) : Type :=
| Ok (a : A)
| Fault (f : fault).
Arguments Ok {A} a.
Arguments Fault {A} f.

Definition bind {A B : Type} (r : result A) (k : A -> result B) : result B :=
  match r with
  | Ok a => k a
  | Fault f => Fault f
  end.

Notation "'let?' x ':=' r 'in' k" := (bind r (fun x => k))
  (at level 10, x pattern, r at level 100, k at level 200).

(** [a[i] = v] on an array of [length a] elements. *)
Definition store (a : list Z) (i : nat) (v : Z) : result (list Z) :=
  if (i <? length a)%nat then Ok (<[i := v]> a) else Fault OutOfBounds.

(** [memcpy(dst, src, n)]. *)
Definition memcpy (dst src : list Z) (n : nat) : result (list Z) :=
  if (n <=? length dst)%nat && (n <=? length src)%nat
  then Ok (take n src ++ drop n dst)
  else Fault OutOfBounds.

(** ** Byte queue (ring_buffer.h) *)

(** What a push does to a full queue; the specification leaves it open. *)
Inductive overflow_policy : Type :=
| RejectWhenFull
| OverwriteOldest.

(** Modelled from the spec: ring_buffer.h and its implementation (the type
    [RingBuffer] and [RingBuffer_Init], [RingBuffer_PutChar],
    [RingBuffer_GetChar], [RingBuffer_GetLen]) are not part of the sources.
    Section 4.1 describes a fixed-capacity FIFO of bytes: init empties it,
    push adds one byte and fails (or overwrites the oldest entry) when it is
    full, pop removes and returns the oldest byte or signals empty, length
    is the number of queued bytes.  The queue is kept as its content, oldest
    byte first, together with its capacity. *)
Record RingBuffer : Type := {
  rb_capacity : nat;
  rb_bytes : list Z
}.

Definition RingBuffer_Init (size : nat) : RingBuffer :=
  {| rb_capacity := size; rb_bytes := [] |}.

Definition RingBuffer_GetLen (rb : RingBuffer) : nat := length (rb_bytes rb).

Definition RingBuffer_PutChar (policy : overflow_policy) (rb : RingBuffer) (c : Z)
  : RingBuffer * bool :=
  if (length (rb_bytes rb) <? rb_capacity rb)%nat
  then ({| rb_capacity := rb_capacity rb; rb_bytes := rb_bytes rb ++ [c] |}, true)
  else match policy, rb_bytes rb with
       | OverwriteOldest, _ :: rest =>
           ({| rb_capacity := rb_capacity rb; rb_bytes := rest ++ [c] |}, true)
       | _, _ => (rb, false)
       end.

Definition RingBuffer_GetChar (rb : RingBuffer) : option (Z * RingBuffer) :=
  match rb_bytes rb with
  | [] => None
  | c :: rest => Some (c, {| rb_capacity := rb_capacity rb; rb_bytes := rest |})
  end.

(** ** Constants of embenet_brt.c and embenet_port_config.h *)

Definition HDLC_FLAG : Z := 0x7e.
Definition HDLC_ESCAPE : Z := 0x7d.
Definition HDLC_ESCAPE_MASK : Z := 0x20.
Definition HDLC_CRCINIT : Z := 0xffff.
Definition HDLC_CRCGOOD : Z := 0xf0b8.

Definition EMBENET_BRT_MAX_FRAME_SIZE : nat := 200.
Definition OUTPUT_RING_BUFFER_SIZE : nat := 256.
Definition INPUT_RING_BUFFER_SIZE : nat := 512.

(** ** CRC *)

Definition fcstab : list Z := [
    0x0000; 0x1189; 0x2312; 0x329b; 0x4624; 0x57ad; 0x6536; 0x74bf;
    0x8c48; 0x9dc1; 0xaf5a; 0xbed3; 0xca6c; 0xdbe5; 0xe97e; 0xf8f7;
    0x1081; 0x0108; 0x3393; 0x221a; 0x56a5; 0x472c; 0x75b7; 0x643e;
    0x9cc9; 0x8d40; 0xbfdb; 0xae52; 0xdaed; 0xcb64; 0xf9ff; 0xe876;
    0x2102; 0x308b; 0x0210; 0x1399; 0x6726; 0x76af; 0x4434; 0x55bd;
    0xad4a; 0xbcc3; 0x8e58; 0x9fd1; 0xeb6e; 0xfae7; 0xc87c; 0xd9f5;
    0x3183; 0x200a; 0x1291; 0x0318; 0x77a7; 0x662e; 0x54b5; 0x453c;
    0xbdcb; 0xac42; 0x9ed9; 0x8f50; 0xfbef; 0xea66; 0xd8fd; 0xc974;
    0x4204; 0x538d; 0x6116; 0x709f; 0x0420; 0x15a9; 0x2732; 0x36bb;
    0xce4c; 0xdfc5; 0xed5e; 0xfcd7; 0x8868; 0x99e1; 0xab7a; 0xbaf3;
    0x5285; 0x430c; 0x7197; 0x601e; 0x14a1; 0x0528; 0x37b3; 0x263a;
    0xdecd; 0xcf44; 0xfddf; 0xec56; 0x98e9; 0x8960; 0xbbfb; 0xaa72;
    0x6306; 0x728f; 0x4014; 0x519d; 0x2522; 0x34ab; 0x0630; 0x17b9;
    0xef4e; 0xfec7; 0xcc5c; 0xddd5; 0xa96a; 0xb8e3; 0x8a78; 0x9bf1;
    0x7387; 0x620e; 0x5095; 0x411c; 0x35a3; 0x242a; 0x16b1; 0x0738;
    0xffcf; 0xee46; 0xdcdd; 0xcd54; 0xb9eb; 0xa862; 0x9af9; 0x8b70;
    0x8408; 0x9581; 0xa71a; 0xb693; 0xc22c; 0xd3a5; 0xe13e; 0xf0b7;
    0x0840; 0x19c9; 0x2b52; 0x3adb; 0x4e64; 0x5fed; 0x6d76; 0x7cff;
    0x9489; 0x8500; 0xb79b; 0xa612; 0xd2ad; 0xc324; 0xf1bf; 0xe036;
    0x18c1; 0x0948; 0x3bd3; 0x2a5a; 0x5ee5; 0x4f6c; 0x7df7; 0x6c7e;
    0xa50a; 0xb483; 0x8618; 0x9791; 0xe32e; 0xf2a7; 0xc03c; 0xd1b5;
    0x2942; 0x38cb; 0x0a50; 0x1bd9; 0x6f66; 0x7eef; 0x4c74; 0x5dfd;
    0xb58b; 0xa402; 0x9699; 0x8710; 0xf3af; 0xe226; 0xd0bd; 0xc134;
    0x39c3; 0x284a; 0x1ad1; 0x0b58; 0x7fe7; 0x6e6e; 0x5cf5; 0x4d7c;
    0xc60c; 0xd785; 0xe51e; 0xf497; 0x8028; 0x91a1; 0xa33a; 0xb2b3;
    0x4a44; 0x5bcd; 0x6956; 0x78df; 0x0c60; 0x1de9; 0x2f72; 0x3efb;
    0xd68d; 0xc704; 0xf59f; 0xe416; 0x90a9; 0x8120; 0xb3bb; 0xa232;
    0x5ac5; 0x4b4c; 0x79d7; 0x685e; 0x1ce1; 0x0d68; 0x3ff3; 0x2e7a;
    0xe70e; 0xf687; 0xc41c; 0xd595; 0xa12a; 0xb0a3; 0x8238; 0x93b1;
    0x6b46; 0x7acf; 0x4854; 0x59dd; 0x2d62; 0x3ceb; 0x0e70; 0x1ff9;
    0xf78f; 0xe606; 0xd49d; 0xc514; 0xb1ab; 0xa022; 0x92b9; 0x8330;
    0x7bc7; 0x6a4e; 0x58d5; 0x495c; 0x3de3; 0x2c6a; 0x1ef1; 0x0f78 ].

Definition openhdlc_crc (crc byte : Z) : Z :=
  u16 (Z.lxor (Z.shiftr crc 8)
              (nth (Z.to_nat (Z.land (Z.lxor crc byte) 0xff)) fcstab 0)).

(** Reference CRC-16/X-25, bit by bit: the reflected polynomial 0x8408,
    least significant bit first. *)
Definition x25_round (v : Z) : Z :=
  if Z.testbit v 0 then Z.lxor (Z.shiftr v 1) 0x8408 else Z.shiftr v 1.

Definition x25_table_entry (i : Z) : Z := Nat.iter 8 x25_round i.

Definition x25_update (crc byte : Z) : Z := Nat.iter 8 x25_round (Z.lxor crc byte).

(** init 0xFFFF, final complement. *)
Definition x25_checksum (data : list Z) : Z :=
  Z.lxor (fold_left x25_update data 0xffff) 0xffff.

(** ** Critical section (embenet_critical_section.c) *)

(** The two statics of the file and the PRIMASK register of the core:
    interrupts are enabled when PRIMASK is 0. *)
Record CriticalSection : Type := {
  irqNestCounter : Z;
  previousIrqState : Z;
  PRIMASK : Z
}.

Definition irq_enabled (cs : CriticalSection) : bool := PRIMASK cs =? 0.

Definition EMBENET_CRITICAL_SECTION_Enter (cs : CriticalSection) : CriticalSection :=
  let irqState := PRIMASK cs in                      (* __get_PRIMASK() *)
  {| PRIMASK := 1;                                   (* __disable_irq() *)
     previousIrqState :=
       if 0 =? irqNestCounter cs then irqState else previousIrqState cs;
     irqNestCounter := int32 (irqNestCounter cs + 1) |}.

Definition EMBENET_CRITICAL_SECTION_Exit (cs : CriticalSection) : CriticalSection :=
  let c := int32 (irqNestCounter cs - 1) in
  let c := if c <? 0 then 0 else c in
  {| irqNestCounter := c;
     previousIrqState := previousIrqState cs;
     PRIMASK :=
       if (0 =? c) && (0 =? previousIrqState cs)
       then 0                                        (* __enable_irq() *)
       else PRIMASK cs |}.

(** ** Transmit side of embenet_brt.c *)

(** [outputRingBufferDesc] and [isTransmitting] are the globals of the
    file.  [uartTxRegister] lists the bytes handed to
    EMBENET_NODE_BSP_UART_WriteByte, oldest first.  [emitted] is a ghost
    log: every byte passed to [uartWrite], in call order, whether it went
    to the register or to the queue. *)
Record Tx : Type := {
  outputRingBufferDesc : RingBuffer;
  isTransmitting : bool;
  uartTxRegister : list Z;
  emitted : list Z
}.

(** The calls to EMBENET_CRITICAL_SECTION_Enter and _Exit that bracket the
    queue accesses mask the interrupts and touch no data of this file; they
    are modelled on their own above. *)
Definition uartWrite (policy : overflow_policy) (data : Z) (tx : Tx) : Tx :=
  if isTransmitting tx then
    {| outputRingBufferDesc :=
         fst (RingBuffer_PutChar policy (outputRingBufferDesc tx) data);
       isTransmitting := isTransmitting tx;
       uartTxRegister := uartTxRegister tx;
       emitted := emitted tx ++ [data] |}
  else
    {| outputRingBufferDesc := outputRingBufferDesc tx;
       isTransmitting := true;
       uartTxRegister := uartTxRegister tx ++ [data];
       emitted := emitted tx ++ [data] |}.

Definition putFlag (policy : overflow_policy) (flag : Z) (tx : Tx) : Tx :=
  uartWrite policy flag tx.

Definition putByte (policy : overflow_policy) (byte : Z) (tx : Tx) : Tx :=
  if (byte =? HDLC_FLAG) || (byte =? HDLC_ESCAPE) then
    uartWrite policy (u8 (Z.lxor byte HDLC_ESCAPE_MASK))
      (uartWrite policy HDLC_ESCAPE tx)
  else
    uartWrite policy byte tx.

Definition tx_isr (tx : Tx) : Tx :=
  match RingBuffer_GetChar (outputRingBufferDesc tx) with
  | Some (chunk, rb) =>
      {| outputRingBufferDesc := rb;
         isTransmitting := isTransmitting tx;
         uartTxRegister := uartTxRegister tx ++ [chunk];
         emitted := emitted tx |}
  | None =>
      {| outputRingBufferDesc := outputRingBufferDesc tx;
         isTransmitting := false;
         uartTxRegister := uartTxRegister tx;
         emitted := emitted tx |}
  end.

(** The [for] loop of EMBENET_BRT_Send over the bytes of the packet. *)
Fixpoint Send_loop (policy : overflow_policy) (packetBytes : list Z)
  (finalCrc : Z) (tx : Tx) : Z * Tx :=
  match packetBytes with
  | [] => (finalCrc, tx)
  | b :: more =>
      Send_loop policy more (openhdlc_crc finalCrc b) (putByte policy b tx)
  end.

Definition EMBENET_BRT_Send (policy : overflow_policy) (packet : list Z)
  (packetLength : nat) (tx : Tx) : Tx :=
  let finalCrc := HDLC_CRCINIT in
  let tx := putFlag policy HDLC_FLAG tx in
  let '(finalCrc, tx) := Send_loop policy (take packetLength packet) finalCrc tx in
  let finalCrc := u16 (Z.lnot finalCrc) in
  let tx := putByte policy (u8 (Z.land (Z.shiftr finalCrc 0) 0xff)) tx in
  let tx := putByte policy (u8 (Z.land (Z.shiftr finalCrc 8) 0xff)) tx in
  putFlag policy HDLC_FLAG tx.

Fixpoint SendRaw_loop (policy : overflow_policy) (data : list Z) (tx : Tx) : Tx :=
  match data with
  | [] => tx
  | b :: more => SendRaw_loop policy more (uartWrite policy b tx)
  end.

Definition EMBENET_BRT_SendRaw (policy : overflow_policy) (data : list Z)
  (dataLength : nat) (tx : Tx) : Tx :=
  SendRaw_loop policy (take dataLength data) tx.

Definition EMBENET_BRT_IsBusy (tx : Tx) : bool := isTransmitting tx.

(** ** Receive side of embenet_brt.c *)

(** [inputRingBufferDesc] is the global of the file; the other four fields
    are the [static] locals of EMBENET_BRT_Receive, which keep the decoder
    session across calls. *)
Record Rx : Type := {
  inputRingBufferDesc : RingBuffer;
  inputFrame : list Z;
  inputFrameDataIndex : nat;
  inputFrameReceiving : bool;
  lastDataByte : Z
}.

Definition set_ring (rb : RingBuffer) (rx : Rx) : Rx :=
  {| inputRingBufferDesc := rb;
     inputFrame := inputFrame rx;
     inputFrameDataIndex := inputFrameDataIndex rx;
     inputFrameReceiving := inputFrameReceiving rx;
     lastDataByte := lastDataByte rx |}.

Definition set_frame (frame : list Z) (rx : Rx) : Rx :=
  {| inputRingBufferDesc := inputRingBufferDesc rx;
     inputFrame := frame;
     inputFrameDataIndex := inputFrameDataIndex rx;
     inputFrameReceiving := inputFrameReceiving rx;
     lastDataByte := lastDataByte rx |}.

Definition set_index (i : nat) (rx : Rx) : Rx :=
  {| inputRingBufferDesc := inputRingBufferDesc rx;
     inputFrame := inputFrame rx;
     inputFrameDataIndex := i;
     inputFrameReceiving := inputFrameReceiving rx;
     lastDataByte := lastDataByte rx |}.

Definition set_receiving (r : bool) (rx : Rx) : Rx :=
  {| inputRingBufferDesc := inputRingBufferDesc rx;
     inputFrame := inputFrame rx;
     inputFrameDataIndex := inputFrameDataIndex rx;
     inputFrameReceiving := r;
     lastDataByte := lastDataByte rx |}.

Definition set_last (b : Z) (rx : Rx) : Rx :=
  {| inputRingBufferDesc := inputRingBufferDesc rx;
     inputFrame := inputFrame rx;
     inputFrameDataIndex := inputFrameDataIndex rx;
     inputFrameReceiving := inputFrameReceiving rx;
     lastDataByte := b |}.

(** Body of the [while] loop of EMBENET_BRT_Receive for the byte just taken
    from the queue; the boolean is [frameComplete]. *)
Definition Receive_body (rx : Rx) (dataByte : Z) : result (Rx * bool) :=
  let? (rx, frameComplete) :=
    if negb (inputFrameReceiving rx) then
      (* looking for new frame *)
      if HDLC_FLAG =? dataByte
      then Ok (set_index 0 (set_receiving true rx), false)
      else Ok (rx, false)
    else if HDLC_FLAG =? dataByte then
      if negb (HDLC_FLAG =? lastDataByte rx) then
        (* finished frame *)
        let rx := set_receiving false rx in
        if (2 <? inputFrameDataIndex rx)%nat
        then Ok (rx, true)
        else Ok (set_index 0 (set_receiving true rx), false)
      else
        (* two '~' at a time, repeating frame start *)
        Ok (set_index 0 (set_receiving true rx), false)
    else if (inputFrameDataIndex rx <? EMBENET_BRT_MAX_FRAME_SIZE)%nat then
      (* add byte to buffer *)
      if negb (HDLC_ESCAPE =? dataByte) then
        let v := if negb (HDLC_ESCAPE =? lastDataByte rx)
                 then dataByte
                 else u8 (Z.lxor dataByte HDLC_ESCAPE_MASK) in
        let? frame := store (inputFrame rx) (inputFrameDataIndex rx) v in
        Ok (set_index (S (inputFrameDataIndex rx)) (set_frame frame rx), false)
      else Ok (rx, false)
    else Ok (set_index 0 (set_receiving false rx), false)
  in
  Ok (set_last dataByte rx, frameComplete).

(** The [while] loop: it is entered with [frameComplete == false] and is
    left as soon as the body sets it.  Every round takes one byte from the
    queue, so a fuel above the queue length is never used up. *)
Fixpoint Receive_loop (fuel : nat) (rx : Rx) : result (Rx * bool) :=
  match fuel with
  | O => Fault OutOfFuel
  | S fuel =>
      if (0 <? RingBuffer_GetLen (inputRingBufferDesc rx))%nat then
        match RingBuffer_GetChar (inputRingBufferDesc rx) with
        | Some (dataByte, rb) =>
            match Receive_body (set_ring rb rx) dataByte with
            | Ok (rx, true) => Ok (rx, true)
            | Ok (rx, false) => Receive_loop fuel rx
            | Fault f => Fault f
            end
        | None => Fault Uninitialised
        end
      else Ok (rx, false)
  end.

Definition EMBENET_BRT_Receive (rx : Rx) (packetBuffer : list Z)
  (packetBufferSize : nat) : result (Rx * list Z * nat) :=
  let? (rx, frameComplete) :=
    Receive_loop (S (RingBuffer_GetLen (inputRingBufferDesc rx))) rx in
  if frameComplete && (0 <? inputFrameDataIndex rx)%nat then
    let crc := fold_left openhdlc_crc
                 (take (inputFrameDataIndex rx - 2) (inputFrame rx)) HDLC_CRCINIT in
    let crc := u16 (Z.lnot crc) in
    if (Z.land (Z.shiftr crc 0) 0xff =? nth (inputFrameDataIndex rx - 2) (inputFrame rx) 0)
       && (Z.land (Z.shiftr crc 8) 0xff =? nth (inputFrameDataIndex rx - 1) (inputFrame rx) 0)
    then
      (* CRC OK! *)
      let returnSize := (inputFrameDataIndex rx - 2)%nat in
      let rx := set_index 0 (set_receiving true rx) in
      if (returnSize <=? packetBufferSize)%nat then
        let? packetBuffer := memcpy packetBuffer (inputFrame rx) returnSize in
        Ok (rx, packetBuffer, returnSize)
      else
        let? packetBuffer := memcpy packetBuffer (inputFrame rx) packetBufferSize in
        Ok (rx, packetBuffer, 0%nat)
    else
      (* frame malformed *)
      Ok (set_index 0 (set_receiving true rx), packetBuffer, 0%nat)
  else Ok (rx, packetBuffer, 0%nat).

(** The [while] loop of EMBENET_BRT_ReceiveRaw; [dataBytes] is the offset of
    the running pointer from [data].  RingBuffer_GetChar stores the byte
    through the pointer before the loop looks at the capacity. *)
Fixpoint ReceiveRaw_loop (fuel : nat) (rb : RingBuffer) (data : list Z)
  (dataBytes dataBufferSize : nat) : result (RingBuffer * list Z * nat) :=
  match fuel with
  | O => Fault OutOfFuel
  | S fuel =>
      match RingBuffer_GetChar rb with
      | Some (c, rb) =>
          let? data := store data dataBytes c in
          let dataBytes := S dataBytes in
          if (dataBufferSize <=? dataBytes)%nat
          then Ok (rb, data, dataBytes)
          else ReceiveRaw_loop fuel rb data dataBytes dataBufferSize
      | None => Ok (rb, data, dataBytes)
      end
  end.

Definition EMBENET_BRT_ReceiveRaw (rx : Rx) (data : list Z) (dataBufferSize : nat)
  : result (Rx * list Z * nat) :=
  let? (rb, data, n) :=
    ReceiveRaw_loop (S (RingBuffer_GetLen (inputRingBufferDesc rx)))
      (inputRingBufferDesc rx) data 0 dataBufferSize in
  Ok (set_ring rb rx, data, n).

(** [rxByte] is what EMBENET_NODE_BSP_UART_ReadByte returns. *)
Definition rx_isr (policy : overflow_policy) (rxByte : Z) (rx : Rx) : Rx :=
  set_ring (fst (RingBuffer_PutChar policy (inputRingBufferDesc rx) rxByte)) rx.

(** ** The module as a whole *)

Record BRT : Type := {
  brt_tx : Tx;
  brt_rx : Rx
}.

Definition EMBENET_BRT_Init (s : BRT) : BRT :=
  {| brt_tx :=
       {| outputRingBufferDesc := RingBuffer_Init OUTPUT_RING_BUFFER_SIZE;
          isTransmitting := false;
          uartTxRegister := uartTxRegister (brt_tx s);
          emitted := emitted (brt_tx s) |};
     brt_rx := set_ring (RingBuffer_Init INPUT_RING_BUFFER_SIZE) (brt_rx s) |}.

Definition EMBENET_BRT_Deinit (s : BRT) : BRT :=
  {| brt_tx :=
       {| outputRingBufferDesc := RingBuffer_Init OUTPUT_RING_BUFFER_SIZE;
          isTransmitting := false;
          uartTxRegister := uartTxRegister (brt_tx s);
          emitted := emitted (brt_tx s) |};
     brt_rx := set_ring (RingBuffer_Init INPUT_RING_BUFFER_SIZE) (brt_rx s) |}.

(** Memory at program start: statics and globals are zero, nothing was
    written to the UART. *)
Definition brt_boot : BRT :=
  {| brt_tx :=
       {| outputRingBufferDesc := RingBuffer_Init 0;
          isTransmitting := false;
          uartTxRegister := [];
          emitted := [] |};
     brt_rx :=
       {| inputRingBufferDesc := RingBuffer_Init 0;
          inputFrame := replicate EMBENET_BRT_MAX_FRAME_SIZE 0;
          inputFrameDataIndex := 0;
          inputFrameReceiving := false;
          lastDataByte := 0 |} |}.

(** ** Vocabulary of the properties *)

(** The wire bytes of a framed send: what EMBENET_BRT_Send passes to
    [uartWrite], in order, on a freshly initialised module. *)
Definition wire_of_Send (policy : overflow_policy) (packet : list Z) : list Z :=
  emitted (EMBENET_BRT_Send policy packet (length packet)
             (brt_tx (EMBENET_BRT_Init brt_boot))).

(** The receive interrupt fires once per byte of an inbound stream. *)
Definition rx_stream (policy : overflow_policy) (stream : list Z) (rx : Rx) : Rx :=
  fold_left (fun rx b => rx_isr policy b rx) stream rx.

(** The decoder in its initial state after the stream has arrived. *)
Definition rx_after (policy : overflow_policy) (stream : list Z) : Rx :=
  rx_stream policy stream (brt_rx (EMBENET_BRT_Init brt_boot)).

Definition flip_bit (k : nat) (b : Z) : Z := Z.lxor b (Z.shiftl 1 (Z.of_nat k)).

(** Bit [k] of the wire byte at position [j] is inverted. *)
Definition corrupt (j k : nat) (wire : list Z) : list Z := alter (flip_bit k) j wire.

(** States of the transmit side that the module can be in: after
    EMBENET_BRT_Init, any number of emissions and transmit interrupts. *)
Inductive tx_reachable (policy : overflow_policy) : Tx -> Prop :=
| tx_reach_init (s : BRT) :
    tx_reachable policy (brt_tx (EMBENET_BRT_Init s))
| tx_reach_uartWrite (data : Z) (tx : Tx) :
    tx_reachable policy tx -> tx_reachable policy (uartWrite policy data tx)
| tx_reach_tx_isr (tx : Tx) :
    tx_reachable policy tx -> tx_reachable policy (tx_isr tx).

(** Runs of the transmit side, from the boot image, in which every emission
    finds room in the outbound queue. *)
Inductive tx_lossless (policy : overflow_policy) : Tx -> Prop :=
| tx_lossless_init :
    tx_lossless policy (brt_tx (EMBENET_BRT_Init brt_boot))
| tx_lossless_uartWrite (data : Z) (tx : Tx) :
    tx_lossless policy tx ->
    (RingBuffer_GetLen (outputRingBufferDesc tx)
       < rb_capacity (outputRingBufferDesc tx))%nat ->
    tx_lossless policy (uartWrite policy data tx)
| tx_lossless_tx_isr (tx : Tx) :
    tx_lossless policy tx -> tx_lossless policy (tx_isr tx).

(** States of the receive side: after EMBENET_BRT_Init on the boot image,
    any number of receive interrupts and of calls to EMBENET_BRT_Receive. *)
Inductive rx_reachable (policy : overflow_policy) : Rx -> Prop :=
| rx_reach_init :
    rx_reachable policy (brt_rx (EMBENET_BRT_Init brt_boot))
| rx_reach_rx_isr (rxByte : Z) (rx : Rx) :
    rx_reachable policy rx -> rx_reachable policy (rx_isr policy rxByte rx)
| rx_reach_Receive (rx rx' : Rx) (buf buf' : list Z) (size n : nat) :
    rx_reachable policy rx ->
    EMBENET_BRT_Receive rx buf size = Ok (rx', buf', n) ->
    rx_reachable policy rx'.

(** What [putByte] puts on the wire for one byte. *)
Definition stuffed (b : Z) : list Z :=
  if (b =? HDLC_FLAG) || (b =? HDLC_ESCAPE)
  then [HDLC_ESCAPE; u8 (Z.lxor b HDLC_ESCAPE_MASK)]
  else [b].

(** The complemented CRC that EMBENET_BRT_Send and EMBENET_BRT_Receive
    compute over the unstuffed payload. *)
Definition frame_crc (payload : list Z) : Z :=
  u16 (Z.lnot (fold_left openhdlc_crc payload HDLC_CRCINIT)).

Definition crc_low (crc : Z) : Z := Z.land (Z.shiftr crc 0) 0xff.
Definition crc_high (crc : Z) : Z := Z.land (Z.shiftr crc 8) 0xff.

(** Payload followed by its two CRC bytes, low byte first: the content of a
    frame before stuffing. *)
Definition frame_content (payload : list Z) : list Z :=
  payload ++ [crc_low (frame_crc payload); crc_high (frame_crc payload)].

(** The byte that the decoder has in [lastDataByte] after a run of wire
    bytes. *)
Fixpoint last_of (prev : Z) (wire : list Z) : Z :=
  match wire with
  | [] => prev
  | b :: rest => last_of b rest
  end.

(** What the decoder stores for a run of wire bytes between two flags; [prev]
    is the byte received before the run.  An escape byte is dropped, the byte
    after an escape byte is stored with the mask undone. *)
Fixpoint unstuff (prev : Z) (wire : list Z) : list Z :=
  match wire with
  | [] => []
  | b :: rest =>
      if HDLC_ESCAPE =? b then unstuff b rest
      else (if HDLC_ESCAPE =? prev then u8 (Z.lxor b HDLC_ESCAPE_MASK) else b)
             :: unstuff b rest
  end.

(** The CRC test of EMBENET_BRT_Receive on the first [n] stored bytes. *)
Definition crc_matches (frame : list Z) (n : nat) : bool :=
  let crc := frame_crc (take (n - 2) frame) in
  (crc_low crc =? nth (n - 2) frame 0) && (crc_high crc =? nth (n - 1) frame 0).

(** The accumulator has its declared size and the index is inside it or
    just behind its last element. *)
Definition decoder_in_bounds (rx : Rx) : Prop :=
  length (inputFrame rx) = EMBENET_BRT_MAX_FRAME_SIZE /\
  (inputFrameDataIndex rx <= EMBENET_BRT_MAX_FRAME_SIZE)%nat.

(** The state in which the decoder leaves a frame that grew beyond the
    accumulator: index reset, not receiving, nothing stored. *)
Definition aborted (dataByte : Z) (rx : Rx) : Rx :=
  set_last dataByte (set_index 0 (set_receiving false rx)).

(** The state in which the decoder is left at the end of a delimited run,
    whatever became of the run: ready for the next frame. *)
Definition rx_ready (cap : nat) (rest frame : list Z) : Rx :=
  Build_Rx (Build_RingBuffer cap rest) frame 0 true HDLC_FLAG.

(** The accumulator after a frame with payload [P] went through a decoder
    that started on the boot image. *)
Definition frame_left (P : list Z) : list Z :=
  frame_content P ++ drop (length P + 2) (replicate EMBENET_BRT_MAX_FRAME_SIZE 0).

(** The receive side after one call of EMBENET_BRT_Receive that asks for
    nothing (no buffer). *)
Definition rx_polled (rx : Rx) : Rx :=
  match EMBENET_BRT_Receive rx [] 0 with
  | Ok (rx', _, _) => rx'
  | Fault _ => rx
  end.

(** The decoder, started in the session state [frame], [idx], [recv], [prev],
    takes the bytes [pre] from the queue without completing a frame and is
    then at the start of a frame, with accumulator [frame']. *)
Definition leads_in (pre frame : list Z) (idx : nat) (recv : bool) (prev : Z)
  (frame' : list Z) : Prop :=
  forall fuel cap rest,
    Receive_loop (length pre + fuel)
      (Build_Rx (Build_RingBuffer cap (pre ++ rest)) frame idx recv prev) =
    Receive_loop fuel (rx_ready cap rest frame').

(** A run of wire bytes that can stand between two flags: no flag in it, no
    dangling escape byte at its end, and a content that fits into the
    accumulator. *)
Definition delimited_run (w : list Z) : Prop :=
  Forall (fun b => b <> HDLC_FLAG) w /\
  (w = [] \/ last_of HDLC_FLAG w <> HDLC_ESCAPE) /\
  (length (unstuff HDLC_FLAG w) <= EMBENET_BRT_MAX_FRAME_SIZE)%nat.

(** What EMBENET_BRT_Receive returns once the loop has completed a frame
    with the stored bytes [U], read into an accumulator that held [frame]. *)
Definition Receive_outcome (cap : nat) (rest U frame buf : list Z) (size : nat)
  : result (Rx * list Z * nat) :=
  let n := length U in
  let F := U ++ drop n frame in
  if crc_matches U n then
    if (n - 2 <=? size)%nat
    then let? b := memcpy buf F (n - 2) in Ok (rx_ready cap rest F, b, (n - 2)%nat)
    else let? b := memcpy buf F size in Ok (rx_ready cap rest F, b, 0%nat)
  else Ok (rx_ready cap rest F, buf, 0%nat).

(** The bytes [l] are passed to [uartWrite] one after the other. *)
Definition uartWrite_all (policy : overflow_policy) (l : list Z) (tx : Tx) : Tx :=
  fold_left (fun tx b => uartWrite policy b tx) l tx.

(** ** Timer (embenet_timer.c) *)

Definition u32 (x : Z) : Z := x mod 4294967296.
Definition u64 (x : Z) : Z := x mod 18446744073709551616.

Definition GUARD_US : Z := 62.
Definition SCALE_FACTOR : Z := 1000000000.
Definition PERIOD_SCALED_UP : Z := 30517578125.
Definition TIMER_MAX_VALUE : Z := 0xFFFFFF.
Definition MAX_COMPARE_DURATION_TICKS : Z := 0x7FFFFF.
Definition MAX_COMPARE_DURATION_US : Z := 250000000.
Definition OVERFLOW_EXTENSION_US : Z := 512000000.

(** The statics of the file ([callback] only as "is not NULL"), the
    registers of RTC1 and of the NVIC that the file reads and writes, and a
    ghost count of the invocations of the callback.  The 24-bit COUNTER
    register runs on its own: each read of it is an argument of the function
    that reads it. *)
Record Timer : Type := {
  callback : bool;
  timerValueExtension : Z;
  softwareIrq : bool;
  EVENTS_OVRFLW : bool;
  EVENTS_COMPARE0 : bool;
  INTEN_COMPARE0 : bool;
  CC0 : Z;
  irqPending : bool;
  callbackCalls : nat
}.

(** [compareCallback] tells whether the callback passed in is not NULL.  The
    clock start-up, the prescaler, the event routing and the interrupt
    priority are set up in hardware and have no counterpart in [Timer]. *)
Definition EMBENET_TIMER_Init (compareCallback : bool) (t : Timer) : Timer :=
  {| callback := compareCallback;
     timerValueExtension := 0;
     softwareIrq := false;
     EVENTS_OVRFLW := false;          (* nrf_rtc_event_clear(OVERFLOW) *)
     EVENTS_COMPARE0 := false;        (* nrf_rtc_event_clear(COMPARE_0) *)
     INTEN_COMPARE0 := INTEN_COMPARE0 t;
     CC0 := CC0 t;
     irqPending := false;             (* NVIC_ClearPendingIRQ *)
     callbackCalls := callbackCalls t |}.

(** [counter1] is the COUNTER value of the first read, [counter2] that of
    the read after a pending overflow was seen. *)
Definition EMBENET_TIMER_SetCompare (compareValue counter1 counter2 : Z)
  (st : CriticalSection * Timer) : CriticalSection * Timer :=
  let '(cs, t) := st in
  let cs := EMBENET_CRITICAL_SECTION_Enter cs in
  let counter := counter1 in
  let now := u32 (u64 (u64 (counter * PERIOD_SCALED_UP) / SCALE_FACTOR
                       + timerValueExtension t)) in
  let '(counter, now) :=
    if EVENTS_OVRFLW t
    then (counter2,
          u32 (u64 (u64 (u64 (counter2 * PERIOD_SCALED_UP) / SCALE_FACTOR
                         + timerValueExtension t) + OVERFLOW_EXTENSION_US)))
    else (counter, now) in
  let delta := u32 (compareValue - now) in
  let t :=
    if u32 (delta - GUARD_US) <? MAX_COMPARE_DURATION_US then
      (* arm the compare interrupt *)
      {| callback := callback t;
         timerValueExtension := timerValueExtension t;
         softwareIrq := softwareIrq t;
         EVENTS_OVRFLW := EVENTS_OVRFLW t;
         EVENTS_COMPARE0 := EVENTS_COMPARE0 t;
         INTEN_COMPARE0 := true;
         CC0 := Z.land (u32 (counter + u32 (u64 (delta * SCALE_FACTOR) / PERIOD_SCALED_UP)))
                       TIMER_MAX_VALUE;
         irqPending := irqPending t;
         callbackCalls := callbackCalls t |}
    else
      (* interrupt is triggered immediately *)
      {| callback := callback t;
         timerValueExtension := timerValueExtension t;
         softwareIrq := true;
         EVENTS_OVRFLW := EVENTS_OVRFLW t;
         EVENTS_COMPARE0 := EVENTS_COMPARE0 t;
         INTEN_COMPARE0 := true;
         CC0 := CC0 t;
         irqPending := true;              (* NVIC_SetPendingIRQ *)
         callbackCalls := callbackCalls t |} in
  (EMBENET_CRITICAL_SECTION_Exit cs, t).

Definition EMBENET_TIMER_ReadCounter (counter1 counter2 : Z)
  (st : CriticalSection * Timer) : CriticalSection * Z :=
  let '(cs, t) := st in
  let cs := EMBENET_CRITICAL_SECTION_Enter cs in
  let now := u64 (u64 (counter1 * PERIOD_SCALED_UP) / SCALE_FACTOR
                  + timerValueExtension t) in
  let now :=
    if EVENTS_OVRFLW t
    then u64 (u64 (u64 (counter2 * PERIOD_SCALED_UP) / SCALE_FACTOR
                   + timerValueExtension t) + OVERFLOW_EXTENSION_US)
    else now in
  (EMBENET_CRITICAL_SECTION_Exit cs, u32 now).

Definition EMBENET_TIMER_GetMaxCompareDuration : Z := u32 MAX_COMPARE_DURATION_US.

Definition EMBENET_PORT_TIMER_IRQ_HANDLER (t : Timer) : Timer :=
  let t :=
    if EVENTS_OVRFLW t then
      {| callback := callback t;
         timerValueExtension := u64 (timerValueExtension t + OVERFLOW_EXTENSION_US);
         softwareIrq := softwareIrq t;
         EVENTS_OVRFLW := false;
         EVENTS_COMPARE0 := EVENTS_COMPARE0 t;
         INTEN_COMPARE0 := INTEN_COMPARE0 t;
         CC0 := CC0 t;
         irqPending := irqPending t;
         callbackCalls := callbackCalls t |}
    else t in
  if EVENTS_COMPARE0 t || softwareIrq t then
    {| callback := callback t;
       timerValueExtension := timerValueExtension t;
       softwareIrq := false;
       EVENTS_OVRFLW := EVENTS_OVRFLW t;
       EVENTS_COMPARE0 := false;
       INTEN_COMPARE0 := false;
       CC0 := CC0 t;
       irqPending := irqPending t;
       callbackCalls := if callback t then S (callbackCalls t) else callbackCalls t |}
  else t.

(** The RTC sets an event flag on its own: the counter wrapped, or it
    reached CC[0]. *)
Definition rtc_overflows (t : Timer) : Timer :=
  {| callback := callback t;
     timerValueExtension := timerValueExtension t;
     softwareIrq := softwareIrq t;
     EVENTS_OVRFLW := true;
     EVENTS_COMPARE0 := EVENTS_COMPARE0 t;
     INTEN_COMPARE0 := INTEN_COMPARE0 t;
     CC0 := CC0 t;
     irqPending := irqPending t;
     callbackCalls := callbackCalls t |}.

Definition rtc_compares (t : Timer) : Timer :=
  {| callback := callback t;
     timerValueExtension := timerValueExtension t;
     softwareIrq := softwareIrq t;
     EVENTS_OVRFLW := EVENTS_OVRFLW t;
     EVENTS_COMPARE0 := true;
     INTEN_COMPARE0 := INTEN_COMPARE0 t;
     CC0 := CC0 t;
     irqPending := irqPending t;
     callbackCalls := callbackCalls t |}.

(** States of the timer after EMBENET_TIMER_Init, indexed by the number of
    overflow events that the interrupt handler has serviced since. *)
Inductive timer_reachable : nat -> Timer -> Prop :=
| timer_reach_init (cb : bool) (t : Timer) :
    timer_reachable 0 (EMBENET_TIMER_Init cb t)
| timer_reach_overflow (k : nat) (t : Timer) :
    timer_reachable k t -> timer_reachable k (rtc_overflows t)
| timer_reach_compare (k : nat) (t : Timer) :
    timer_reachable k t -> timer_reachable k (rtc_compares t)
| timer_reach_SetCompare (k : nat) (t : Timer) (cs : CriticalSection) (v c1 c2 : Z) :
    timer_reachable k t ->
    timer_reachable k (snd (EMBENET_TIMER_SetCompare v c1 c2 (cs, t)))
| timer_reach_handler (k : nat) (t : Timer) :
    timer_reachable k t ->
    timer_reachable (if EVENTS_OVRFLW t then S k else k)
      (EMBENET_PORT_TIMER_IRQ_HANDLER t).

(** The number of ticks that a COUNTER value stands for after [k] wraps of
    the 24-bit counter. *)
Definition total_ticks (k : nat) (counter : Z) : Z := counter + 16777216 * Z.of_nat k.

(** A bounded search: [f] holds at [v], [v + 1], ..., [n] values in all. *)
Fixpoint holds_from (f : Z -> bool) (n : nat) (v : Z) : bool :=
  match n with
  | O => true
  | S n => if f v then holds_from f n (v + 1) else false
  end.

(** * Properties *)

#[local] Arguments Z.eqb _ _ : simpl never.
#[local] Arguments Z.lxor _ _ : simpl never.
#[local] Arguments Z.land _ _ : simpl never.
#[local] Arguments Z.shiftr _ _ : simpl never.

(** ** Machine integers *)

Lemma u8_small (x : Z) : is_u8 x -> u8 x = x.
Proof. unfold is_u8, u8. intros H. apply Z.mod_small. lia. Qed.

Lemma u16_small (x : Z) : is_u16 x -> u16 x = x.
Proof. unfold is_u16, u16. intros H. apply Z.mod_small. lia. Qed.

Lemma u16_range (x : Z) : is_u16 (u16 x).
Proof. unfold is_u16, u16. apply Z.mod_pos_bound. lia. Qed.

Lemma u8_range (x : Z) : is_u8 (u8 x).
Proof. unfold is_u8, u8. apply Z.mod_pos_bound. lia. Qed.

Lemma int32_small (x : Z) : -2147483648 <= x <= INT_MAX -> int32 x = x.
Proof.
  unfold int32, INT_MAX. intros H.
  rewrite Z.mod_small; lia.
Qed.

Lemma int32_range (x : Z) : -2147483648 <= int32 x <= INT_MAX.
Proof.
  unfold int32, INT_MAX.
  pose proof (Z.mod_pos_bound (x + 2147483648) 4294967296). lia.
Qed.

Lemma lxor_below (n a b : Z) :
  0 <= n -> 0 <= a < 2 ^ n -> 0 <= b < 2 ^ n -> 0 <= Z.lxor a b < 2 ^ n.
Proof.
  intros Hn Ha Hb.
  assert (Hnn : 0 <= Z.lxor a b) by (apply Z.lxor_nonneg; lia).
  split; [exact Hnn|].
  destruct (Z.eq_dec (Z.lxor a b) 0) as [E|E]; [rewrite E; lia|].
  apply Z.log2_lt_pow2; [lia|].
  eapply Z.le_lt_trans; [apply Z.log2_lxor; lia|].
  assert (Hlog : forall c, 0 <= c < 2 ^ n -> 0 < n -> Z.log2 c < n).
  { intros c Hc Hpos. destruct (Z.eq_dec c 0) as [->|Hc0]; [simpl; lia|].
    apply Z.log2_lt_pow2; lia. }
  assert (0 < n).
  { destruct (Z.eq_dec n 0) as [->|]; [|lia].
    exfalso. apply E. replace a with 0 by lia. replace b with 0 by lia. reflexivity. }
  apply Z.max_lub_lt; auto.
Qed.

Lemma lxor_u16 (a b : Z) : is_u16 a -> is_u16 b -> is_u16 (Z.lxor a b).
Proof. unfold is_u16. intros. apply (lxor_below 16); lia. Qed.

Lemma lxor_u8 (a b : Z) : is_u8 a -> is_u8 b -> is_u8 (Z.lxor a b).
Proof. unfold is_u8. intros. apply (lxor_below 8); lia. Qed.

Lemma shiftr8_u16 (c : Z) : is_u16 c -> is_u8 (Z.shiftr c 8).
Proof.
  unfold is_u16, is_u8. intros H. rewrite Z.shiftr_div_pow2 by lia.
  change (2 ^ 8) with 256. split.
  - apply Z.div_pos; lia.
  - apply Z.div_lt_upper_bound; lia.
Qed.

Lemma land_ff_u8 (c : Z) : 0 <= c -> is_u8 (Z.land c 0xff).
Proof.
  intros H. unfold is_u8. change 0xff with (Z.ones 8).
  rewrite Z.land_ones by lia. apply Z.mod_pos_bound. lia.
Qed.

(** ** The CRC table *)

Lemma seq_check (f : nat -> bool) (n : nat) :
  forallb f (seq 0 n) = true -> forall i, (i < n)%nat -> f i = true.
Proof.
  intros H i Hi. rewrite forallb_forall in H. apply H. apply in_seq. lia.
Qed.

Lemma fcstab_length : length fcstab = 256%nat.
Proof. reflexivity. Qed.

Lemma fcstab_u16 (i : nat) : is_u16 (nth i fcstab 0).
Proof.
  destruct (Nat.lt_ge_cases i 256) as [Hi|Hi].
  - assert (H : forallb (fun i => (0 <=? nth i fcstab 0) && (nth i fcstab 0 <? 65536))
                  (seq 0 256) = true) by (vm_compute; reflexivity).
    pose proof (seq_check _ _ H i Hi) as Hb. cbv beta in Hb.
    apply andb_true_iff in Hb. destruct Hb as [Hlo Hhi].
    apply Z.leb_le in Hlo. apply Z.ltb_lt in Hhi. unfold is_u16. lia.
  - rewrite nth_overflow by (rewrite fcstab_length; lia). unfold is_u16. lia.
Qed.

Lemma fcstab_reference (i : nat) :
  (i < 256)%nat -> nth i fcstab 0 = x25_table_entry (Z.of_nat i).
Proof.
  intros Hi.
  assert (H : forallb (fun i => nth i fcstab 0 =? x25_table_entry (Z.of_nat i))
                (seq 0 256) = true) by (vm_compute; reflexivity).
  pose proof (seq_check _ _ H i Hi) as Hb. cbv beta in Hb.
  apply Z.eqb_eq in Hb. exact Hb.
Qed.

Lemma openhdlc_crc_unfold (crc byte : Z) :
  is_u16 crc ->
  openhdlc_crc crc byte =
  Z.lxor (Z.shiftr crc 8) (nth (Z.to_nat (Z.land (Z.lxor crc byte) 0xff)) fcstab 0).
Proof.
  intros Hc. unfold openhdlc_crc. apply u16_small.
  apply lxor_u16; [|apply fcstab_u16].
  pose proof (shiftr8_u16 crc Hc). unfold is_u8, is_u16 in *. lia.
Qed.

Lemma openhdlc_crc_u16 (crc byte : Z) : is_u16 (openhdlc_crc crc byte).
Proof. unfold openhdlc_crc. apply u16_range. Qed.

(** C5: one CRC step is the table look-up of the low byte of
    [crc XOR byte], XORed with the accumulator shifted right by eight, and
    every entry of [fcstab] is the value obtained from its index by eight
    LSB-first shift-and-reduce rounds with the polynomial 0x8408. *)
Theorem openhdlc_crc_is_table_step :
  (forall crc byte, is_u16 crc -> is_u8 byte ->
     openhdlc_crc crc byte =
     Z.lxor (Z.shiftr crc 8)
            (nth (Z.to_nat (Z.land (Z.lxor crc byte) 0xff)) fcstab 0)) /\
  (forall i, (i < 256)%nat -> nth i fcstab 0 = x25_table_entry (Z.of_nat i)).
Proof.
  split.
  - intros crc byte Hc _. apply openhdlc_crc_unfold. exact Hc.
  - exact fcstab_reference.
Qed.

Lemma openhdlc_crc_is_table_step_witness :
  openhdlc_crc 0xffff 0x31 =
    Z.lxor (Z.shiftr 0xffff 8)
           (nth (Z.to_nat (Z.land (Z.lxor 0xffff 0x31) 0xff)) fcstab 0) /\
  nth 5 fcstab 0 = x25_table_entry 5.
Proof.
  split.
  - apply (proj1 openhdlc_crc_is_table_step); unfold is_u16, is_u8; lia.
  - apply (proj2 openhdlc_crc_is_table_step 5%nat). lia.
Defined.

(** ** The frame encoder *)

Lemma emitted_uartWrite policy data tx :
  emitted (uartWrite policy data tx) = emitted tx ++ [data].
Proof. unfold uartWrite. destruct (isTransmitting tx); reflexivity. Qed.

Lemma emitted_putByte policy b tx :
  emitted (putByte policy b tx) = emitted tx ++ stuffed b.
Proof.
  unfold putByte, stuffed.
  destruct ((b =? HDLC_FLAG) || (b =? HDLC_ESCAPE)).
  - rewrite !emitted_uartWrite, <- app_assoc. reflexivity.
  - apply emitted_uartWrite.
Qed.

Lemma Send_loop_spec policy bytes crc tx :
  Send_loop policy bytes crc tx =
  (fold_left openhdlc_crc bytes crc,
   snd (Send_loop policy bytes crc tx)) /\
  emitted (snd (Send_loop policy bytes crc tx)) =
  emitted tx ++ concat (map stuffed bytes).
Proof.
  revert crc tx. induction bytes as [|b bytes IH]; intros crc tx; simpl.
  - rewrite app_nil_r. auto.
  - destruct (IH (openhdlc_crc crc b) (putByte policy b tx)) as [E1 E2].
    split; [exact E1|].
    rewrite E2, emitted_putByte, <- app_assoc. reflexivity.
Qed.

(** The bytes of a frame on the wire. *)
Lemma emitted_Send policy packet tx :
  emitted (EMBENET_BRT_Send policy packet (length packet) tx) =
  emitted tx ++
  [HDLC_FLAG] ++ concat (map stuffed (frame_content packet)) ++ [HDLC_FLAG].
Proof.
  unfold EMBENET_BRT_Send, putFlag. rewrite firstn_all.
  destruct (Send_loop_spec policy packet HDLC_CRCINIT
              (uartWrite policy HDLC_FLAG tx)) as [E1 E2].
  rewrite E1. rewrite emitted_uartWrite, !emitted_putByte, E2, emitted_uartWrite.
  unfold frame_content, frame_crc, crc_low, crc_high.
  rewrite map_app, concat_app. simpl. rewrite app_nil_r.
  rewrite !(u8_small (Z.land _ 0xff)).
  - rewrite <- !app_assoc. reflexivity.
  - apply land_ff_u8. apply Z.shiftr_nonneg. apply u16_range.
  - apply land_ff_u8. apply Z.shiftr_nonneg. apply u16_range.
Qed.

Lemma wire_of_Send_eq policy packet :
  wire_of_Send policy packet =
  HDLC_FLAG :: concat (map stuffed (frame_content packet)) ++ [HDLC_FLAG].
Proof. unfold wire_of_Send. rewrite emitted_Send. reflexivity. Qed.

(** C4: the payload 01 7E 7D 02 goes on the wire as
    7E 01 7D 5E 7D 5D 02 crcLow crcHigh 7E: both delimiters are literal
    flags, 7D 5E and 7D 5D are the stuffed 7E and 7D, and the two bytes
    before the closing flag are the stuffed low and high byte of the
    complemented CRC-16/X-25 of the payload, here 08 and 13. *)
Theorem Send_concrete_scenario (policy : overflow_policy) :
  let payload := [0x01; 0x7e; 0x7d; 0x02] in
  let crc := x25_checksum payload in
  wire_of_Send policy payload =
    [0x7e; 0x01; 0x7d; 0x5e; 0x7d; 0x5d; 0x02]
      ++ stuffed (Z.land crc 0xff) ++ stuffed (Z.shiftr crc 8) ++ [0x7e] /\
  wire_of_Send policy payload =
    [0x7e; 0x01; 0x7d; 0x5e; 0x7d; 0x5d; 0x02; 0x08; 0x13; 0x7e] /\
  stuffed 0x7e = [0x7d; 0x5e] /\
  stuffed 0x7d = [0x7d; 0x5d] /\
  crc = 0x1308.
Proof.
  destruct policy; vm_compute; repeat split; reflexivity.
Qed.

(** ** The critical section *)

Lemma Enter_iter (cs : CriticalSection) (n : nat) :
  irqNestCounter cs = 0 -> Z.of_nat n <= INT_MAX ->
  let s := Nat.iter n EMBENET_CRITICAL_SECTION_Enter cs in
  irqNestCounter s = Z.of_nat n /\
  ((1 <= n)%nat -> PRIMASK s = 1 /\ previousIrqState s = PRIMASK cs).
Proof.
  intros H0. induction n as [|n IH]; intros Hn; cbn zeta.
  - simpl. split; [exact H0 | lia].
  - rewrite Nat.iter_succ.
    destruct IH as [IHc IHp]; [lia|].
    split.
    + cbn [EMBENET_CRITICAL_SECTION_Enter irqNestCounter].
      rewrite IHc. rewrite int32_small; unfold INT_MAX in *; lia.
    + intros _. cbn [EMBENET_CRITICAL_SECTION_Enter PRIMASK previousIrqState].
      split; [reflexivity|].
      rewrite IHc. destruct n as [|n].
      * reflexivity.
      * replace (0 =? Z.of_nat (S n)) with false by (symmetry; apply Z.eqb_neq; lia).
        apply IHp. lia.
Qed.

Lemma Exit_iter (s : CriticalSection) (m k : nat) :
  irqNestCounter s = Z.of_nat m -> Z.of_nat m <= INT_MAX -> (k < m)%nat ->
  let s' := Nat.iter k EMBENET_CRITICAL_SECTION_Exit s in
  irqNestCounter s' = Z.of_nat (m - k) /\
  PRIMASK s' = PRIMASK s /\
  previousIrqState s' = previousIrqState s.
Proof.
  intros Hc Hm. induction k as [|k IH]; intros Hk; cbn zeta.
  - simpl. rewrite Nat.sub_0_r. auto.
  - rewrite Nat.iter_succ.
    destruct IH as (IHc & IHp & IHq); [lia|].
    set (t := Nat.iter k EMBENET_CRITICAL_SECTION_Exit s) in *.
    assert (Hdec : int32 (irqNestCounter t - 1) = Z.of_nat (m - S k)).
    { rewrite IHc. rewrite int32_small; unfold INT_MAX in *; lia. }
    unfold EMBENET_CRITICAL_SECTION_Exit.
    cbn [irqNestCounter PRIMASK previousIrqState]. rewrite Hdec.
    replace (Z.of_nat (m - S k) <? 0) with false by (symmetry; apply Z.ltb_ge; lia).
    replace (0 =? Z.of_nat (m - S k)) with false by (symmetry; apply Z.eqb_neq; lia).
    cbn [andb]. repeat split; assumption.
Qed.

Lemma Exit_counter_nonneg (s : CriticalSection) :
  0 <= irqNestCounter (EMBENET_CRITICAL_SECTION_Exit s).
Proof.
  unfold EMBENET_CRITICAL_SECTION_Exit. cbn [irqNestCounter].
  destruct (int32 (irqNestCounter s - 1) <? 0) eqn:E; [lia|].
  apply Z.ltb_ge in E. exact E.
Qed.

Lemma Exit_at_zero (s : CriticalSection) :
  irqNestCounter s = 0 -> irqNestCounter (EMBENET_CRITICAL_SECTION_Exit s) = 0.
Proof.
  intros H. unfold EMBENET_CRITICAL_SECTION_Exit. simpl. rewrite H. reflexivity.
Qed.

(** C9: from a state outside of any critical section, [n] nested Enter
    calls ([1 <= n], a depth that an [int] can count) keep the interrupts
    disabled; they stay disabled through the first [n - 1] Exit calls,
    which count down; the [n]-th Exit brings the counter to 0 and leaves the
    interrupts enabled exactly when they were enabled before the outermost
    Enter.  An Exit at counter 0 leaves the counter at 0, and no Exit makes
    it negative. *)
Theorem critical_section_nesting (cs : CriticalSection) (n : nat) :
  irqNestCounter cs = 0 -> (1 <= n)%nat -> Z.of_nat n <= INT_MAX ->
  let entered := Nat.iter n EMBENET_CRITICAL_SECTION_Enter cs in
  (forall j, (1 <= j <= n)%nat ->
     irq_enabled (Nat.iter j EMBENET_CRITICAL_SECTION_Enter cs) = false) /\
  (forall k, (k < n)%nat ->
     irq_enabled (Nat.iter k EMBENET_CRITICAL_SECTION_Exit entered) = false /\
     irqNestCounter (Nat.iter k EMBENET_CRITICAL_SECTION_Exit entered)
       = Z.of_nat (n - k)) /\
  irqNestCounter (Nat.iter n EMBENET_CRITICAL_SECTION_Exit entered) = 0 /\
  irq_enabled (Nat.iter n EMBENET_CRITICAL_SECTION_Exit entered) = irq_enabled cs /\
  (forall s, irqNestCounter s = 0 ->
     irqNestCounter (EMBENET_CRITICAL_SECTION_Exit s) = 0) /\
  (forall s, 0 <= irqNestCounter (EMBENET_CRITICAL_SECTION_Exit s)).
Proof.
  intros H0 H1 Hmax entered.
  destruct (Enter_iter cs n H0 Hmax) as [Ec Ep]. fold entered in Ec, Ep.
  destruct (Ep H1) as [Emask Eprev].
  assert (Hdown : forall k, (k < n)%nat ->
            irqNestCounter (Nat.iter k EMBENET_CRITICAL_SECTION_Exit entered)
              = Z.of_nat (n - k) /\
            PRIMASK (Nat.iter k EMBENET_CRITICAL_SECTION_Exit entered) = 1 /\
            previousIrqState (Nat.iter k EMBENET_CRITICAL_SECTION_Exit entered)
              = PRIMASK cs).
  { intros k Hk. destruct (Exit_iter entered n k Ec Hmax Hk) as (A & B & C).
    rewrite A, B, C. auto. }
  split; [|split; [|split; [|split; [|split]]]].
  - intros j Hj. destruct (Enter_iter cs j H0) as [_ Hp]; [lia|].
    destruct Hp as [Hp _]; [lia|]. unfold irq_enabled. rewrite Hp. reflexivity.
  - intros k Hk. destruct (Hdown k Hk) as (A & B & _).
    split; [unfold irq_enabled; rewrite B; reflexivity | exact A].
  - destruct n as [|n]; [lia|]. rewrite Nat.iter_succ.
    destruct (Hdown n) as (A & _); [lia|].
    set (t := Nat.iter n EMBENET_CRITICAL_SECTION_Exit entered) in *.
    unfold EMBENET_CRITICAL_SECTION_Exit. cbn [irqNestCounter]. rewrite A.
    replace (Z.of_nat (S n - n)) with 1 by lia. reflexivity.
  - destruct n as [|n]; [lia|]. rewrite Nat.iter_succ.
    destruct (Hdown n) as (A & B & C); [lia|].
    set (t := Nat.iter n EMBENET_CRITICAL_SECTION_Exit entered) in *.
    unfold EMBENET_CRITICAL_SECTION_Exit, irq_enabled.
    cbn [irqNestCounter PRIMASK previousIrqState]. rewrite A, B, C.
    replace (Z.of_nat (S n - n)) with 1 by lia.
    change (int32 (1 - 1)) with 0. change (0 <? 0) with false.
    change (0 =? 0) with true. cbn [andb].
    destruct (Z.eqb_spec 0 (PRIMASK cs)) as [E|E].
    + rewrite <- E. reflexivity.
    + symmetry. apply Z.eqb_neq. lia.
  - exact Exit_at_zero.
  - exact Exit_counter_nonneg.
Qed.

Lemma critical_section_nesting_witness :
  let cs := {| irqNestCounter := 0; previousIrqState := 0; PRIMASK := 0 |} in
  irqNestCounter
    (Nat.iter 3 EMBENET_CRITICAL_SECTION_Exit
       (Nat.iter 3 EMBENET_CRITICAL_SECTION_Enter cs)) = 0 /\
  irq_enabled
    (Nat.iter 3 EMBENET_CRITICAL_SECTION_Exit
       (Nat.iter 3 EMBENET_CRITICAL_SECTION_Enter cs)) = irq_enabled cs.
Proof.
  intros cs.
  assert (H0 : irqNestCounter cs = 0) by reflexivity.
  assert (H1 : (1 <= 3)%nat) by lia.
  assert (H2 : Z.of_nat 3 <= INT_MAX) by (unfold INT_MAX; lia).
  destruct (critical_section_nesting cs 3 H0 H1 H2) as (_ & _ & A & B & _).
  split; [exact A | exact B].
Defined.

(** ** The transmit pump *)

Lemma GetChar_None (rb : RingBuffer) :
  RingBuffer_GetChar rb = None <-> RingBuffer_GetLen rb = 0%nat.
Proof.
  unfold RingBuffer_GetChar, RingBuffer_GetLen.
  destruct (rb_bytes rb); simpl; split; intros; (congruence || lia).
Qed.

(** C10: in every state reached from EMBENET_BRT_Init by emissions
    ([uartWrite], the only way in which Send and SendRaw touch the
    transmitter) and transmit interrupts, an idle transmitter has an empty
    outbound queue. *)
Theorem idle_transmitter_has_empty_queue (policy : overflow_policy) (tx : Tx) :
  tx_reachable policy tx ->
  isTransmitting tx = false ->
  RingBuffer_GetLen (outputRingBufferDesc tx) = 0%nat.
Proof.
  induction 1 as [s | data tx Hr IH | tx Hr IH]; intros Hidle.
  - reflexivity.
  - unfold uartWrite in Hidle. destruct (isTransmitting tx) eqn:E; simpl in Hidle.
    + congruence.
    + discriminate.
  - unfold tx_isr in *.
    destruct (RingBuffer_GetChar (outputRingBufferDesc tx)) as [[chunk rb]|] eqn:E.
    + simpl in Hidle. apply IH in Hidle. apply GetChar_None in Hidle. congruence.
    + simpl. apply GetChar_None. exact E.
Qed.

Lemma idle_transmitter_has_empty_queue_witness :
  RingBuffer_GetLen
    (outputRingBufferDesc
       (tx_isr (uartWrite RejectWhenFull 0x41
                  (brt_tx (EMBENET_BRT_Init brt_boot))))) = 0%nat.
Proof.
  apply (idle_transmitter_has_empty_queue RejectWhenFull).
  - apply tx_reach_tx_isr, tx_reach_uartWrite, tx_reach_init.
  - reflexivity.
Defined.

(** As long as the outbound queue has room, the bytes passed to [uartWrite]
    are, in order, the bytes already written to the UART followed by the
    bytes waiting in the queue: nothing is lost or reordered on the way to
    the wire. *)
Lemma emitted_is_sent_then_queued (policy : overflow_policy) (tx : Tx) :
  tx_lossless policy tx ->
  emitted tx = uartTxRegister tx ++ rb_bytes (outputRingBufferDesc tx) /\
  (isTransmitting tx = false -> rb_bytes (outputRingBufferDesc tx) = []).
Proof.
  induction 1 as [|data tx Hl [IHe IHi] Hroom|tx Hl [IHe IHi]].
  - split; reflexivity.
  - unfold uartWrite, RingBuffer_PutChar, RingBuffer_GetLen in *.
    destruct (isTransmitting tx) eqn:E.
    + replace (length (rb_bytes (outputRingBufferDesc tx))
                 <? rb_capacity (outputRingBufferDesc tx))%nat
        with true by (symmetry; apply Nat.ltb_lt; exact Hroom).
      cbn [emitted uartTxRegister outputRingBufferDesc isTransmitting fst rb_bytes].
      rewrite IHe, app_assoc. split; [reflexivity | discriminate].
    + cbn [emitted uartTxRegister outputRingBufferDesc isTransmitting].
      rewrite IHe, (IHi eq_refl), !app_nil_r. split; [reflexivity | discriminate].
  - unfold tx_isr, RingBuffer_GetChar.
    destruct (rb_bytes (outputRingBufferDesc tx)) as [|c rest] eqn:E.
    + cbn [emitted uartTxRegister outputRingBufferDesc isTransmitting].
      rewrite E. split; [exact IHe | reflexivity].
    + cbn [emitted uartTxRegister outputRingBufferDesc isTransmitting rb_bytes].
      rewrite IHe, <- app_assoc. split; [reflexivity|].
      intros Hidle. apply IHi in Hidle. discriminate.
Qed.

(** ** The frame decoder: one byte *)

Lemma eqb_refl_flag : (HDLC_FLAG =? HDLC_FLAG) = true.
Proof. reflexivity. Qed.

Lemma Receive_body_searching rb frame idx prev b :
  Receive_body (Build_Rx rb frame idx false prev) b =
  Ok (if HDLC_FLAG =? b
      then Build_Rx rb frame 0 true b
      else Build_Rx rb frame idx false b, false).
Proof.
  unfold Receive_body, bind, set_index, set_receiving, set_last.
  cbn [inputFrameReceiving negb]. destruct (HDLC_FLAG =? b); reflexivity.
Qed.

Lemma Receive_body_flag_after_flag rb frame idx :
  Receive_body (Build_Rx rb frame idx true HDLC_FLAG) HDLC_FLAG =
  Ok (Build_Rx rb frame 0 true HDLC_FLAG, false).
Proof. reflexivity. Qed.

Lemma Receive_body_closing_flag rb frame idx prev :
  prev <> HDLC_FLAG ->
  Receive_body (Build_Rx rb frame idx true prev) HDLC_FLAG =
  Ok (if (2 <? idx)%nat
      then Build_Rx rb frame idx false HDLC_FLAG
      else Build_Rx rb frame 0 true HDLC_FLAG, true && (2 <? idx)%nat).
Proof.
  intros Hp. unfold Receive_body, bind, set_index, set_receiving, set_last.
  cbn [inputFrameReceiving inputFrameDataIndex lastDataByte negb
       inputRingBufferDesc inputFrame].
  rewrite eqb_refl_flag.
  replace (HDLC_FLAG =? prev) with false by (symmetry; apply Z.eqb_neq; congruence).
  cbn [negb andb]. destruct (2 <? idx)%nat; reflexivity.
Qed.

Lemma Receive_body_data rb frame idx prev b :
  b <> HDLC_FLAG -> (idx < length frame)%nat ->
  length frame = EMBENET_BRT_MAX_FRAME_SIZE ->
  Receive_body (Build_Rx rb frame idx true prev) b =
  Ok (if HDLC_ESCAPE =? b
      then Build_Rx rb frame idx true b
      else Build_Rx rb
             (<[idx := if HDLC_ESCAPE =? prev
                       then u8 (Z.lxor b HDLC_ESCAPE_MASK) else b]> frame)
             (S idx) true b, false).
Proof.
  intros Hb Hi Hlen. unfold Receive_body, bind, set_index, set_receiving, set_last,
    set_frame, store.
  cbn [inputFrameReceiving inputFrameDataIndex lastDataByte negb
       inputRingBufferDesc inputFrame].
  replace (HDLC_FLAG =? b) with false by (symmetry; apply Z.eqb_neq; congruence).
  replace (idx <? EMBENET_BRT_MAX_FRAME_SIZE)%nat with true
    by (symmetry; apply Nat.ltb_lt; lia).
  destruct (HDLC_ESCAPE =? b); cbn [negb]; [reflexivity|].
  replace (idx <? length frame)%nat with true by (symmetry; apply Nat.ltb_lt; lia).
  destruct (HDLC_ESCAPE =? prev); reflexivity.
Qed.

Lemma Receive_body_overflow rx b :
  inputFrameReceiving rx = true ->
  inputFrameDataIndex rx = EMBENET_BRT_MAX_FRAME_SIZE ->
  b <> HDLC_FLAG ->
  Receive_body rx b = Ok (aborted b rx, false).
Proof.
  intros Hr Hi Hb. unfold Receive_body, bind, aborted. rewrite Hr. cbn [negb].
  replace (HDLC_FLAG =? b) with false by (symmetry; apply Z.eqb_neq; congruence).
  rewrite Hi, Nat.ltb_irrefl. reflexivity.
Qed.

(** The body never stores outside of the accumulator, and a completed frame
    has more than two bytes. *)
Lemma Receive_body_in_bounds rx b :
  decoder_in_bounds rx ->
  exists rx' fc,
    Receive_body rx b = Ok (rx', fc) /\
    decoder_in_bounds rx' /\
    inputRingBufferDesc rx' = inputRingBufferDesc rx /\
    (fc = true -> (2 < inputFrameDataIndex rx')%nat).
Proof.
  destruct rx as [rb frame idx recv prev]. unfold decoder_in_bounds.
  cbn [inputFrame inputFrameDataIndex]. intros [Hlen Hidx].
  destruct recv.
  - destruct (Z.eq_dec b HDLC_FLAG) as [->|Hb].
    + destruct (Z.eq_dec prev HDLC_FLAG) as [->|Hp].
      * rewrite Receive_body_flag_after_flag. do 2 eexists.
        split; [reflexivity|]. cbn. repeat split; (lia || congruence).
      * rewrite Receive_body_closing_flag by exact Hp.
        destruct (Nat.ltb_spec 2 idx); do 2 eexists; (split; [reflexivity|]);
          cbn; repeat split; (lia || congruence).
    + destruct (Nat.eq_dec idx EMBENET_BRT_MAX_FRAME_SIZE) as [E|E].
      * rewrite Receive_body_overflow by first [reflexivity | assumption].
        do 2 eexists. split; [reflexivity|]. cbn. repeat split; (lia || congruence).
      * rewrite Receive_body_data by (try assumption; lia).
        destruct (HDLC_ESCAPE =? b); do 2 eexists; (split; [reflexivity|]);
          cbn [inputFrame inputFrameDataIndex inputRingBufferDesc];
          rewrite ?length_insert; repeat split; (lia || congruence).
  - rewrite Receive_body_searching.
    destruct (HDLC_FLAG =? b); do 2 eexists; (split; [reflexivity|]);
      cbn; repeat split; (lia || congruence).
Qed.

(** ** The frame decoder: the loop *)

Lemma Receive_loop_cons fuel cap b rest frame idx recv prev :
  Receive_loop (S fuel) (Build_Rx (Build_RingBuffer cap (b :: rest)) frame idx recv prev) =
  match Receive_body (Build_Rx (Build_RingBuffer cap rest) frame idx recv prev) b with
  | Ok (rx, true) => Ok (rx, true)
  | Ok (rx, false) => Receive_loop fuel rx
  | Fault f => Fault f
  end.
Proof. reflexivity. Qed.

Lemma Receive_loop_empty fuel cap frame idx recv prev :
  Receive_loop (S fuel) (Build_Rx (Build_RingBuffer cap []) frame idx recv prev) =
  Ok (Build_Rx (Build_RingBuffer cap []) frame idx recv prev, false).
Proof. reflexivity. Qed.

Lemma last_of_Forall (P : Z -> Prop) (w : list Z) (prev : Z) :
  P prev -> Forall P w -> P (last_of prev w).
Proof.
  revert prev. induction w as [|b w IH]; intros prev Hp Hw; simpl; [exact Hp|].
  inversion Hw; subst. apply IH; assumption.
Qed.

Lemma last_of_app (w1 w2 : list Z) (prev : Z) :
  last_of prev (w1 ++ w2) = last_of (last_of prev w1) w2.
Proof. revert prev. induction w1 as [|b w1 IH]; intros prev; simpl; auto. Qed.

Lemma unstuff_app (w1 w2 : list Z) (prev : Z) :
  unstuff prev (w1 ++ w2) = unstuff prev w1 ++ unstuff (last_of prev w1) w2.
Proof.
  revert prev. induction w1 as [|b w1 IH]; intros prev; simpl; [reflexivity|].
  destruct (HDLC_ESCAPE =? b); simpl; rewrite IH; reflexivity.
Qed.

Lemma unstuff_stores (w : list Z) (prev : Z) :
  w <> [] -> last_of prev w <> HDLC_ESCAPE -> (1 <= length (unstuff prev w))%nat.
Proof.
  revert prev. induction w as [|b w IH]; intros prev Hne Hlast; [congruence|].
  simpl in *. destruct (Z.eqb_spec HDLC_ESCAPE b) as [E|E]; [|simpl; lia].
  apply IH; [|exact Hlast]. intros ->. simpl in Hlast. congruence.
Qed.

(** A run of wire bytes without flag, received while a frame is open, is
    stored unstuffed from the current index on, as long as it fits. *)
Lemma Receive_loop_run (w : list Z) :
  forall fuel cap rest frame idx prev,
    Forall (fun b => b <> HDLC_FLAG) w ->
    w = [] \/ last_of prev w <> HDLC_ESCAPE ->
    length frame = EMBENET_BRT_MAX_FRAME_SIZE ->
    (idx + length (unstuff prev w) <= EMBENET_BRT_MAX_FRAME_SIZE)%nat ->
    Receive_loop (length w + fuel)
      (Build_Rx (Build_RingBuffer cap (w ++ rest)) frame idx true prev) =
    Receive_loop fuel
      (Build_Rx (Build_RingBuffer cap rest)
         (take idx frame ++ unstuff prev w
            ++ drop (idx + length (unstuff prev w)) frame)
         (idx + length (unstuff prev w)) true (last_of prev w)).
Proof.
  induction w as [|b w IH]; intros fuel cap rest frame idx prev Hw Hlast Hlen Hfit.
  - simpl. rewrite Nat.add_0_r, take_drop. reflexivity.
  - inversion Hw as [|? ? Hb Hw']; subst.
    destruct Hlast as [Hnil|Hlast]; [discriminate|].
    cbn [length Nat.add app]. rewrite Receive_loop_cons.
    assert (Hidx : (idx < length frame)%nat).
    { rewrite Hlen. simpl in Hfit, Hlast.
      destruct (Z.eqb_spec HDLC_ESCAPE b) as [E|E]; [|simpl in Hfit; lia].
      assert (1 <= length (unstuff b w))%nat; [|lia].
      apply unstuff_stores; [|exact Hlast]. intros ->. simpl in Hlast. congruence. }
    rewrite Receive_body_data by assumption.
    cbn [unstuff last_of] in *.
    destruct (HDLC_ESCAPE =? b).
    + apply IH; auto.
    + cbn [length] in Hfit.
      rewrite IH; [|assumption|auto|rewrite length_insert; assumption|lia].
      set (v := if HDLC_ESCAPE =? prev then u8 (Z.lxor b HDLC_ESCAPE_MASK) else b).
      rewrite (take_S_r _ _ v) by (apply list_lookup_insert_eq; exact Hidx).
      rewrite take_insert_ge by lia.
      rewrite drop_insert_lt by lia.
      cbn [length]. rewrite <- app_assoc. cbn [app].
      replace (S idx + length (unstuff b w))%nat
        with (idx + S (length (unstuff b w)))%nat by lia.
      reflexivity.
Qed.

Lemma Receive_loop_opening_flags (k : nat) :
  forall fuel cap q frame idx recv prev,
    (1 <= k)%nat -> recv = false \/ prev = HDLC_FLAG ->
    Receive_loop (k + fuel)
      (Build_Rx (Build_RingBuffer cap (replicate k HDLC_FLAG ++ q)) frame idx recv prev) =
    Receive_loop fuel (Build_Rx (Build_RingBuffer cap q) frame 0 true HDLC_FLAG).
Proof.
  induction k as [|k IH]; intros fuel cap q frame idx recv prev Hk Hstart; [lia|].
  cbn [replicate app Nat.add]. rewrite Receive_loop_cons.
  assert (E : Receive_body (Build_Rx (Build_RingBuffer cap (replicate k HDLC_FLAG ++ q))
                              frame idx recv prev) HDLC_FLAG =
              Ok (Build_Rx (Build_RingBuffer cap (replicate k HDLC_FLAG ++ q))
                    frame 0 true HDLC_FLAG, false)).
  { destruct recv.
    - destruct Hstart as [?| ->]; [discriminate|]. apply Receive_body_flag_after_flag.
    - rewrite Receive_body_searching, eqb_refl_flag. reflexivity. }
  rewrite E. destruct k as [|k]; [reflexivity|].
  apply IH; [lia | right; reflexivity].
Qed.

Lemma Receive_loop_delimited (w : list Z) fuel cap rest frame :
  Forall (fun b => b <> HDLC_FLAG) w ->
  w = [] \/ last_of HDLC_FLAG w <> HDLC_ESCAPE ->
  length frame = EMBENET_BRT_MAX_FRAME_SIZE ->
  (length (unstuff HDLC_FLAG w) <= EMBENET_BRT_MAX_FRAME_SIZE)%nat ->
  let n := length (unstuff HDLC_FLAG w) in
  let F := unstuff HDLC_FLAG w ++ drop n frame in
  Receive_loop (length w + S fuel)
    (Build_Rx (Build_RingBuffer cap (w ++ HDLC_FLAG :: rest)) frame 0 true HDLC_FLAG) =
  if (2 <? n)%nat
  then Ok (Build_Rx (Build_RingBuffer cap rest) F n false HDLC_FLAG, true)
  else Receive_loop fuel (rx_ready cap rest F).
Proof.
  intros Hw Hlast Hlen Hfit n F.
  rewrite Receive_loop_run by (try assumption; simpl; lia).
  cbn [Nat.add take app]. fold n. fold F.
  rewrite Receive_loop_cons.
  destruct w as [|b w].
  - cbn [last_of]. rewrite Receive_body_flag_after_flag. reflexivity.
  - rewrite Receive_body_closing_flag.
    + destruct (2 <? n)%nat; reflexivity.
    + cbn [last_of]. inversion Hw; subst.
      apply (last_of_Forall (fun b => b <> HDLC_FLAG)); assumption.
Qed.

Lemma rx_isr_fits policy b cap bytes frame idx recv prev :
  (length bytes < cap)%nat ->
  rx_isr policy b (Build_Rx (Build_RingBuffer cap bytes) frame idx recv prev) =
  Build_Rx (Build_RingBuffer cap (bytes ++ [b])) frame idx recv prev.
Proof.
  intros H. unfold rx_isr, RingBuffer_PutChar, set_ring.
  cbn [inputRingBufferDesc rb_bytes rb_capacity inputFrame inputFrameDataIndex
       inputFrameReceiving lastDataByte].
  replace (length bytes <? cap)%nat with true by (symmetry; apply Nat.ltb_lt; lia).
  reflexivity.
Qed.

Lemma rx_stream_fits policy (stream : list Z) :
  forall cap bytes frame idx recv prev,
    (length bytes + length stream <= cap)%nat ->
    rx_stream policy stream (Build_Rx (Build_RingBuffer cap bytes) frame idx recv prev) =
    Build_Rx (Build_RingBuffer cap (bytes ++ stream)) frame idx recv prev.
Proof.
  induction stream as [|b stream IH]; intros cap bytes frame idx recv prev Hfit.
  - simpl. rewrite app_nil_r. reflexivity.
  - cbn [length] in Hfit.
    change (rx_stream policy (b :: stream) ?rx)
      with (rx_stream policy stream (rx_isr policy b rx)).
    rewrite rx_isr_fits by lia.
    rewrite IH by (rewrite length_app; simpl; lia).
    rewrite <- app_assoc. reflexivity.
Qed.

Lemma rx_after_fits policy (stream : list Z) :
  (length stream <= INPUT_RING_BUFFER_SIZE)%nat ->
  rx_after policy stream =
  Build_Rx (Build_RingBuffer INPUT_RING_BUFFER_SIZE stream)
    (replicate EMBENET_BRT_MAX_FRAME_SIZE 0) 0 false 0.
Proof.
  intros H. unfold rx_after. cbn [EMBENET_BRT_Init brt_rx brt_boot].
  unfold set_ring, RingBuffer_Init. cbn [inputFrame inputFrameDataIndex
    inputFrameReceiving lastDataByte].
  rewrite rx_stream_fits by (simpl; lia). reflexivity.
Qed.

Lemma Receive_after_loop rx rx1 fc buf size :
  Receive_loop (S (RingBuffer_GetLen (inputRingBufferDesc rx))) rx = Ok (rx1, fc) ->
  EMBENET_BRT_Receive rx buf size =
  if fc && (0 <? inputFrameDataIndex rx1)%nat then
    if crc_matches (inputFrame rx1) (inputFrameDataIndex rx1) then
      if (inputFrameDataIndex rx1 - 2 <=? size)%nat then
        let? b := memcpy buf (inputFrame rx1) (inputFrameDataIndex rx1 - 2) in
        Ok (set_index 0 (set_receiving true rx1), b, (inputFrameDataIndex rx1 - 2)%nat)
      else
        let? b := memcpy buf (inputFrame rx1) size in
        Ok (set_index 0 (set_receiving true rx1), b, 0%nat)
    else Ok (set_index 0 (set_receiving true rx1), buf, 0%nat)
  else Ok (rx1, buf, 0%nat).
Proof.
  intros H. unfold EMBENET_BRT_Receive. rewrite H. reflexivity.
Qed.

Lemma crc_matches_app (U T : list Z) (n : nat) :
  (2 <= n <= length U)%nat -> crc_matches (U ++ T) n = crc_matches U n.
Proof.
  intros Hn. unfold crc_matches.
  rewrite take_app_le by lia.
  rewrite !(app_nth1 U T) by lia. reflexivity.
Qed.

(** What EMBENET_BRT_Receive makes of a stream that consists of [k] flags,
    a run of bytes without flag and a closing flag, when it starts in the
    initial state of the decoder. *)
Lemma Receive_delimited policy (k : nat) (w buf : list Z) (size : nat) :
  (1 <= k)%nat ->
  Forall (fun b => b <> HDLC_FLAG) w ->
  w = [] \/ last_of HDLC_FLAG w <> HDLC_ESCAPE ->
  (length (unstuff HDLC_FLAG w) <= EMBENET_BRT_MAX_FRAME_SIZE)%nat ->
  (k + length w + 1 <= INPUT_RING_BUFFER_SIZE)%nat ->
  let U := unstuff HDLC_FLAG w in
  let n := length U in
  let F := U ++ drop n (replicate EMBENET_BRT_MAX_FRAME_SIZE 0) in
  let ready := rx_ready INPUT_RING_BUFFER_SIZE [] F in
  EMBENET_BRT_Receive (rx_after policy (replicate k HDLC_FLAG ++ w ++ [HDLC_FLAG])) buf size =
  if (2 <? n)%nat && crc_matches U n then
    if (n - 2 <=? size)%nat
    then let? b := memcpy buf F (n - 2) in Ok (ready, b, (n - 2)%nat)
    else let? b := memcpy buf F size in Ok (ready, b, 0%nat)
  else Ok (ready, buf, 0%nat).
Proof.
  intros Hk Hw Hlast Hfit Hcap U n F ready.
  rewrite rx_after_fits by (rewrite !length_app, length_replicate; simpl; lia).
  set (rx0 := Build_Rx _ _ _ _ _).
  assert (Hloop :
    Receive_loop (S (RingBuffer_GetLen (inputRingBufferDesc rx0))) rx0 =
    if (2 <? n)%nat
    then Ok (Build_Rx (Build_RingBuffer INPUT_RING_BUFFER_SIZE []) F n false HDLC_FLAG, true)
    else Ok (ready, false)).
  { unfold rx0, RingBuffer_GetLen. cbn [inputRingBufferDesc rb_bytes].
    replace (S (length (replicate k HDLC_FLAG ++ w ++ [HDLC_FLAG])))
      with (k + (length w + S 1))%nat
      by (rewrite !length_app, length_replicate; simpl; lia).
    rewrite Receive_loop_opening_flags by auto.
    rewrite Receive_loop_delimited
      by (try assumption; apply length_replicate).
    fold U. fold n. fold F. destruct (2 <? n)%nat; reflexivity. }
  destruct (Nat.ltb_spec 2 n) as [Hn|Hn].
  - rewrite (Receive_after_loop _ _ _ _ _ Hloop).
    cbn [inputFrameDataIndex inputFrame andb].
    replace (0 <? n)%nat with true by (symmetry; apply Nat.ltb_lt; lia).
    unfold F at 1. rewrite crc_matches_app by (fold n; lia).
    reflexivity.
  - rewrite (Receive_after_loop _ _ _ _ _ Hloop). reflexivity.
Qed.

(** ** Stuffing and unstuffing *)

Lemma stuffed_cases (b : Z) :
  (b = HDLC_FLAG /\ stuffed b = [0x7d; 0x5e]) \/
  (b = HDLC_ESCAPE /\ stuffed b = [0x7d; 0x5d]) \/
  (b <> HDLC_FLAG /\ b <> HDLC_ESCAPE /\ stuffed b = [b]).
Proof.
  unfold stuffed.
  destruct (Z.eqb_spec b HDLC_FLAG) as [->|Hf]; [left; split; reflexivity|].
  destruct (Z.eqb_spec b HDLC_ESCAPE) as [->|He]; [right; left; split; reflexivity|].
  right; right. auto.
Qed.

Lemma stuffed_no_flag (b : Z) : Forall (fun c => c <> HDLC_FLAG) (stuffed b).
Proof.
  destruct (stuffed_cases b) as [[_ ->]|[[_ ->]|(Hf & _ & ->)]];
    repeat constructor; (discriminate || assumption).
Qed.

Lemma length_stuffed (b : Z) : (1 <= length (stuffed b) <= 2)%nat.
Proof.
  destruct (stuffed_cases b) as [[_ ->]|[[_ ->]|(_ & _ & ->)]]; simpl; lia.
Qed.

Lemma unstuff_stuffed (b prev : Z) (w : list Z) :
  prev <> HDLC_ESCAPE ->
  unstuff prev (stuffed b ++ w) = b :: unstuff (last_of prev (stuffed b)) w /\
  last_of prev (stuffed b) <> HDLC_ESCAPE.
Proof.
  intros Hp.
  destruct (stuffed_cases b) as [[-> ->]|[[-> ->]|(Hf & He & ->)]].
  - split; [reflexivity | discriminate].
  - split; [reflexivity | discriminate].
  - cbn [app unstuff last_of].
    replace (HDLC_ESCAPE =? b) with false by (symmetry; apply Z.eqb_neq; congruence).
    replace (HDLC_ESCAPE =? prev) with false by (symmetry; apply Z.eqb_neq; congruence).
    auto.
Qed.

Lemma unstuff_concat_stuffed (U : list Z) (prev : Z) :
  prev <> HDLC_ESCAPE ->
  unstuff prev (concat (map stuffed U)) = U /\
  last_of prev (concat (map stuffed U)) <> HDLC_ESCAPE.
Proof.
  revert prev. induction U as [|b U IH]; intros prev Hp; [simpl; auto|].
  cbn [map concat].
  destruct (unstuff_stuffed b prev (concat (map stuffed U)) Hp) as [E1 E2].
  destruct (IH _ E2) as [E3 E4].
  rewrite E1, E3, last_of_app. auto.
Qed.

Lemma concat_stuffed_no_flag (U : list Z) :
  Forall (fun c => c <> HDLC_FLAG) (concat (map stuffed U)).
Proof.
  induction U as [|b U IH]; cbn [map concat]; [constructor|].
  apply Forall_app. split; [apply stuffed_no_flag | exact IH].
Qed.

Lemma length_concat_stuffed (U : list Z) :
  (length U <= length (concat (map stuffed U)) <= 2 * length U)%nat.
Proof.
  induction U as [|b U IH]; cbn [map concat length]; [lia|].
  rewrite length_app. pose proof (length_stuffed b). lia.
Qed.

Lemma length_frame_content (P : list Z) :
  length (frame_content P) = (length P + 2)%nat.
Proof. unfold frame_content. rewrite length_app. reflexivity. Qed.

Lemma crc_matches_frame_content (P : list Z) :
  crc_matches (frame_content P) (length P + 2) = true.
Proof.
  unfold crc_matches, frame_content.
  replace (length P + 2 - 2)%nat with (length P) by lia.
  replace (length P + 2 - 1)%nat with (S (length P)) by lia.
  rewrite take_app_length.
  rewrite !app_nth2 by lia.
  rewrite Nat.sub_diag. replace (S (length P) - length P)%nat with 1%nat by lia.
  cbn [nth]. rewrite !Z.eqb_refl. reflexivity.
Qed.

(** ** Frames built by EMBENET_BRT_Send, seen by EMBENET_BRT_Receive *)

Lemma memcpy_prefix (buf P T : list Z) (m : nat) :
  (m <= length buf)%nat -> (m <= length P)%nat ->
  memcpy buf (P ++ T) m = Ok (take m P ++ drop m buf).
Proof.
  intros Hb HP. unfold memcpy.
  replace (m <=? length buf)%nat with true by (symmetry; apply Nat.leb_le; lia).
  replace (m <=? length (P ++ T))%nat with true
    by (symmetry; apply Nat.leb_le; rewrite length_app; lia).
  cbn [andb]. rewrite take_app_le by lia. reflexivity.
Qed.

Lemma Receive_valid_frame policy (k : nat) (P buf : list Z) (size : nat) :
  (1 <= k <= 2)%nat -> (1 <= length P <= 198)%nat -> (size <= length buf)%nat ->
  EMBENET_BRT_Receive
    (rx_after policy
       (replicate k HDLC_FLAG ++ concat (map stuffed (frame_content P)) ++ [HDLC_FLAG]))
    buf size =
  if (length P <=? size)%nat
  then Ok (rx_ready INPUT_RING_BUFFER_SIZE [] (frame_left P),
           P ++ drop (length P) buf, length P)
  else Ok (rx_ready INPUT_RING_BUFFER_SIZE [] (frame_left P),
           take size P ++ drop size buf, 0%nat).
Proof.
  intros Hk HP Hsize.
  destruct (unstuff_concat_stuffed (frame_content P) HDLC_FLAG) as [EU Elast];
    [discriminate|].
  pose proof (length_concat_stuffed (frame_content P)) as Hlen.
  rewrite length_frame_content in Hlen.
  rewrite Receive_delimited.
  - rewrite EU, length_frame_content.
    replace (2 <? length P + 2)%nat with true by (symmetry; apply Nat.ltb_lt; lia).
    rewrite crc_matches_frame_content. cbn [andb].
    replace (length P + 2 - 2)%nat with (length P) by lia.
    fold (frame_left P). unfold frame_left, frame_content.
    rewrite <- !app_assoc.
    destruct (Nat.leb_spec (length P) size) as [Hle|Hgt].
    + rewrite memcpy_prefix by lia. rewrite firstn_all. reflexivity.
    + rewrite memcpy_prefix by lia. reflexivity.
  - lia.
  - apply concat_stuffed_no_flag.
  - right. exact Elast.
  - rewrite EU, length_frame_content. unfold EMBENET_BRT_MAX_FRAME_SIZE. lia.
  - unfold INPUT_RING_BUFFER_SIZE. lia.
Qed.

(** C2: a payload of 1 to 198 bytes that EMBENET_BRT_Send put on the wire
    and that arrived at a decoder in its initial state is returned by
    EMBENET_BRT_Receive: with a capacity of at least the payload length the
    call returns that length, the buffer starts with the payload and is
    untouched behind it. *)
Theorem Send_Receive_round_trip (policy : overflow_policy) (P buf : list Z) (size : nat) :
  (1 <= length P <= 198)%nat ->
  (length P <= size)%nat -> (size <= length buf)%nat ->
  exists rx' buf',
    EMBENET_BRT_Receive (rx_after policy (wire_of_Send policy P)) buf size
      = Ok (rx', buf', length P) /\
    take (length P) buf' = P /\
    drop (length P) buf' = drop (length P) buf.
Proof.
  intros HP Hsize Hbuf.
  rewrite wire_of_Send_eq.
  change (HDLC_FLAG :: ?w) with (replicate 1 HDLC_FLAG ++ w).
  rewrite Receive_valid_frame by (try assumption; lia).
  replace (length P <=? size)%nat with true by (symmetry; apply Nat.leb_le; lia).
  do 2 eexists. split; [reflexivity|].
  split; [apply take_app_length | apply drop_app_length].
Qed.

Lemma Send_Receive_round_trip_witness :
  exists rx' buf',
    EMBENET_BRT_Receive
      (rx_after RejectWhenFull (wire_of_Send RejectWhenFull [0x01; 0x7e; 0x7d; 0x02]))
      [0; 0; 0; 0; 0; 0] 5
      = Ok (rx', buf', 4%nat) /\
    take 4 buf' = [0x01; 0x7e; 0x7d; 0x02] /\
    drop 4 buf' = [0; 0].
Proof.
  apply (Send_Receive_round_trip RejectWhenFull [0x01; 0x7e; 0x7d; 0x02]
           [0; 0; 0; 0; 0; 0] 5); simpl; lia.
Defined.

Lemma Receive_idle cap frame buf size :
  EMBENET_BRT_Receive (rx_ready cap [] frame) buf size =
  Ok (rx_ready cap [] frame, buf, 0%nat).
Proof. reflexivity. Qed.

(** C8: the stream FLAG FLAG F' FLAG, where F' is what EMBENET_BRT_Send put
    between the two flags of the frame of a payload of 1 to 198 bytes, gives
    one frame: the first call of EMBENET_BRT_Receive returns the payload and
    empties the queue, and every later call on that state returns 0 and
    leaves the buffer alone. *)
Theorem doubled_opening_flag_gives_one_frame
  (policy : overflow_policy) (P buf : list Z) (size : nat) :
  (1 <= length P <= 198)%nat ->
  (length P <= size)%nat -> (size <= length buf)%nat ->
  let F' := concat (map stuffed (frame_content P)) in
  wire_of_Send policy P = HDLC_FLAG :: F' ++ [HDLC_FLAG] /\
  exists rx' buf',
    EMBENET_BRT_Receive
      (rx_after policy (HDLC_FLAG :: HDLC_FLAG :: F' ++ [HDLC_FLAG])) buf size
      = Ok (rx', buf', length P) /\
    take (length P) buf' = P /\
    drop (length P) buf' = drop (length P) buf /\
    RingBuffer_GetLen (inputRingBufferDesc rx') = 0%nat /\
    forall buf2 size2,
      EMBENET_BRT_Receive rx' buf2 size2 = Ok (rx', buf2, 0%nat).
Proof.
  intros HP Hsize Hbuf F'. split; [apply wire_of_Send_eq|].
  change (HDLC_FLAG :: HDLC_FLAG :: ?w) with (replicate 2 HDLC_FLAG ++ w).
  unfold F'. rewrite Receive_valid_frame by (try assumption; lia).
  replace (length P <=? size)%nat with true by (symmetry; apply Nat.leb_le; lia).
  do 2 eexists. split; [reflexivity|].
  split; [apply take_app_length|].
  split; [apply drop_app_length|].
  split; [reflexivity|].
  intros buf2 size2. apply Receive_idle.
Qed.

Lemma doubled_opening_flag_gives_one_frame_witness :
  exists rx' buf',
    EMBENET_BRT_Receive
      (rx_after RejectWhenFull
         (HDLC_FLAG :: HDLC_FLAG
            :: concat (map stuffed (frame_content [0x10; 0x7e])) ++ [HDLC_FLAG]))
      [0; 0; 0] 3
      = Ok (rx', buf', 2%nat) /\
    take 2 buf' = [0x10; 0x7e] /\
    forall buf2 size2,
      EMBENET_BRT_Receive rx' buf2 size2 = Ok (rx', buf2, 0%nat).
Proof.
  assert (H1 : (1 <= length [0x10; 0x7e] <= 198)%nat) by (simpl; lia).
  assert (H2 : (length [0x10; 0x7e] <= 3)%nat) by (simpl; lia).
  assert (H3 : (3 <= length [0; 0; 0])%nat) by (simpl; lia).
  destruct (doubled_opening_flag_gives_one_frame RejectWhenFull
              [0x10; 0x7e] [0; 0; 0] 3 H1 H2 H3)
    as (_ & rx' & buf' & E & Ht & _ & _ & Hnext).
  exists rx', buf'. auto.
Defined.

(** With a capacity below the payload length the call returns 0 and the
    buffer receives the first [size] bytes of the payload. *)
Lemma Receive_short_buffer policy (P buf : list Z) (size : nat) :
  (1 <= length P <= 198)%nat -> (size < length P)%nat -> (size <= length buf)%nat ->
  exists rx',
    EMBENET_BRT_Receive (rx_after policy (wire_of_Send policy P)) buf size
      = Ok (rx', take size P ++ drop size buf, 0%nat).
Proof.
  intros HP Hsize Hbuf.
  rewrite wire_of_Send_eq.
  change (HDLC_FLAG :: ?w) with (replicate 1 HDLC_FLAG ++ w).
  rewrite Receive_valid_frame by (try assumption; lia).
  replace (length P <=? size)%nat with false by (symmetry; apply Nat.leb_gt; lia).
  eexists. reflexivity.
Qed.

(** C1 (the code departs from it): the frame of the payload 11 22 arrives
    and EMBENET_BRT_Receive is called with the one-byte buffer AA, followed
    in memory by BB.  The call returns 0, but the buffer now holds 11: the
    first [packetBufferSize] bytes of the payload were copied. *)
Theorem Receive_short_buffer_copies (policy : overflow_policy) :
  exists rx',
    EMBENET_BRT_Receive (rx_after policy (wire_of_Send policy [0x11; 0x22]))
      [0xaa; 0xbb] 1
    = Ok (rx', [0x11; 0xbb], 0%nat).
Proof.
  destruct (Receive_short_buffer policy [0x11; 0x22] [0xaa; 0xbb] 1)
    as [rx' E]; simpl; try lia.
  exists rx'. exact E.
Qed.

(** ** The accumulator is never overrun *)

Lemma Receive_loop_in_bounds (fuel : nat) :
  forall rx,
    decoder_in_bounds rx ->
    (RingBuffer_GetLen (inputRingBufferDesc rx) < fuel)%nat ->
    exists rx' fc,
      Receive_loop fuel rx = Ok (rx', fc) /\
      decoder_in_bounds rx' /\
      (fc = true -> (2 < inputFrameDataIndex rx')%nat).
Proof.
  induction fuel as [|fuel IH]; intros rx Hwf Hfuel; [lia|].
  destruct rx as [[cap bytes] frame idx recv prev].
  unfold RingBuffer_GetLen in Hfuel. cbn [inputRingBufferDesc rb_bytes] in Hfuel.
  destruct bytes as [|b rest].
  - rewrite Receive_loop_empty. do 2 eexists.
    split; [reflexivity|]. split; [exact Hwf | discriminate].
  - rewrite Receive_loop_cons.
    destruct (Receive_body_in_bounds
                (Build_Rx (Build_RingBuffer cap rest) frame idx recv prev) b Hwf)
      as (rx1 & fc & E & Hwf1 & Hring & Hfc).
    rewrite E. destruct fc.
    + do 2 eexists. split; [reflexivity|]. auto.
    + apply IH; [exact Hwf1|]. rewrite Hring. unfold RingBuffer_GetLen.
      cbn [inputRingBufferDesc rb_bytes length] in *. lia.
Qed.

Lemma ready_in_bounds (rx : Rx) :
  decoder_in_bounds rx -> decoder_in_bounds (set_index 0 (set_receiving true rx)).
Proof.
  unfold decoder_in_bounds. cbn [set_index set_receiving inputFrame inputFrameDataIndex].
  intros [H _]. split; [exact H | lia].
Qed.

Lemma Receive_keeps_bounds (rx rx' : Rx) (buf buf' : list Z) (size n : nat) :
  decoder_in_bounds rx ->
  EMBENET_BRT_Receive rx buf size = Ok (rx', buf', n) ->
  decoder_in_bounds rx'.
Proof.
  intros Hwf HR.
  destruct (Receive_loop_in_bounds _ rx Hwf (Nat.lt_succ_diag_r _))
    as (rx1 & fc & Hloop & Hwf1 & _).
  rewrite (Receive_after_loop _ _ _ _ _ Hloop) in HR.
  pose proof (ready_in_bounds rx1 Hwf1) as Hready.
  destruct (fc && (0 <? inputFrameDataIndex rx1)%nat).
  - destruct (crc_matches _ _).
    + destruct (_ <=? size)%nat; unfold bind in HR;
        destruct (memcpy _ _ _); inversion HR; subst; exact Hready.
    + inversion HR; subst; exact Hready.
  - inversion HR; subst; exact Hwf1.
Qed.

Lemma Receive_returns (rx : Rx) (buf : list Z) (size : nat) :
  decoder_in_bounds rx -> (size <= length buf)%nat ->
  exists rx' buf' n, EMBENET_BRT_Receive rx buf size = Ok (rx', buf', n).
Proof.
  intros Hwf Hsize.
  destruct (Receive_loop_in_bounds _ rx Hwf (Nat.lt_succ_diag_r _))
    as (rx1 & fc & Hloop & [Hlen Hidx] & _).
  rewrite (Receive_after_loop _ _ _ _ _ Hloop).
  destruct (fc && (0 <? inputFrameDataIndex rx1)%nat); [|eauto].
  destruct (crc_matches _ _); [|eauto].
  unfold memcpy, bind.
  destruct (Nat.leb_spec (inputFrameDataIndex rx1 - 2) size) as [Hle|Hgt].
  - replace (inputFrameDataIndex rx1 - 2 <=? length buf)%nat with true
      by (symmetry; apply Nat.leb_le; lia).
    replace (inputFrameDataIndex rx1 - 2 <=? length (inputFrame rx1))%nat with true
      by (symmetry; apply Nat.leb_le; lia).
    cbn [andb]. eauto.
  - replace (size <=? length buf)%nat with true by (symmetry; apply Nat.leb_le; lia).
    replace (size <=? length (inputFrame rx1))%nat with true
      by (symmetry; apply Nat.leb_le; lia).
    cbn [andb]. eauto.
Qed.

Lemma rx_reachable_in_bounds policy (rx : Rx) :
  rx_reachable policy rx -> decoder_in_bounds rx.
Proof.
  induction 1 as [|b rx Hr IH|rx rx' buf buf' size n Hr IH HR].
  - split; [reflexivity | cbn; lia].
  - exact IH.
  - eapply Receive_keeps_bounds; eassumption.
Qed.

Lemma rx_stream_reachable policy (stream : list Z) :
  forall rx, rx_reachable policy rx -> rx_reachable policy (rx_stream policy stream rx).
Proof.
  induction stream as [|b stream IH]; intros rx Hr; [exact Hr|].
  apply (IH (rx_isr policy b rx)). apply rx_reach_rx_isr. exact Hr.
Qed.

Lemma rx_after_reachable policy (stream : list Z) :
  rx_reachable policy (rx_after policy stream).
Proof. apply rx_stream_reachable, rx_reach_init. Qed.

(** C7: in every state that the receive side reaches from its initial
    state, whatever bytes arrive and whenever EMBENET_BRT_Receive is
    called, the accumulator has its 200 elements and the index is at most
    200; the loop body takes any next byte without a store outside of the
    accumulator (it returns [Ok], and a store at an index of 200 or more
    would be a [Fault]); a byte other than the flag that arrives while a
    frame is open and the index is 200 aborts the frame: nothing is stored,
    the index is 0 and the decoder is not receiving, so that it skips the
    bytes up to the next flag and starts a frame there; and a call of
    EMBENET_BRT_Receive returns without fault. *)
Theorem decoder_never_overruns_inputFrame (policy : overflow_policy) (rx : Rx) :
  rx_reachable policy rx ->
  decoder_in_bounds rx /\
  (forall b, exists rx' fc,
     Receive_body rx b = Ok (rx', fc) /\ decoder_in_bounds rx') /\
  (forall b,
     inputFrameReceiving rx = true ->
     inputFrameDataIndex rx = EMBENET_BRT_MAX_FRAME_SIZE ->
     b <> HDLC_FLAG ->
     Receive_body rx b = Ok (aborted b rx, false) /\
     inputFrame (aborted b rx) = inputFrame rx /\
     inputFrameDataIndex (aborted b rx) = 0%nat /\
     inputFrameReceiving (aborted b rx) = false /\
     (forall c, c <> HDLC_FLAG ->
        Receive_body (aborted b rx) c = Ok (aborted c rx, false)) /\
     Receive_body (aborted b rx) HDLC_FLAG =
       Ok (set_last HDLC_FLAG (set_index 0 (set_receiving true rx)), false)) /\
  (forall buf size, (size <= length buf)%nat ->
     exists rx' buf' n,
       EMBENET_BRT_Receive rx buf size = Ok (rx', buf', n) /\
       decoder_in_bounds rx').
Proof.
  intros Hr. pose proof (rx_reachable_in_bounds policy rx Hr) as Hwf.
  split; [exact Hwf|]. split; [|split].
  - intros b. destruct (Receive_body_in_bounds rx b Hwf) as (rx' & fc & E & Hwf' & _).
    eauto.
  - intros b Hrecv Hidx Hb.
    split; [apply Receive_body_overflow; assumption|].
    destruct rx as [rb frame idx recv prev].
    split; [reflexivity|]. split; [reflexivity|]. split; [reflexivity|]. split.
    + intros c Hc. unfold aborted, set_last, set_index, set_receiving.
      cbn [inputRingBufferDesc inputFrame inputFrameDataIndex inputFrameReceiving
           lastDataByte].
      rewrite Receive_body_searching.
      replace (HDLC_FLAG =? c) with false by (symmetry; apply Z.eqb_neq; congruence).
      reflexivity.
    + unfold aborted, set_last, set_index, set_receiving.
      cbn [inputRingBufferDesc inputFrame inputFrameDataIndex inputFrameReceiving
           lastDataByte].
      rewrite Receive_body_searching, eqb_refl_flag. reflexivity.
  - intros buf size Hsize.
    destruct (Receive_returns rx buf size Hwf Hsize) as (rx' & buf' & n & E).
    exists rx', buf', n. split; [exact E|].
    eapply Receive_keeps_bounds; eassumption.
Qed.

Lemma decoder_never_overruns_inputFrame_witness :
  let rx := rx_polled (rx_after RejectWhenFull (HDLC_FLAG :: replicate 200 0x55)) in
  inputFrameReceiving rx = true /\
  inputFrameDataIndex rx = 200%nat /\
  Receive_body rx 0x55 = Ok (aborted 0x55 rx, false) /\
  inputFrameReceiving (aborted 0x55 rx) = false /\
  inputFrameDataIndex (aborted 0x55 rx) = 0%nat.
Proof.
  intros rx.
  assert (Hr : rx_reachable RejectWhenFull rx).
  { apply (rx_reach_Receive RejectWhenFull
             (rx_after RejectWhenFull (HDLC_FLAG :: replicate 200 0x55))
             rx [] [] 0 0).
    - apply rx_after_reachable.
    - vm_compute. reflexivity. }
  assert (H1 : inputFrameReceiving rx = true) by (vm_compute; reflexivity).
  assert (H2 : inputFrameDataIndex rx = EMBENET_BRT_MAX_FRAME_SIZE)
    by (vm_compute; reflexivity).
  assert (H3 : 0x55 <> HDLC_FLAG) by discriminate.
  destruct (decoder_never_overruns_inputFrame RejectWhenFull rx Hr)
    as (_ & _ & Habort & _).
  destruct (Habort 0x55 H1 H2 H3) as (E & _ & E0 & Ef & _).
  repeat split; assumption.
Defined.

(** ** Raw receive *)

Lemma ReceiveRaw_loop_spec (bytes : list Z) :
  forall fuel cap data k size,
    (k < size)%nat -> (size <= length data)%nat -> (length bytes < fuel)%nat ->
    let m := Nat.min (length bytes) (size - k) in
    ReceiveRaw_loop fuel (Build_RingBuffer cap bytes) data k size =
    Ok (Build_RingBuffer cap (drop m bytes),
        take k data ++ take m bytes ++ drop (k + m) data,
        (k + m)%nat).
Proof.
  induction bytes as [|c rest IH]; intros fuel cap data k size Hk Hsize Hfuel m;
    (destruct fuel as [|fuel]; [simpl in Hfuel; lia|]).
  - subst m. cbn [ReceiveRaw_loop RingBuffer_GetChar rb_bytes length Nat.min take drop app].
    rewrite Nat.add_0_r, take_drop. reflexivity.
  - cbn [ReceiveRaw_loop RingBuffer_GetChar rb_bytes rb_capacity].
    unfold store, bind.
    replace (k <? length data)%nat with true by (symmetry; apply Nat.ltb_lt; lia).
    cbn [length] in Hfuel, m.
    destruct (Nat.leb_spec size (S k)) as [Hfull|Hmore].
    + assert (Hm : m = 1%nat) by (subst m; lia). rewrite Hm.
      cbn [take drop]. rewrite insert_take_drop by lia.
      replace (k + 1)%nat with (S k) by lia. reflexivity.
    + rewrite IH; [|lia|rewrite length_insert; lia|lia].
      set (m' := Nat.min (length rest) (size - S k)).
      assert (Hm : m = S m') by (subst m m'; lia). rewrite Hm.
      cbn [take drop].
      rewrite (take_S_r _ _ c) by (apply list_lookup_insert_eq; lia).
      rewrite take_insert_ge by lia.
      rewrite drop_insert_lt by lia.
      rewrite <- app_assoc. cbn [app].
      replace (k + S m')%nat with (S k + m')%nat by lia.
      reflexivity.
Qed.

(** With a capacity of at least one byte EMBENET_BRT_ReceiveRaw takes
    [min (queue length) (capacity)] bytes from the queue, oldest first, puts
    them at the start of the buffer and returns their number. *)
Lemma ReceiveRaw_within_capacity (rx : Rx) (data : list Z) (size : nat) :
  (1 <= size)%nat -> (size <= length data)%nat ->
  let bytes := rb_bytes (inputRingBufferDesc rx) in
  let m := Nat.min (length bytes) size in
  EMBENET_BRT_ReceiveRaw rx data size =
  Ok (set_ring (Build_RingBuffer (rb_capacity (inputRingBufferDesc rx)) (drop m bytes)) rx,
      take m bytes ++ drop m data, m).
Proof.
  intros H1 Hsize bytes m. unfold EMBENET_BRT_ReceiveRaw.
  destruct rx as [[cap q] frame idx recv prev].
  cbn [inputRingBufferDesc rb_bytes rb_capacity] in *. unfold RingBuffer_GetLen.
  cbn [rb_bytes]. rewrite ReceiveRaw_loop_spec by lia.
  rewrite Nat.sub_0_r. reflexivity.
Qed.

(** C3 (the code departs from it at capacity 0): with the bytes 41 42 in
    the inbound queue and a capacity of 0, EMBENET_BRT_ReceiveRaw takes one
    byte from the queue, stores it at [data[0]] (here the byte AA that lies
    behind the empty buffer) and returns 1; when nothing can be written at
    [data] the store is out of bounds. *)
Theorem ReceiveRaw_zero_capacity (policy : overflow_policy) :
  EMBENET_BRT_ReceiveRaw (rx_after policy [0x41; 0x42]) [0xaa] 0 =
    Ok (rx_after policy [0x42], [0x41], 1%nat) /\
  EMBENET_BRT_ReceiveRaw (rx_after policy [0x41; 0x42]) [] 0 = Fault OutOfBounds.
Proof.
  destruct policy; split; vm_compute; reflexivity.
Qed.

(** ** The CRC step is injective *)

Lemma lxor_cancel_l (a b c : Z) : Z.lxor a b = Z.lxor a c -> b = c.
Proof.
  intros H. apply (f_equal (Z.lxor a)) in H.
  rewrite <- !Z.lxor_assoc, Z.lxor_nilpotent, !Z.lxor_0_l in H. exact H.
Qed.

Lemma lxor_cancel_r (a b c : Z) : Z.lxor b a = Z.lxor c a -> b = c.
Proof. rewrite !(Z.lxor_comm _ a). apply lxor_cancel_l. Qed.

Lemma land_lxor_distr (a b c : Z) :
  Z.land (Z.lxor a b) c = Z.lxor (Z.land a c) (Z.land b c).
Proof.
  apply Z.bits_inj'. intros n _.
  rewrite Z.land_spec, !Z.lxor_spec, !Z.land_spec.
  destruct (Z.testbit a n), (Z.testbit b n), (Z.testbit c n); reflexivity.
Qed.

Lemma land_ff_mod (c : Z) : Z.land c 0xff = c mod 256.
Proof. change 0xff with (Z.ones 8). rewrite Z.land_ones by lia. reflexivity. Qed.

Lemma land_ff_range (c : Z) : 0 <= Z.land c 0xff < 256.
Proof. rewrite land_ff_mod. apply Z.mod_pos_bound. lia. Qed.

Lemma land_ff_small (c : Z) : is_u8 c -> Z.land c 0xff = c.
Proof. intros H. rewrite land_ff_mod. apply Z.mod_small. exact H. Qed.

Lemma shiftr8_div (c : Z) : Z.shiftr c 8 = c / 256.
Proof. rewrite Z.shiftr_div_pow2 by lia. reflexivity. Qed.

Lemma crc_index_lt (c x : Z) : (Z.to_nat (Z.land (Z.lxor c x) 0xff) < 256)%nat.
Proof. pose proof (land_ff_range (Z.lxor c x)). lia. Qed.

(** The high bytes of the 256 table entries are pairwise different. *)
Lemma fcstab_high_inj (i j : nat) :
  (i < 256)%nat -> (j < 256)%nat ->
  Z.shiftr (nth i fcstab 0) 8 = Z.shiftr (nth j fcstab 0) 8 -> i = j.
Proof.
  intros Hi Hj E.
  assert (H : forallb (fun i => forallb (fun j =>
                implb (Z.shiftr (nth i fcstab 0) 8 =? Z.shiftr (nth j fcstab 0) 8)
                      (i =? j)%nat) (seq 0 256)) (seq 0 256) = true)
    by (vm_compute; reflexivity).
  pose proof (seq_check _ _ (seq_check _ _ H i Hi) j Hj) as Hb. cbv beta in Hb.
  rewrite E, Z.eqb_refl in Hb. cbn [implb] in Hb. apply Nat.eqb_eq. exact Hb.
Qed.

Lemma crc_index_inj (c d x y : Z) :
  Z.shiftr (nth (Z.to_nat (Z.land (Z.lxor c x) 0xff)) fcstab 0) 8 =
  Z.shiftr (nth (Z.to_nat (Z.land (Z.lxor d y) 0xff)) fcstab 0) 8 ->
  Z.lxor (Z.land c 0xff) (Z.land x 0xff) = Z.lxor (Z.land d 0xff) (Z.land y 0xff).
Proof.
  intros E. apply fcstab_high_inj in E; try apply crc_index_lt.
  apply Z2Nat.inj in E; try apply land_ff_range.
  rewrite !land_lxor_distr in E. exact E.
Qed.

Lemma openhdlc_crc_inj_acc (c d x : Z) :
  is_u16 c -> is_u16 d -> openhdlc_crc c x = openhdlc_crc d x -> c = d.
Proof.
  intros Hc Hd E. rewrite !openhdlc_crc_unfold in E by assumption.
  assert (Ehigh : Z.shiftr (nth (Z.to_nat (Z.land (Z.lxor c x) 0xff)) fcstab 0) 8 =
                  Z.shiftr (nth (Z.to_nat (Z.land (Z.lxor d x) 0xff)) fcstab 0) 8).
  { apply (f_equal (fun v => Z.shiftr v 8)) in E.
    rewrite !Z.shiftr_lxor, !Z.shiftr_shiftr in E by lia.
    unfold is_u16 in *.
    rewrite !(Z.shiftr_div_pow2 _ (8 + 8)) in E by lia.
    change (2 ^ (8 + 8)) with 65536 in E.
    rewrite !Z.div_small, !Z.lxor_0_l in E by lia. exact E. }
  pose proof (crc_index_inj c d x x Ehigh) as Elow.
  apply lxor_cancel_r in Elow.
  assert (Eidx : Z.land (Z.lxor c x) 0xff = Z.land (Z.lxor d x) 0xff)
    by (rewrite !land_lxor_distr, Elow; reflexivity).
  rewrite Eidx in E. apply lxor_cancel_r in E.
  rewrite !shiftr8_div in E. rewrite !land_ff_mod in Elow.
  rewrite (Z.div_mod c 256), (Z.div_mod d 256) by lia. congruence.
Qed.

Lemma openhdlc_crc_inj_byte (c x y : Z) :
  is_u16 c -> is_u8 x -> is_u8 y -> openhdlc_crc c x = openhdlc_crc c y -> x = y.
Proof.
  intros Hc Hx Hy E. rewrite !openhdlc_crc_unfold in E by assumption.
  apply lxor_cancel_l in E.
  apply (f_equal (fun v => Z.shiftr v 8)) in E.
  apply crc_index_inj in E. apply lxor_cancel_l in E.
  rewrite !land_ff_small in E by assumption. exact E.
Qed.

Lemma crc_fold_u16 (l : list Z) (c : Z) :
  is_u16 c -> is_u16 (fold_left openhdlc_crc l c).
Proof.
  revert c. induction l as [|b l IH]; intros c Hc; simpl; [exact Hc|].
  apply IH, openhdlc_crc_u16.
Qed.

Lemma crc_fold_inj (l : list Z) :
  forall c d, is_u16 c -> is_u16 d ->
    fold_left openhdlc_crc l c = fold_left openhdlc_crc l d -> c = d.
Proof.
  induction l as [|b l IH]; intros c d Hc Hd E; simpl in E; [exact E|].
  apply IH in E; try apply openhdlc_crc_u16.
  eapply openhdlc_crc_inj_acc; eassumption.
Qed.

(** Two byte strings that differ in one byte have different CRCs. *)
Lemma crc_fold_one_byte (A C : list Z) (x y : Z) :
  is_u8 x -> is_u8 y ->
  fold_left openhdlc_crc (A ++ x :: C) HDLC_CRCINIT =
  fold_left openhdlc_crc (A ++ y :: C) HDLC_CRCINIT ->
  x = y.
Proof.
  intros Hx Hy E. rewrite !fold_left_app in E. cbn [fold_left] in E.
  apply crc_fold_inj in E; try apply openhdlc_crc_u16.
  apply openhdlc_crc_inj_byte in E; try assumption.
  apply crc_fold_u16. unfold is_u16, HDLC_CRCINIT. lia.
Qed.

Lemma u16_lnot (c : Z) : is_u16 c -> u16 (Z.lnot c) = 65535 - c.
Proof.
  unfold is_u16, u16, Z.lnot. intros H. symmetry.
  apply (Z.mod_unique _ _ (-1)); lia.
Qed.

Lemma crc_bytes_inj (v w : Z) :
  is_u16 v -> is_u16 w ->
  crc_low v = crc_low w -> crc_high v = crc_high w -> v = w.
Proof.
  unfold crc_low, crc_high. intros Hv Hw El Eh.
  rewrite !Z.shiftr_0_r, !land_ff_mod in El.
  rewrite !land_ff_small in Eh by (apply shiftr8_u16; assumption).
  rewrite !shiftr8_div in Eh.
  rewrite (Z.div_mod v 256), (Z.div_mod w 256) by lia. congruence.
Qed.

Lemma frame_crc_one_byte (A C : list Z) (x y : Z) :
  is_u8 x -> is_u8 y ->
  crc_low (frame_crc (A ++ x :: C)) = crc_low (frame_crc (A ++ y :: C)) ->
  crc_high (frame_crc (A ++ x :: C)) = crc_high (frame_crc (A ++ y :: C)) ->
  x = y.
Proof.
  intros Hx Hy El Eh.
  assert (Hinit : is_u16 HDLC_CRCINIT) by (unfold is_u16, HDLC_CRCINIT; lia).
  pose proof (crc_bytes_inj _ _ (u16_range _) (u16_range _) El Eh) as E.
  unfold frame_crc in E.
  rewrite !u16_lnot in E by (apply crc_fold_u16; exact Hinit).
  apply (crc_fold_one_byte A C); try assumption. lia.
Qed.

(** ** One corrupted byte inside a frame *)

Lemma flip_bit_u8 (k : nat) (b : Z) : (k < 8)%nat -> is_u8 b -> is_u8 (flip_bit k b).
Proof.
  intros Hk Hb. unfold flip_bit. rewrite Z.shiftl_1_l.
  apply lxor_u8; [exact Hb|]. unfold is_u8. split; [apply Z.pow_nonneg; lia|].
  change 256 with (2 ^ 8). apply Z.pow_lt_mono_r; lia.
Qed.

Lemma flip_bit_changes (k : nat) (b : Z) : flip_bit k b <> b.
Proof.
  unfold flip_bit. intros E. rewrite <- (Z.lxor_0_r b) in E at 2.
  apply lxor_cancel_l in E. rewrite Z.shiftl_1_l in E.
  pose proof (Z.pow_pos_nonneg 2 (Z.of_nat k)). lia.
Qed.

Lemma stuffed_u8 (b : Z) : is_u8 b -> Forall is_u8 (stuffed b).
Proof.
  intros Hb.
  destruct (stuffed_cases b) as [[_ ->]|[[_ ->]|(_ & _ & ->)]].
  - constructor; [unfold is_u8; lia|]. constructor; [unfold is_u8; lia | constructor].
  - constructor; [unfold is_u8; lia|]. constructor; [unfold is_u8; lia | constructor].
  - constructor; [exact Hb | constructor].
Qed.

Lemma concat_stuffed_u8 (U : list Z) :
  Forall is_u8 U -> Forall is_u8 (concat (map stuffed U)).
Proof.
  induction 1 as [|b U Hb HU IH]; cbn [map concat]; [constructor|].
  apply Forall_app. split; [apply stuffed_u8; exact Hb | exact IH].
Qed.

Lemma frame_content_u8 (P : list Z) : Forall is_u8 P -> Forall is_u8 (frame_content P).
Proof.
  intros HP. unfold frame_content. apply Forall_app. split; [exact HP|].
  constructor; [apply land_ff_range|]. constructor; [apply land_ff_range | constructor].
Qed.

Lemma unstuff_prev (p q : Z) (w : list Z) :
  (HDLC_ESCAPE =? p) = (HDLC_ESCAPE =? q) -> unstuff p w = unstuff q w.
Proof. intros E. destruct w as [|b w]; [reflexivity|]. cbn [unstuff]. rewrite E. reflexivity. Qed.

Lemma last_of_nonempty (p q : Z) (w : list Z) : w <> [] -> last_of p w = last_of q w.
Proof. destruct w; [congruence | reflexivity]. Qed.

Lemma insert_middle (A C : list Z) (x y : Z) :
  <[length A := y]> (A ++ x :: C) = A ++ y :: C.
Proof.
  replace (length A) with (length A + 0)%nat at 1 by lia.
  rewrite insert_app_r. reflexivity.
Qed.

(** A stored frame that differs from payload and CRC in one byte fails the
    CRC test. *)
Lemma crc_matches_changed (P : list Z) (p : nat) (y : Z) :
  Forall is_u8 P -> is_u8 y ->
  (p < length P + 2)%nat -> nth p (frame_content P) 0 <> y ->
  crc_matches (<[p := y]> (frame_content P)) (length P + 2) = false.
Proof.
  intros HP Hy Hp Hne. unfold crc_matches.
  replace (length P + 2 - 2)%nat with (length P) by lia.
  replace (length P + 2 - 1)%nat with (S (length P)) by lia.
  apply andb_false_iff.
  unfold frame_content in *.
  destruct (Nat.lt_ge_cases p (length P)) as [Hin|Hout].
  - rewrite insert_app_l by lia.
    rewrite (take_app_length' (<[p:=y]> P)) by (rewrite length_insert; reflexivity).
    rewrite !app_nth2 by (rewrite length_insert; lia).
    rewrite length_insert, Nat.sub_diag.
    replace (S (length P) - length P)%nat with 1%nat by lia. cbn [nth].
    rewrite app_nth1 in Hne by lia.
    destruct (Z.eqb_spec (crc_low (frame_crc (<[p:=y]> P))) (crc_low (frame_crc P)))
      as [El|]; [|left; reflexivity].
    destruct (Z.eqb_spec (crc_high (frame_crc (<[p:=y]> P))) (crc_high (frame_crc P)))
      as [Eh|]; [|right; reflexivity].
    exfalso. apply Hne. symmetry.
    assert (Hx : P !! p = Some (nth p P 0)).
    { destruct (nth_lookup_or_length P p 0); [assumption | lia]. }
    rewrite insert_take_drop in El, Eh by lia.
    rewrite <- (take_drop_middle P p _ Hx) in El at 3.
    rewrite <- (take_drop_middle P p _ Hx) in Eh at 3.
    apply (frame_crc_one_byte (take p P) (drop (S p) P)); try assumption.
    eapply Forall_lookup_1; eassumption.
  - rewrite insert_app_r_alt by lia.
    destruct (Nat.eq_dec p (length P)) as [->|Hp1].
    + rewrite Nat.sub_diag. cbn [insert list_insert].
      rewrite take_app_length. rewrite !app_nth2 by lia.
      rewrite Nat.sub_diag. cbn [nth].
      rewrite app_nth2, Nat.sub_diag in Hne by lia. cbn [nth] in Hne.
      left. apply Z.eqb_neq. exact Hne.
    + replace (p - length P)%nat with 1%nat by lia. cbn [insert list_insert].
      rewrite take_app_length. rewrite !app_nth2 by lia.
      replace (S (length P) - length P)%nat with 1%nat by lia. cbn [nth].
      rewrite app_nth2 in Hne by lia.
      replace (p - length P)%nat with 1%nat in Hne by lia. cbn [nth] in Hne.
      right. apply Z.eqb_neq. exact Hne.
Qed.

Lemma Receive_corrupted_body policy (P w1 w2 buf : list Z) (b b' : Z) (size : nat) :
  Forall is_u8 P -> (length P <= 198)%nat ->
  concat (map stuffed (frame_content P)) = w1 ++ b :: w2 ->
  is_u8 b' -> b' <> b ->
  b <> HDLC_ESCAPE -> b' <> HDLC_ESCAPE -> b' <> HDLC_FLAG ->
  exists rx',
    EMBENET_BRT_Receive
      (rx_after policy (HDLC_FLAG :: (w1 ++ b' :: w2) ++ [HDLC_FLAG])) buf size
    = Ok (rx', buf, 0%nat).
Proof.
  intros HP Hlen Hbody Hb' Hne Hb He' Hf'.
  pose proof (concat_stuffed_no_flag (frame_content P)) as Hnf.
  pose proof (concat_stuffed_u8 _ (frame_content_u8 P HP)) as Hu8.
  pose proof (length_concat_stuffed (frame_content P)) as Hwl.
  destruct (unstuff_concat_stuffed (frame_content P) HDLC_FLAG) as [EU Elast];
    [discriminate|].
  rewrite length_frame_content in Hwl.
  rewrite Hbody in Hnf, Hu8, Hwl, EU, Elast.
  apply Forall_app in Hnf. destruct Hnf as [Hnf1 Hnf2].
  apply Forall_cons in Hnf2. destruct Hnf2 as [_ Hnf2].
  apply Forall_app in Hu8. destruct Hu8 as [_ Hu8].
  apply Forall_cons in Hu8. destruct Hu8 as [Hbu8 _].
  rewrite length_app in Hwl. cbn [length] in Hwl.
  rewrite unstuff_app in EU. cbn [unstuff] in EU.
  rewrite last_of_app in Elast. cbn [last_of] in Elast.
  replace (HDLC_ESCAPE =? b) with false in EU by (symmetry; apply Z.eqb_neq; congruence).
  set (A := unstuff HDLC_FLAG w1) in *.
  set (C := unstuff b w2) in *.
  set (l1 := last_of HDLC_FLAG w1) in *.
  set (v := if HDLC_ESCAPE =? l1 then u8 (Z.lxor b HDLC_ESCAPE_MASK) else b) in *.
  set (v' := if HDLC_ESCAPE =? l1 then u8 (Z.lxor b' HDLC_ESCAPE_MASK) else b').
  assert (Hmask : is_u8 HDLC_ESCAPE_MASK) by (unfold is_u8, HDLC_ESCAPE_MASK; lia).
  assert (Hv' : is_u8 v') by (unfold v'; destruct (HDLC_ESCAPE =? l1);
                              [apply u8_range | exact Hb']).
  assert (Hvv : v <> v').
  { unfold v, v'. destruct (HDLC_ESCAPE =? l1); [|congruence].
    rewrite !u8_small by (apply lxor_u8; assumption).
    intros E. apply lxor_cancel_r in E. congruence. }
  assert (EU' : unstuff HDLC_FLAG (w1 ++ b' :: w2) = <[length A := v']> (frame_content P)).
  { rewrite unstuff_app. cbn [unstuff]. fold A. fold l1.
    replace (HDLC_ESCAPE =? b') with false by (symmetry; apply Z.eqb_neq; congruence).
    fold v'. rewrite (unstuff_prev b' b) by
      (rewrite (proj2 (Z.eqb_neq HDLC_ESCAPE b')), (proj2 (Z.eqb_neq HDLC_ESCAPE b));
       congruence).
    fold C. rewrite <- EU, insert_middle. reflexivity. }
  assert (HlenU : length (frame_content P) = (length A + S (length C))%nat).
  { rewrite <- EU, length_app. reflexivity. }
  rewrite length_frame_content in HlenU.
  change (HDLC_FLAG :: ?w) with (replicate 1 HDLC_FLAG ++ w).
  rewrite Receive_delimited.
  - rewrite EU', length_insert, length_frame_content.
    destruct (2 <? length P + 2)%nat; cbn [andb]; [|eauto].
    rewrite crc_matches_changed; [eauto|assumption|assumption|lia|].
    rewrite <- EU. rewrite app_nth2, Nat.sub_diag by lia. exact Hvv.
  - lia.
  - apply Forall_app. split; [exact Hnf1|]. apply Forall_cons. auto.
  - right. rewrite last_of_app. cbn [last_of].
    destruct w2 as [|c w2]; [exact He'|]. exact Elast.
  - rewrite EU', length_insert, length_frame_content.
    unfold EMBENET_BRT_MAX_FRAME_SIZE. lia.
  - rewrite length_app. cbn [length]. unfold INPUT_RING_BUFFER_SIZE. lia.
Qed.

(** C6, amended: for a payload of at most 198 bytes, inverting one bit of a
    wire byte between the two delimiting flags makes EMBENET_BRT_Receive
    return 0 and leave the caller's buffer as it was, provided that the byte
    hit is not an escape byte and that the inverted byte is neither the flag
    nor the escape byte. *)
Theorem single_bit_flip_is_rejected
  (policy : overflow_policy) (P buf : list Z) (size j k : nat) (b : Z) :
  Forall is_u8 P -> (length P <= 198)%nat ->
  (k < 8)%nat ->
  (0 < j < length (wire_of_Send policy P) - 1)%nat ->
  wire_of_Send policy P !! j = Some b ->
  b <> HDLC_ESCAPE ->
  flip_bit k b <> HDLC_FLAG -> flip_bit k b <> HDLC_ESCAPE ->
  exists rx',
    EMBENET_BRT_Receive (rx_after policy (corrupt j k (wire_of_Send policy P))) buf size
    = Ok (rx', buf, 0%nat).
Proof.
  intros HP Hlen Hk Hj Hb Hesc Hf' He'.
  rewrite wire_of_Send_eq in *.
  set (body := concat (map stuffed (frame_content P))) in *.
  cbn [length] in Hj. rewrite length_app in Hj. cbn [length] in Hj.
  destruct j as [|j]; [lia|].
  change ((body ++ [HDLC_FLAG]) !! j = Some b) in Hb.
  rewrite lookup_app_l in Hb by lia.
  unfold corrupt.
  change (alter (flip_bit k) (S j) (HDLC_FLAG :: body ++ [HDLC_FLAG]))
    with (HDLC_FLAG :: alter (flip_bit k) j (body ++ [HDLC_FLAG])).
  rewrite alter_app_l by lia.
  pose proof (take_drop_middle body j b Hb) as Hsplit.
  assert (Hu8 : is_u8 b).
  { eapply Forall_lookup_1; [|exact Hb].
    apply concat_stuffed_u8, frame_content_u8, HP. }
  assert (Halter : alter (flip_bit k) j body
                   = take j body ++ flip_bit k b :: drop (S j) body).
  { rewrite <- Hsplit at 1.
    rewrite alter_app_r_alt by (rewrite length_take; lia).
    replace (j - length (take j body))%nat with 0%nat by (rewrite length_take; lia).
    reflexivity. }
  rewrite Halter.
  apply (Receive_corrupted_body policy P (take j body) (drop (S j) body) buf b);
    try assumption.
  - symmetry. exact Hsplit.
  - apply flip_bit_u8; assumption.
  - apply flip_bit_changes.
Qed.

Lemma single_bit_flip_is_rejected_witness :
  exists rx',
    EMBENET_BRT_Receive
      (rx_after RejectWhenFull
         (corrupt 3 0 (wire_of_Send RejectWhenFull [0x01; 0x7e; 0x7d; 0x02])))
      [0xaa; 0xaa; 0xaa; 0xaa] 4
    = Ok (rx', [0xaa; 0xaa; 0xaa; 0xaa], 0%nat).
Proof.
  apply (single_bit_flip_is_rejected RejectWhenFull [0x01; 0x7e; 0x7d; 0x02]
           [0xaa; 0xaa; 0xaa; 0xaa] 4 3 0 0x5e).
  - repeat (constructor; [unfold is_u8; lia|]). constructor.
  - simpl. lia.
  - lia.
  - vm_compute. lia.
  - reflexivity.
  - discriminate.
  - discriminate.
  - discriminate.
Defined.

(** C6 as stated fails: the payload 01 F1 E1 7F starts with the byte 01
    and its own CRC bytes F1 E1.  Inverting bit 0 of the wire byte 7F (at
    position 4, between the delimiters) turns it into a flag, the run
    01 F1 E1 before it is a frame with a matching CRC, and
    EMBENET_BRT_Receive returns 1 with the byte 01 in the buffer. *)
Lemma single_bit_flip_counterexample :
  let P := [0x01; 0xf1; 0xe1; 0x7f] in
  let wire := wire_of_Send RejectWhenFull P in
  Forall is_u8 P /\
  wire = [0x7e; 0x01; 0xf1; 0xe1; 0x7f; 0xbc; 0x4d; 0x7e] /\
  corrupt 4 0 wire = [0x7e; 0x01; 0xf1; 0xe1; 0x7e; 0xbc; 0x4d; 0x7e] /\
  exists rx',
    EMBENET_BRT_Receive (rx_after RejectWhenFull (corrupt 4 0 wire)) [0xaa; 0xbb] 2
    = Ok (rx', [0x01; 0xbb], 1%nat).
Proof.
  cbv zeta. split; [|split; [|split]].
  - repeat (constructor; [unfold is_u8; lia|]). constructor.
  - vm_compute. reflexivity.
  - vm_compute. reflexivity.
  - eexists. vm_compute. reflexivity.
Qed.

(** The two further restrictions of the amended C6 are needed as well.  In
    the frame of 27 D3 7C 00, inverting bit 0 of the wire byte 7C makes it
    an escape byte; the decoder then stores 20 for the two wire bytes 7D 00
    and the shortened frame 27 D3 20 has the CRC that is on the wire. *)
Lemma flip_to_escape_can_pass :
  let wire := wire_of_Send RejectWhenFull [0x27; 0xd3; 0x7c; 0x00] in
  wire = [0x7e; 0x27; 0xd3; 0x7c; 0x00; 0xa3; 0x1d; 0x7e] /\
  corrupt 3 0 wire = [0x7e; 0x27; 0xd3; 0x7d; 0x00; 0xa3; 0x1d; 0x7e] /\
  exists rx',
    EMBENET_BRT_Receive (rx_after RejectWhenFull (corrupt 3 0 wire)) [0; 0; 0; 0] 4
    = Ok (rx', [0x27; 0xd3; 0x20; 0], 3%nat).
Proof.
  cbv zeta. split; [|split].
  - vm_compute. reflexivity.
  - vm_compute. reflexivity.
  - eexists. vm_compute. reflexivity.
Qed.

(** In the frame of 28 2B 7E, inverting bit 0 of the escape byte that
    precedes 5E leaves the two literal bytes 7C 5E, and the longer frame
    28 2B 7C 5E has the CRC that is on the wire. *)
Lemma flip_of_escape_can_pass :
  let wire := wire_of_Send RejectWhenFull [0x28; 0x2b; 0x7e] in
  wire = [0x7e; 0x28; 0x2b; 0x7d; 0x5e; 0x57; 0x5e; 0x7e] /\
  corrupt 3 0 wire = [0x7e; 0x28; 0x2b; 0x7c; 0x5e; 0x57; 0x5e; 0x7e] /\
  exists rx',
    EMBENET_BRT_Receive (rx_after RejectWhenFull (corrupt 3 0 wire)) [0; 0; 0; 0] 4
    = Ok (rx', [0x28; 0x2b; 0x7c; 0x5e], 4%nat).
Proof.
  cbv zeta. split; [|split].
  - vm_compute. reflexivity.
  - vm_compute. reflexivity.
  - eexists. vm_compute. reflexivity.
Qed.

(** * Further properties of the transport *)

(** ** The decoder between frames *)

Lemma leads_in_ready (frame : list Z) : leads_in [] frame 0 true HDLC_FLAG frame.
Proof. intros fuel cap rest. reflexivity. Qed.

Lemma leads_in_flags (k : nat) (frame : list Z) (idx : nat) (recv : bool) (prev : Z) :
  (1 <= k)%nat -> recv = false \/ prev = HDLC_FLAG ->
  leads_in (replicate k HDLC_FLAG) frame idx recv prev frame.
Proof.
  intros Hk Hs fuel cap rest. rewrite length_replicate.
  apply Receive_loop_opening_flags; assumption.
Qed.

Lemma Receive_loop_searching (noise : list Z) :
  forall fuel cap rest frame idx prev,
    Forall (fun b => b <> HDLC_FLAG) noise ->
    Receive_loop (length noise + fuel)
      (Build_Rx (Build_RingBuffer cap (noise ++ rest)) frame idx false prev) =
    Receive_loop fuel
      (Build_Rx (Build_RingBuffer cap rest) frame idx false (last_of prev noise)).
Proof.
  induction noise as [|b noise IH]; intros fuel cap rest frame idx prev Hn;
    [reflexivity|].
  inversion Hn as [|? ? Hb Hn']; subst.
  cbn [length Nat.add app]. rewrite Receive_loop_cons, Receive_body_searching.
  replace (HDLC_FLAG =? b) with false by (symmetry; apply Z.eqb_neq; congruence).
  cbn [last_of]. apply IH. exact Hn'.
Qed.

Lemma leads_in_noise (noise frame : list Z) (idx : nat) (prev : Z) :
  Forall (fun b => b <> HDLC_FLAG) noise ->
  leads_in (noise ++ [HDLC_FLAG]) frame idx false prev frame.
Proof.
  intros Hn fuel cap rest. rewrite length_app, <- !app_assoc, <- Nat.add_assoc.
  rewrite Receive_loop_searching by exact Hn.
  cbn [length Nat.add app]. rewrite Receive_loop_cons, Receive_body_searching.
  rewrite eqb_refl_flag. reflexivity.
Qed.

Lemma leads_in_app (p1 p2 frame : list Z) idx recv prev (f1 f2 : list Z) :
  leads_in p1 frame idx recv prev f1 ->
  leads_in p2 f1 0 true HDLC_FLAG f2 ->
  leads_in (p1 ++ p2) frame idx recv prev f2.
Proof.
  intros H1 H2 fuel cap rest.
  rewrite length_app, <- app_assoc, <- Nat.add_assoc.
  rewrite H1. apply H2.
Qed.

(** A delimited run that stores at most two bytes is dropped and its
    closing flag opens the next frame. *)
Lemma leads_in_short_run (w frame : list Z) :
  delimited_run w -> length frame = EMBENET_BRT_MAX_FRAME_SIZE ->
  (length (unstuff HDLC_FLAG w) <= 2)%nat ->
  leads_in (w ++ [HDLC_FLAG]) frame 0 true HDLC_FLAG
    (unstuff HDLC_FLAG w ++ drop (length (unstuff HDLC_FLAG w)) frame).
Proof.
  intros (Hw & Hlast & Hfit) Hlen Hshort fuel cap rest.
  rewrite length_app, <- app_assoc, <- Nat.add_assoc.
  cbn [length Nat.add app]. unfold rx_ready at 1.
  rewrite Receive_loop_delimited by assumption.
  replace (2 <? length (unstuff HDLC_FLAG w))%nat with false
    by (symmetry; apply Nat.ltb_ge; lia).
  reflexivity.
Qed.

Lemma length_after_run (U frame : list Z) :
  (length U <= length frame)%nat ->
  length (U ++ drop (length U) frame) = length frame.
Proof. intros H. rewrite length_app, length_drop. lia. Qed.

(** The general form of a completed frame: the decoder is led to the start
    of a frame by [pre], reads the run [w] and its closing flag, and
    EMBENET_BRT_Receive returns; what follows stays in the queue. *)
Lemma Receive_framed (pre w rest frame frame' buf : list Z)
  (cap idx size : nat) (recv : bool) (prev : Z) :
  leads_in pre frame idx recv prev frame' ->
  length frame' = EMBENET_BRT_MAX_FRAME_SIZE ->
  delimited_run w ->
  (2 < length (unstuff HDLC_FLAG w))%nat ->
  EMBENET_BRT_Receive
    (Build_Rx (Build_RingBuffer cap (pre ++ w ++ HDLC_FLAG :: rest)) frame idx recv prev)
    buf size =
  Receive_outcome cap rest (unstuff HDLC_FLAG w) frame' buf size.
Proof.
  intros Hpre Hlen (Hw & Hlast & Hfit) Hn.
  set (rx0 := Build_Rx _ _ _ _ _).
  set (U := unstuff HDLC_FLAG w) in *.
  assert (Hloop :
    Receive_loop (S (RingBuffer_GetLen (inputRingBufferDesc rx0))) rx0 =
    Ok (Build_Rx (Build_RingBuffer cap rest) (U ++ drop (length U) frame')
          (length U) false HDLC_FLAG, true)).
  { unfold rx0, RingBuffer_GetLen. cbn [inputRingBufferDesc rb_bytes].
    replace (S (length (pre ++ w ++ HDLC_FLAG :: rest)))
      with (length pre + (length w + S (S (length rest))))%nat
      by (rewrite !length_app; simpl; lia).
    rewrite Hpre. unfold rx_ready.
    rewrite Receive_loop_delimited by assumption.
    fold U. replace (2 <? length U)%nat with true by (symmetry; apply Nat.ltb_lt; lia).
    reflexivity. }
  rewrite (Receive_after_loop _ _ _ _ _ Hloop).
  cbn [inputFrameDataIndex inputFrame andb].
  replace (0 <? length U)%nat with true by (symmetry; apply Nat.ltb_lt; lia).
  rewrite crc_matches_app by lia.
  reflexivity.
Qed.

Lemma body_is_delimited_run (P : list Z) :
  (length P <= 198)%nat -> delimited_run (concat (map stuffed (frame_content P))).
Proof.
  intros HP.
  destruct (unstuff_concat_stuffed (frame_content P) HDLC_FLAG) as [EU Elast];
    [discriminate|].
  split; [apply concat_stuffed_no_flag|]. split; [right; exact Elast|].
  rewrite EU, length_frame_content. unfold EMBENET_BRT_MAX_FRAME_SIZE. lia.
Qed.

Lemma Receive_outcome_valid (cap size : nat) (rest P frame buf : list Z) :
  (length P <= size)%nat -> (size <= length buf)%nat ->
  Receive_outcome cap rest (frame_content P) frame buf size =
  Ok (rx_ready cap rest (frame_content P ++ drop (length P + 2) frame),
      P ++ drop (length P) buf, length P).
Proof.
  intros Hsize Hbuf. unfold Receive_outcome.
  rewrite length_frame_content, crc_matches_frame_content.
  replace (length P + 2 - 2)%nat with (length P) by lia.
  replace (length P <=? size)%nat with true by (symmetry; apply Nat.leb_le; lia).
  unfold frame_content. rewrite <- !app_assoc.
  rewrite memcpy_prefix by lia. rewrite firstn_all. reflexivity.
Qed.

(** A frame built by EMBENET_BRT_Send is returned wherever the decoder
    stands at the start of a frame. *)
Lemma Receive_sent_frame (pre rest frame frame' P buf : list Z)
  (cap idx size : nat) (recv : bool) (prev : Z) :
  leads_in pre frame idx recv prev frame' ->
  length frame' = EMBENET_BRT_MAX_FRAME_SIZE ->
  (1 <= length P <= 198)%nat -> (length P <= size)%nat -> (size <= length buf)%nat ->
  EMBENET_BRT_Receive
    (Build_Rx (Build_RingBuffer cap
       (pre ++ concat (map stuffed (frame_content P)) ++ HDLC_FLAG :: rest))
       frame idx recv prev) buf size =
  Ok (rx_ready cap rest (frame_content P ++ drop (length P + 2) frame'),
      P ++ drop (length P) buf, length P).
Proof.
  intros Hpre Hlen HP Hsize Hbuf.
  destruct (unstuff_concat_stuffed (frame_content P) HDLC_FLAG) as [EU _];
    [discriminate|].
  rewrite (Receive_framed pre _ rest frame frame'); try assumption.
  - rewrite EU. apply Receive_outcome_valid; assumption.
  - apply body_is_delimited_run. lia.
  - rewrite EU, length_frame_content. lia.
Qed.

Lemma leads_in_ready_flags (k : nat) (frame : list Z) :
  leads_in (replicate k HDLC_FLAG) frame 0 true HDLC_FLAG frame.
Proof.
  destruct k as [|k]; [apply leads_in_ready|].
  apply leads_in_flags; [lia | right; reflexivity].
Qed.

Lemma leads_in_noise_flags (noise : list Z) (j : nat) (frame : list Z) idx prev :
  Forall (fun b => b <> HDLC_FLAG) noise -> (1 <= j)%nat ->
  leads_in (noise ++ replicate j HDLC_FLAG) frame idx false prev frame.
Proof.
  intros Hn Hj. destruct j as [|j]; [lia|].
  change (replicate (S j) HDLC_FLAG) with ([HDLC_FLAG] ++ replicate j HDLC_FLAG).
  rewrite app_assoc.
  eapply leads_in_app; [apply leads_in_noise; exact Hn | apply leads_in_ready_flags].
Qed.

Lemma frame_left_length (P frame : list Z) :
  (length P <= 198)%nat -> length frame = EMBENET_BRT_MAX_FRAME_SIZE ->
  length (frame_content P ++ drop (length P + 2) frame) = EMBENET_BRT_MAX_FRAME_SIZE.
Proof.
  intros HP Hlen. rewrite <- length_frame_content.
  rewrite length_after_run; [exact Hlen|].
  rewrite length_frame_content, Hlen. unfold EMBENET_BRT_MAX_FRAME_SIZE. lia.
Qed.

(** X1: line noise without flag, one or more opening flags, the frame of
    [P1], any number of further flags (none: the closing flag of the first
    frame opens the second) and the frame of [P2]: the first call of
    EMBENET_BRT_Receive returns [P1] and leaves the second frame in the
    queue, the second call returns [P2] and empties the queue. *)
Theorem frames_are_delivered_in_order
  (policy : overflow_policy) (noise P1 P2 buf1 buf2 : list Z) (j k size1 size2 : nat) :
  let stream :=
    noise ++ replicate j HDLC_FLAG
      ++ concat (map stuffed (frame_content P1)) ++ [HDLC_FLAG]
      ++ replicate k HDLC_FLAG
      ++ concat (map stuffed (frame_content P2)) ++ [HDLC_FLAG] in
  Forall (fun b => b <> HDLC_FLAG) noise -> (1 <= j)%nat ->
  (1 <= length P1 <= 198)%nat -> (1 <= length P2 <= 198)%nat ->
  (length stream <= INPUT_RING_BUFFER_SIZE)%nat ->
  (length P1 <= size1)%nat -> (size1 <= length buf1)%nat ->
  (length P2 <= size2)%nat -> (size2 <= length buf2)%nat ->
  exists rx1 rx2,
    EMBENET_BRT_Receive (rx_after policy stream) buf1 size1
      = Ok (rx1, P1 ++ drop (length P1) buf1, length P1) /\
    EMBENET_BRT_Receive rx1 buf2 size2
      = Ok (rx2, P2 ++ drop (length P2) buf2, length P2) /\
    RingBuffer_GetLen (inputRingBufferDesc rx2) = 0%nat.
Proof.
  intros stream Hnoise Hj HP1 HP2 Hfit Hs1 Hb1 Hs2 Hb2.
  rewrite rx_after_fits by exact Hfit.
  unfold stream. rewrite (app_assoc noise).
  change ([HDLC_FLAG] ++ ?l) with (HDLC_FLAG :: l).
  rewrite Receive_sent_frame
    with (pre := noise ++ replicate j HDLC_FLAG)
         (frame' := replicate EMBENET_BRT_MAX_FRAME_SIZE 0);
    [|apply leads_in_noise_flags; assumption|apply length_replicate|assumption..].
  do 2 eexists. split; [reflexivity|].
  unfold rx_ready at 1.
  rewrite Receive_sent_frame
    with (pre := replicate k HDLC_FLAG) (rest := [])
         (frame' := frame_content P1
                      ++ drop (length P1 + 2) (replicate EMBENET_BRT_MAX_FRAME_SIZE 0));
    [|apply leads_in_ready_flags
     |apply frame_left_length; [lia | apply length_replicate]
     |assumption..].
  split; reflexivity.
Qed.

Lemma frames_are_delivered_in_order_witness :
  exists rx1 rx2,
    EMBENET_BRT_Receive
      (rx_after RejectWhenFull
         ([0x00; 0x7d] ++ replicate 2 HDLC_FLAG
            ++ concat (map stuffed (frame_content [0x7e; 0x01])) ++ [HDLC_FLAG]
            ++ replicate 0 HDLC_FLAG
            ++ concat (map stuffed (frame_content [0x41])) ++ [HDLC_FLAG]))
      [0; 0; 0] 2
      = Ok (rx1, [0x7e; 0x01] ++ drop 2 [0; 0; 0], 2%nat) /\
    EMBENET_BRT_Receive rx1 [0xaa] 1 = Ok (rx2, [0x41] ++ drop 1 [0xaa], 1%nat) /\
    RingBuffer_GetLen (inputRingBufferDesc rx2) = 0%nat.
Proof.
  apply (frames_are_delivered_in_order RejectWhenFull [0x00; 0x7d] [0x7e; 0x01] [0x41]
           [0; 0; 0] [0xaa] 2 0 2 1).
  - repeat (constructor; [discriminate|]). constructor.
  - lia.
  - simpl. lia.
  - simpl. lia.
  - vm_compute. lia.
  - simpl. lia.
  - simpl. lia.
  - simpl. lia.
  - simpl. lia.
Defined.

(** ** Runs that are no frame *)

Lemma Receive_loop_oversized (w : list Z) :
  forall fuel cap rest frame idx prev,
    Forall (fun b => b <> HDLC_FLAG) w ->
    length frame = EMBENET_BRT_MAX_FRAME_SIZE ->
    (idx <= EMBENET_BRT_MAX_FRAME_SIZE)%nat ->
    (EMBENET_BRT_MAX_FRAME_SIZE < idx + length (unstuff prev w))%nat ->
    Receive_loop (length w + fuel)
      (Build_Rx (Build_RingBuffer cap (w ++ rest)) frame idx true prev) =
    Receive_loop fuel
      (Build_Rx (Build_RingBuffer cap rest)
         (take idx frame ++ take (EMBENET_BRT_MAX_FRAME_SIZE - idx) (unstuff prev w))
         0 false (last_of prev w)).
Proof.
  induction w as [|b w IH]; intros fuel cap rest frame idx prev Hw Hlen Hidx Hover;
    [simpl in Hover; lia|].
  inversion Hw as [|? ? Hb Hw']; subst.
  cbn [length Nat.add app]. rewrite Receive_loop_cons.
  destruct (Nat.eq_dec idx EMBENET_BRT_MAX_FRAME_SIZE) as [->|Hne].
  - rewrite Receive_body_overflow by first [reflexivity | assumption].
    unfold aborted, set_last, set_index, set_receiving.
    cbn [inputRingBufferDesc inputFrame inputFrameDataIndex inputFrameReceiving
         lastDataByte].
    rewrite Receive_loop_searching by exact Hw'.
    rewrite Nat.sub_diag, take_0, app_nil_r.
    rewrite take_ge by lia. reflexivity.
  - rewrite Receive_body_data by (try assumption; lia).
    cbn [unstuff last_of] in *.
    destruct (HDLC_ESCAPE =? b).
    + apply IH; assumption.
    + cbn [length] in Hover.
      rewrite IH; [|assumption|rewrite length_insert; assumption|lia|lia].
      set (v := if HDLC_ESCAPE =? prev then u8 (Z.lxor b HDLC_ESCAPE_MASK) else b).
      rewrite (take_S_r _ _ v) by (apply list_lookup_insert_eq; lia).
      rewrite take_insert_ge by lia.
      replace (EMBENET_BRT_MAX_FRAME_SIZE - idx)%nat
        with (S (EMBENET_BRT_MAX_FRAME_SIZE - S idx)) by lia.
      cbn [take]. rewrite <- app_assoc. reflexivity.
Qed.

(** A run that would store more than 200 bytes is abandoned; the flag that
    ends it opens the next frame. *)
Lemma leads_in_oversized_run (w frame : list Z) :
  Forall (fun b => b <> HDLC_FLAG) w ->
  length frame = EMBENET_BRT_MAX_FRAME_SIZE ->
  (EMBENET_BRT_MAX_FRAME_SIZE < length (unstuff HDLC_FLAG w))%nat ->
  leads_in (w ++ [HDLC_FLAG]) frame 0 true HDLC_FLAG
    (take EMBENET_BRT_MAX_FRAME_SIZE (unstuff HDLC_FLAG w)).
Proof.
  intros Hw Hlen Hover fuel cap rest.
  rewrite length_app, <- app_assoc, <- Nat.add_assoc.
  unfold rx_ready at 1.
  rewrite Receive_loop_oversized by (try assumption; lia).
  cbn [length Nat.add app take]. rewrite Nat.sub_0_r.
  rewrite Receive_loop_cons, Receive_body_searching, eqb_refl_flag. reflexivity.
Qed.

(** X2: a run between two flags that stores at most two bytes, or that
    would store more than 200, is no frame: the decoder drops it within the
    call and EMBENET_BRT_Receive returns the frame that follows it, with any
    number of flags in between. *)
Theorem short_and_oversized_runs_are_skipped
  (policy : overflow_policy) (w P buf : list Z) (k size : nat) :
  let stream :=
    HDLC_FLAG :: w ++ [HDLC_FLAG] ++ replicate k HDLC_FLAG
      ++ concat (map stuffed (frame_content P)) ++ [HDLC_FLAG] in
  Forall (fun b => b <> HDLC_FLAG) w ->
  ((length (unstuff HDLC_FLAG w) <= 2)%nat
     /\ (w = [] \/ last_of HDLC_FLAG w <> HDLC_ESCAPE))
  \/ (EMBENET_BRT_MAX_FRAME_SIZE < length (unstuff HDLC_FLAG w))%nat ->
  (1 <= length P <= 198)%nat ->
  (length stream <= INPUT_RING_BUFFER_SIZE)%nat ->
  (length P <= size)%nat -> (size <= length buf)%nat ->
  exists rx',
    EMBENET_BRT_Receive (rx_after policy stream) buf size
      = Ok (rx', P ++ drop (length P) buf, length P) /\
    RingBuffer_GetLen (inputRingBufferDesc rx') = 0%nat.
Proof.
  intros stream Hw Hkind HP Hfit Hsize Hbuf.
  rewrite rx_after_fits by exact Hfit.
  assert (Hzeros : length (replicate EMBENET_BRT_MAX_FRAME_SIZE 0)
                   = EMBENET_BRT_MAX_FRAME_SIZE) by apply length_replicate.
  assert (Hpre : exists frame',
            length frame' = EMBENET_BRT_MAX_FRAME_SIZE /\
            leads_in ([HDLC_FLAG] ++ (w ++ [HDLC_FLAG]) ++ replicate k HDLC_FLAG)
              (replicate EMBENET_BRT_MAX_FRAME_SIZE 0) 0 false 0 frame').
  { destruct Hkind as [[Hshort Hlast]|Hover].
    - eexists. split; [|eapply leads_in_app;
        [apply (leads_in_flags 1); [lia | left; reflexivity]
        |eapply leads_in_app;
          [apply leads_in_short_run; [|exact Hzeros|exact Hshort]
          |apply leads_in_ready_flags]]].
      + apply length_after_run. rewrite Hzeros.
        unfold EMBENET_BRT_MAX_FRAME_SIZE. lia.
      + split; [exact Hw|]. split; [exact Hlast|].
        unfold EMBENET_BRT_MAX_FRAME_SIZE. lia.
    - eexists. split; [|eapply leads_in_app;
        [apply (leads_in_flags 1); [lia | left; reflexivity]
        |eapply leads_in_app;
          [apply leads_in_oversized_run; [exact Hw|exact Hzeros|exact Hover]
          |apply leads_in_ready_flags]]].
      rewrite length_take. lia. }
  destruct Hpre as (frame' & Hlen' & Hpre).
  replace stream
    with (([HDLC_FLAG] ++ (w ++ [HDLC_FLAG]) ++ replicate k HDLC_FLAG)
            ++ concat (map stuffed (frame_content P)) ++ HDLC_FLAG :: [])
    by (unfold stream; cbn [app]; rewrite <- !app_assoc; reflexivity).
  rewrite Receive_sent_frame with (rest := []) (frame' := frame'); try assumption.
  eexists. split; reflexivity.
Qed.

Lemma short_and_oversized_runs_are_skipped_witness :
  exists rx',
    EMBENET_BRT_Receive
      (rx_after RejectWhenFull
         (HDLC_FLAG :: replicate 201 0x55 ++ [HDLC_FLAG] ++ replicate 1 HDLC_FLAG
            ++ concat (map stuffed (frame_content [0x41; 0x42])) ++ [HDLC_FLAG]))
      [0; 0; 0] 3
      = Ok (rx', [0x41; 0x42] ++ drop 2 [0; 0; 0], 2%nat) /\
    RingBuffer_GetLen (inputRingBufferDesc rx') = 0%nat.
Proof.
  apply (short_and_oversized_runs_are_skipped RejectWhenFull (replicate 201 0x55)
           [0x41; 0x42] [0; 0; 0] 1 3).
  - apply Forall_replicate. discriminate.
  - right. vm_compute. lia.
  - simpl. lia.
  - vm_compute. lia.
  - simpl. lia.
  - simpl. lia.
Defined.

Lemma Receive_outcome_rejected (cap size : nat) (rest U frame buf : list Z) :
  crc_matches U (length U) = false ->
  Receive_outcome cap rest U frame buf size =
  Ok (rx_ready cap rest (U ++ drop (length U) frame), buf, 0%nat).
Proof. intros H. unfold Receive_outcome. rewrite H. reflexivity. Qed.

(** X3: a run between two flags that stores 3 to 200 bytes and fails the
    CRC test ends the call: EMBENET_BRT_Receive returns 0 and leaves the
    caller's buffer alone.  The frame that follows it, with any number of
    flags in between, is returned by the next call. *)
Theorem frame_after_a_rejected_frame
  (policy : overflow_policy) (w P buf buf2 : list Z) (k size size2 : nat) :
  let stream :=
    HDLC_FLAG :: w ++ [HDLC_FLAG] ++ replicate k HDLC_FLAG
      ++ concat (map stuffed (frame_content P)) ++ [HDLC_FLAG] in
  delimited_run w ->
  (2 < length (unstuff HDLC_FLAG w))%nat ->
  crc_matches (unstuff HDLC_FLAG w) (length (unstuff HDLC_FLAG w)) = false ->
  (1 <= length P <= 198)%nat ->
  (length stream <= INPUT_RING_BUFFER_SIZE)%nat ->
  (length P <= size2)%nat -> (size2 <= length buf2)%nat ->
  exists rx1 rx2,
    EMBENET_BRT_Receive (rx_after policy stream) buf size = Ok (rx1, buf, 0%nat) /\
    EMBENET_BRT_Receive rx1 buf2 size2
      = Ok (rx2, P ++ drop (length P) buf2, length P) /\
    RingBuffer_GetLen (inputRingBufferDesc rx2) = 0%nat.
Proof.
  intros stream Hrun Hn Hcrc HP Hfit Hsize Hbuf.
  rewrite rx_after_fits by exact Hfit.
  unfold stream. change (HDLC_FLAG :: w ++ ?l) with (replicate 1 HDLC_FLAG ++ w ++ l).
  change ([HDLC_FLAG] ++ ?l) with (HDLC_FLAG :: l).
  rewrite Receive_framed
    with (pre := replicate 1 HDLC_FLAG) (frame' := replicate EMBENET_BRT_MAX_FRAME_SIZE 0);
    [|apply leads_in_flags; [lia | left; reflexivity]
     |apply length_replicate|assumption..].
  rewrite Receive_outcome_rejected by exact Hcrc.
  do 2 eexists. split; [reflexivity|].
  unfold rx_ready at 1.
  rewrite Receive_sent_frame
    with (pre := replicate k HDLC_FLAG) (rest := [])
         (frame' := unstuff HDLC_FLAG w
                      ++ drop (length (unstuff HDLC_FLAG w))
                           (replicate EMBENET_BRT_MAX_FRAME_SIZE 0));
    [|apply leads_in_ready_flags| |assumption..].
  - split; reflexivity.
  - destruct Hrun as (_ & _ & Hlen).
    rewrite length_after_run; rewrite length_replicate; [reflexivity | exact Hlen].
Qed.

Lemma frame_after_a_rejected_frame_witness :
  exists rx1 rx2,
    EMBENET_BRT_Receive
      (rx_after RejectWhenFull
         (HDLC_FLAG :: [0x01; 0x02; 0x03; 0x04] ++ [HDLC_FLAG] ++ replicate 0 HDLC_FLAG
            ++ concat (map stuffed (frame_content [0x41])) ++ [HDLC_FLAG]))
      [0xaa; 0xbb] 2 = Ok (rx1, [0xaa; 0xbb], 0%nat) /\
    EMBENET_BRT_Receive rx1 [0xcc] 1 = Ok (rx2, [0x41] ++ drop 1 [0xcc], 1%nat) /\
    RingBuffer_GetLen (inputRingBufferDesc rx2) = 0%nat.
Proof.
  apply (frame_after_a_rejected_frame RejectWhenFull [0x01; 0x02; 0x03; 0x04] [0x41]
           [0xaa; 0xbb] [0xcc] 0 2 1).
  - split; [repeat (constructor; [discriminate|]); constructor|].
    split; [right; discriminate | vm_compute; lia].
  - vm_compute. lia.
  - vm_compute. reflexivity.
  - simpl. lia.
  - vm_compute. lia.
  - simpl. lia.
  - simpl. lia.
Defined.

(** ** Resynchronisation from any state *)

Lemma leads_in_one_flag (frame : list Z) (idx : nat) (recv : bool) (prev : Z) :
  recv = false \/ prev = HDLC_FLAG \/ (idx <= 2)%nat ->
  leads_in [HDLC_FLAG] frame idx recv prev frame.
Proof.
  intros H. destruct recv.
  - destruct (Z.eq_dec prev HDLC_FLAG) as [->|Hp].
    + apply (leads_in_flags 1); [lia | right; reflexivity].
    + destruct H as [H|[H|H]]; [discriminate | congruence |].
      intros fuel cap rest. cbn [length Nat.add app].
      rewrite Receive_loop_cons, Receive_body_closing_flag by exact Hp.
      replace (2 <? idx)%nat with false by (symmetry; apply Nat.ltb_ge; lia).
      reflexivity.
  - apply (leads_in_flags 1); [lia | left; reflexivity].
Qed.

(** A flag that closes a run of more than two stored bytes ends the call,
    whatever the run was; the decoder is then at the start of a frame. *)
Lemma Receive_stale_frame (cap idx size : nat) (q frame buf : list Z) (prev : Z) :
  prev <> HDLC_FLAG -> (2 < idx <= EMBENET_BRT_MAX_FRAME_SIZE)%nat ->
  length frame = EMBENET_BRT_MAX_FRAME_SIZE -> (size <= length buf)%nat ->
  exists buf1 n1,
    EMBENET_BRT_Receive
      (Build_Rx (Build_RingBuffer cap (HDLC_FLAG :: q)) frame idx true prev) buf size
    = Ok (rx_ready cap q frame, buf1, n1).
Proof.
  intros Hp Hidx Hlen Hsize.
  set (rx0 := Build_Rx _ _ _ _ _).
  assert (Hloop :
    Receive_loop (S (RingBuffer_GetLen (inputRingBufferDesc rx0))) rx0 =
    Ok (Build_Rx (Build_RingBuffer cap q) frame idx false HDLC_FLAG, true)).
  { unfold rx0, RingBuffer_GetLen. cbn [inputRingBufferDesc rb_bytes length].
    rewrite Receive_loop_cons, Receive_body_closing_flag by exact Hp.
    replace (2 <? idx)%nat with true by (symmetry; apply Nat.ltb_lt; lia).
    reflexivity. }
  rewrite (Receive_after_loop _ _ _ _ _ Hloop).
  cbn [inputFrameDataIndex inputFrame andb set_index set_receiving
       inputRingBufferDesc lastDataByte].
  replace (0 <? idx)%nat with true by (symmetry; apply Nat.ltb_lt; lia).
  fold (rx_ready cap q frame).
  destruct (crc_matches frame idx); [|eauto].
  unfold memcpy, bind.
  destruct (Nat.leb_spec (idx - 2) size).
  - replace (idx - 2 <=? length buf)%nat with true by (symmetry; apply Nat.leb_le; lia).
    replace (idx - 2 <=? length frame)%nat with true by (symmetry; apply Nat.leb_le; lia).
    cbn [andb]. eauto.
  - replace (size <=? length buf)%nat with true by (symmetry; apply Nat.leb_le; lia).
    replace (size <=? length frame)%nat with true by (symmetry; apply Nat.leb_le; lia).
    cbn [andb]. eauto.
Qed.

(** X4: whatever session the decoder is in (a frame half received, an
    escape byte pending, the accumulator full), once the queue is empty and
    the frame of [P] arrives, [P] is returned by the first call of
    EMBENET_BRT_Receive or, when the opening flag closed a run the decoder
    was still holding, by the second. *)
Theorem Receive_resynchronises
  (policy : overflow_policy) (rx : Rx) (P buf buf2 : list Z) (size size2 : nat) :
  decoder_in_bounds rx ->
  rb_bytes (inputRingBufferDesc rx) = [] ->
  (length (wire_of_Send policy P) <= rb_capacity (inputRingBufferDesc rx))%nat ->
  (1 <= length P <= 198)%nat ->
  (length P <= size)%nat -> (size <= length buf)%nat ->
  (length P <= size2)%nat -> (size2 <= length buf2)%nat ->
  exists rx1 buf1 n1,
    EMBENET_BRT_Receive (rx_stream policy (wire_of_Send policy P) rx) buf size
      = Ok (rx1, buf1, n1) /\
    ((buf1 = P ++ drop (length P) buf /\ n1 = length P) \/
     exists rx2,
       EMBENET_BRT_Receive rx1 buf2 size2
         = Ok (rx2, P ++ drop (length P) buf2, length P)).
Proof.
  intros [Hlen Hidx] Hq Hcap HP Hsize Hbuf Hsize2 Hbuf2.
  destruct rx as [[cap q] frame idx recv prev].
  cbn [inputRingBufferDesc rb_bytes rb_capacity inputFrame inputFrameDataIndex] in *.
  subst q. rewrite rx_stream_fits by (simpl; lia).
  rewrite wire_of_Send_eq. cbn [app].
  destruct (Z.eq_dec prev HDLC_FLAG) as [Hp|Hp];
    [|destruct recv; [destruct (Nat.ltb_spec 2 idx) as [Hbig|Hsmall]|]].
  2: { (* the flag closes a held run *)
    destruct (Receive_stale_frame cap idx size
                (concat (map stuffed (frame_content P)) ++ [HDLC_FLAG])
                frame buf prev Hp (conj Hbig Hidx) Hlen Hbuf) as (buf1 & n1 & E).
    exists (rx_ready cap (concat (map stuffed (frame_content P)) ++ [HDLC_FLAG]) frame),
      buf1, n1.
    split; [exact E|]. right. unfold rx_ready.
    change (concat (map stuffed (frame_content P)) ++ [HDLC_FLAG])
      with ([] ++ concat (map stuffed (frame_content P)) ++ HDLC_FLAG :: []).
    rewrite Receive_sent_frame with (pre := []) (frame' := frame);
      [eauto|apply leads_in_ready|assumption..]. }
  all: change (HDLC_FLAG :: concat (map stuffed (frame_content P)) ++ [HDLC_FLAG])
         with ([HDLC_FLAG] ++ concat (map stuffed (frame_content P)) ++ HDLC_FLAG :: []);
       rewrite Receive_sent_frame with (pre := [HDLC_FLAG]) (frame' := frame);
       [do 3 eexists; split; [reflexivity | left; split; reflexivity]
       |apply leads_in_one_flag; auto|assumption..].
Qed.

Lemma Receive_resynchronises_witness :
  let rx := rx_polled (rx_after RejectWhenFull [HDLC_FLAG; 0x01; 0x02; 0x03; 0x7d]) in
  exists rx1 buf1 n1,
    EMBENET_BRT_Receive
      (rx_stream RejectWhenFull (wire_of_Send RejectWhenFull [0x41]) rx) [0xaa] 1
      = Ok (rx1, buf1, n1) /\
    ((buf1 = [0x41] ++ drop 1 [0xaa] /\ n1 = 1%nat) \/
     exists rx2,
       EMBENET_BRT_Receive rx1 [0xbb] 1 = Ok (rx2, [0x41] ++ drop 1 [0xbb], 1%nat)).
Proof.
  intros rx.
  apply (Receive_resynchronises RejectWhenFull rx [0x41] [0xaa] [0xbb] 1 1).
  - split; [vm_compute; reflexivity | vm_compute; lia].
  - vm_compute. reflexivity.
  - vm_compute. lia.
  - simpl. lia.
  - simpl. lia.
  - simpl. lia.
  - simpl. lia.
  - simpl. lia.
Defined.

(** ** What a call of EMBENET_BRT_Receive can do to its caller *)

Lemma Receive_result_shape (rx : Rx) (buf : list Z) (size : nat) :
  decoder_in_bounds rx -> (size <= length buf)%nat ->
  exists rx' buf' n,
    EMBENET_BRT_Receive rx buf size = Ok (rx', buf', n) /\
    (n <= size)%nat /\ (n <= EMBENET_BRT_MAX_FRAME_SIZE - 2)%nat /\
    length buf' = length buf /\
    drop size buf' = drop size buf /\
    ((0 < n)%nat ->
       take n buf' = take n (inputFrame rx') /\
       crc_matches (inputFrame rx') (n + 2) = true).
Proof.
  intros Hwf Hsize.
  destruct (Receive_loop_in_bounds _ rx Hwf (Nat.lt_succ_diag_r _))
    as (rx1 & fc & Hloop & [Hlen Hidx] & Hfc).
  rewrite (Receive_after_loop _ _ _ _ _ Hloop).
  destruct fc; cbn [andb];
    [|exists rx1, buf, 0%nat; repeat split; (reflexivity || lia)].
  specialize (Hfc eq_refl).
  replace (0 <? inputFrameDataIndex rx1)%nat with true
    by (symmetry; apply Nat.ltb_lt; lia).
  destruct (crc_matches (inputFrame rx1) (inputFrameDataIndex rx1)) eqn:Hcrc;
    [|do 3 eexists; split; [reflexivity|]; repeat split; (reflexivity || lia)].
  unfold memcpy, bind.
  destruct (Nat.leb_spec (inputFrameDataIndex rx1 - 2) size) as [Hle|Hgt].
  - replace (inputFrameDataIndex rx1 - 2 <=? length buf)%nat with true
      by (symmetry; apply Nat.leb_le; lia).
    replace (inputFrameDataIndex rx1 - 2 <=? length (inputFrame rx1))%nat with true
      by (symmetry; apply Nat.leb_le; lia).
    cbn [andb]. do 3 eexists. split; [reflexivity|].
    split; [exact Hle|]. split; [lia|].
    split; [rewrite length_app, length_take, length_drop; lia|].
    split.
    + rewrite drop_app_ge by (rewrite length_take; lia).
      rewrite length_take, drop_drop. f_equal. lia.
    + intros _. cbn [set_index set_receiving inputFrame]. split.
      * rewrite take_app_le by (rewrite length_take; lia).
        rewrite take_take. f_equal. lia.
      * replace (inputFrameDataIndex rx1 - 2 + 2)%nat with (inputFrameDataIndex rx1)
          by lia. exact Hcrc.
  - replace (size <=? length buf)%nat with true by (symmetry; apply Nat.leb_le; lia).
    replace (size <=? length (inputFrame rx1))%nat with true
      by (symmetry; apply Nat.leb_le; lia).
    cbn [andb]. do 3 eexists. split; [reflexivity|].
    split; [lia|]. split; [lia|].
    split; [rewrite length_app, length_take, length_drop; lia|].
    split; [|lia].
    rewrite drop_app_ge by (rewrite length_take; lia).
    rewrite length_take, drop_drop. f_equal. lia.
Qed.

(** X5: in every state that the receive side reaches, a call of
    EMBENET_BRT_Receive with a capacity that the buffer really has returns
    at most that capacity and at most 198, keeps the length of the memory
    at [packetBuffer] and changes nothing behind the first
    [packetBufferSize] bytes. *)
Theorem Receive_stays_within_capacity
  (policy : overflow_policy) (rx : Rx) (buf : list Z) (size : nat) :
  rx_reachable policy rx -> (size <= length buf)%nat ->
  exists rx' buf' n,
    EMBENET_BRT_Receive rx buf size = Ok (rx', buf', n) /\
    (n <= size)%nat /\ (n <= 198)%nat /\
    length buf' = length buf /\
    drop size buf' = drop size buf.
Proof.
  intros Hr Hsize.
  destruct (Receive_result_shape rx buf size (rx_reachable_in_bounds policy rx Hr) Hsize)
    as (rx' & buf' & n & E & H1 & H2 & H3 & H4 & _).
  exists rx', buf', n. unfold EMBENET_BRT_MAX_FRAME_SIZE in H2. auto.
Qed.

Lemma Receive_stays_within_capacity_witness :
  exists rx' buf' n,
    EMBENET_BRT_Receive (rx_after RejectWhenFull (wire_of_Send RejectWhenFull [0x41; 0x42]))
      [0xaa; 0xbb; 0xcc] 2 = Ok (rx', buf', n) /\
    (n <= 2)%nat /\ (n <= 198)%nat /\
    length buf' = length [0xaa; 0xbb; 0xcc] /\
    drop 2 buf' = drop 2 [0xaa; 0xbb; 0xcc].
Proof.
  apply (Receive_stays_within_capacity RejectWhenFull).
  - apply rx_after_reachable.
  - simpl. lia.
Defined.

(** X6: whenever EMBENET_BRT_Receive returns a length above 0, the bytes
    it put into the buffer are the start of the accumulator, and the two
    accumulator bytes behind them are the low and the high byte of the
    complemented CRC of exactly these bytes: no payload is handed out
    without a matching CRC. *)
Theorem Receive_returns_only_checked_payloads
  (policy : overflow_policy) (rx rx' : Rx) (buf buf' : list Z) (size n : nat) :
  rx_reachable policy rx -> (size <= length buf)%nat ->
  EMBENET_BRT_Receive rx buf size = Ok (rx', buf', n) ->
  (0 < n)%nat ->
  let payload := take n buf' in
  payload = take n (inputFrame rx') /\
  nth n (inputFrame rx') 0 = crc_low (frame_crc payload) /\
  nth (S n) (inputFrame rx') 0 = crc_high (frame_crc payload).
Proof.
  intros Hr Hsize E Hn payload.
  destruct (Receive_result_shape rx buf size (rx_reachable_in_bounds policy rx Hr) Hsize)
    as (rx1 & buf1 & n1 & E1 & _ & _ & _ & _ & Hgood).
  rewrite E in E1. inversion E1; subst rx1 buf1 n1.
  destruct (Hgood Hn) as [Htake Hcrc].
  split; [exact Htake|].
  unfold crc_matches in Hcrc.
  replace (n + 2 - 2)%nat with n in Hcrc by lia.
  replace (n + 2 - 1)%nat with (S n) in Hcrc by lia.
  apply andb_true_iff in Hcrc. destruct Hcrc as [Hl Hh].
  apply Z.eqb_eq in Hl, Hh. unfold payload. rewrite Htake. auto.
Qed.

Lemma Receive_returns_only_checked_payloads_witness :
  let rx' := rx_ready INPUT_RING_BUFFER_SIZE [] (frame_left [0x41; 0x42]) in
  take 2 [0x41; 0x42] = take 2 (inputFrame rx') /\
  nth 2 (inputFrame rx') 0 = crc_low (frame_crc (take 2 [0x41; 0x42])) /\
  nth 3 (inputFrame rx') 0 = crc_high (frame_crc (take 2 [0x41; 0x42])).
Proof.
  intros rx'.
  apply (Receive_returns_only_checked_payloads RejectWhenFull
           (rx_after RejectWhenFull (wire_of_Send RejectWhenFull [0x41; 0x42]))
           rx' [0; 0] [0x41; 0x42] 2 2).
  - apply rx_after_reachable.
  - simpl. lia.
  - vm_compute. reflexivity.
  - lia.
Defined.

(** ** Without a flag there is no frame *)

Lemma Receive_body_no_flag (rx : Rx) (b : Z) :
  decoder_in_bounds rx -> b <> HDLC_FLAG ->
  exists rx',
    Receive_body rx b = Ok (rx', false) /\
    decoder_in_bounds rx' /\
    inputRingBufferDesc rx' = inputRingBufferDesc rx.
Proof.
  destruct rx as [rb frame idx recv prev]. unfold decoder_in_bounds.
  cbn [inputFrame inputFrameDataIndex]. intros [Hlen Hidx] Hb.
  destruct recv.
  - destruct (Nat.eq_dec idx EMBENET_BRT_MAX_FRAME_SIZE) as [E|E].
    + rewrite Receive_body_overflow by first [reflexivity | assumption].
      eexists. split; [reflexivity|]. cbn. repeat split; lia.
    + rewrite Receive_body_data by (try assumption; lia).
      destruct (HDLC_ESCAPE =? b); eexists; (split; [reflexivity|]);
        cbn [inputFrame inputFrameDataIndex inputRingBufferDesc];
        rewrite ?length_insert; repeat split; lia.
  - rewrite Receive_body_searching.
    replace (HDLC_FLAG =? b) with false by (symmetry; apply Z.eqb_neq; congruence).
    eexists. split; [reflexivity|]. cbn. repeat split; lia.
Qed.

Lemma Receive_loop_no_flag (q : list Z) :
  forall fuel cap frame idx recv prev,
    decoder_in_bounds (Build_Rx (Build_RingBuffer cap q) frame idx recv prev) ->
    Forall (fun b => b <> HDLC_FLAG) q -> (length q < fuel)%nat ->
    exists rx',
      Receive_loop fuel (Build_Rx (Build_RingBuffer cap q) frame idx recv prev)
        = Ok (rx', false) /\
      decoder_in_bounds rx' /\
      inputRingBufferDesc rx' = Build_RingBuffer cap [].
Proof.
  induction q as [|b q IH]; intros fuel cap frame idx recv prev Hwf Hq Hfuel;
    (destruct fuel as [|fuel]; [simpl in Hfuel; lia|]).
  - rewrite Receive_loop_empty. eauto.
  - inversion Hq as [|? ? Hb Hq']; subst. rewrite Receive_loop_cons.
    destruct (Receive_body_no_flag
                (Build_Rx (Build_RingBuffer cap q) frame idx recv prev) b Hwf Hb)
      as (rx1 & E & Hwf1 & Hring).
    rewrite E. destruct rx1 as [rb1 frame1 idx1 recv1 prev1].
    cbn [inputRingBufferDesc] in Hring. subst rb1.
    apply IH; [exact Hwf1 | exact Hq' | simpl in Hfuel; lia].
Qed.

(** X7: when the inbound queue holds no flag byte (in particular when it
    is empty), EMBENET_BRT_Receive returns 0, leaves the caller's buffer as
    it was and has taken every byte from the queue; this holds in every
    state that the receive side reaches. *)
Theorem Receive_without_flag_returns_nothing
  (policy : overflow_policy) (rx : Rx) (buf : list Z) (size : nat) :
  rx_reachable policy rx ->
  Forall (fun b => b <> HDLC_FLAG) (rb_bytes (inputRingBufferDesc rx)) ->
  exists rx',
    EMBENET_BRT_Receive rx buf size = Ok (rx', buf, 0%nat) /\
    RingBuffer_GetLen (inputRingBufferDesc rx') = 0%nat.
Proof.
  intros Hr Hq. pose proof (rx_reachable_in_bounds policy rx Hr) as Hwf.
  destruct rx as [[cap q] frame idx recv prev].
  cbn [inputRingBufferDesc rb_bytes] in Hq.
  destruct (Receive_loop_no_flag q (S (length q)) cap frame idx recv prev Hwf Hq)
    as (rx' & Hloop & _ & Hring); [lia|].
  exists rx'. split.
  - rewrite (Receive_after_loop _ rx' false); [reflexivity | exact Hloop].
  - rewrite Hring. reflexivity.
Qed.

Lemma Receive_without_flag_returns_nothing_witness :
  exists rx',
    EMBENET_BRT_Receive
      (rx_stream RejectWhenFull [0x05; 0x7d; 0x06]
         (rx_polled (rx_after RejectWhenFull [HDLC_FLAG; 0x01; 0x02; 0x03; 0x04])))
      [0xaa] 1 = Ok (rx', [0xaa], 0%nat) /\
    RingBuffer_GetLen (inputRingBufferDesc rx') = 0%nat.
Proof.
  apply (Receive_without_flag_returns_nothing RejectWhenFull).
  - apply rx_stream_reachable.
    apply (rx_reach_Receive RejectWhenFull
             (rx_after RejectWhenFull [HDLC_FLAG; 0x01; 0x02; 0x03; 0x04])
             _ [] [] 0 0).
    + apply rx_after_reachable.
    + vm_compute. reflexivity.
  - vm_compute. repeat (constructor; [discriminate|]). constructor.
Defined.

(** ** The encoder and the transmit pump together *)

Lemma uartWrite_all_app policy (l1 l2 : list Z) (tx : Tx) :
  uartWrite_all policy (l1 ++ l2) tx = uartWrite_all policy l2 (uartWrite_all policy l1 tx).
Proof. unfold uartWrite_all. apply fold_left_app. Qed.

Lemma putByte_writes policy (b : Z) (tx : Tx) :
  putByte policy b tx = uartWrite_all policy (stuffed b) tx.
Proof.
  unfold putByte, stuffed.
  destruct ((b =? HDLC_FLAG) || (b =? HDLC_ESCAPE)); reflexivity.
Qed.

Lemma Send_loop_writes policy (bytes : list Z) :
  forall crc tx,
    Send_loop policy bytes crc tx =
    (fold_left openhdlc_crc bytes crc,
     uartWrite_all policy (concat (map stuffed bytes)) tx).
Proof.
  induction bytes as [|b bytes IH]; intros crc tx; [reflexivity|].
  cbn [Send_loop map concat fold_left]. rewrite IH, putByte_writes, uartWrite_all_app.
  reflexivity.
Qed.

(** EMBENET_BRT_Send is the sequence of [uartWrite] calls for the bytes of
    the frame. *)
Lemma Send_writes policy (P : list Z) (tx : Tx) :
  EMBENET_BRT_Send policy P (length P) tx =
  uartWrite_all policy
    (HDLC_FLAG :: concat (map stuffed (frame_content P)) ++ [HDLC_FLAG]) tx.
Proof.
  unfold EMBENET_BRT_Send, putFlag. rewrite firstn_all, Send_loop_writes.
  rewrite !putByte_writes.
  unfold frame_content, frame_crc, crc_low, crc_high.
  rewrite map_app, concat_app. cbn [map concat]. rewrite app_nil_r.
  rewrite !(u8_small (Z.land _ 0xff)) by (apply land_ff_range).
  change (HDLC_FLAG :: ?l) with ([HDLC_FLAG] ++ l).
  rewrite !uartWrite_all_app. reflexivity.
Qed.

Lemma uartWrite_all_cons policy (b : Z) (l : list Z) (tx : Tx) :
  uartWrite_all policy (b :: l) tx = uartWrite_all policy l (uartWrite policy b tx).
Proof. reflexivity. Qed.

Lemma uartWrite_busy policy (b : Z) cap q reg em :
  (length q < cap)%nat ->
  uartWrite policy b (Build_Tx (Build_RingBuffer cap q) true reg em) =
  Build_Tx (Build_RingBuffer cap (q ++ [b])) true reg (em ++ [b]).
Proof.
  intros H. unfold uartWrite, RingBuffer_PutChar.
  cbn [isTransmitting outputRingBufferDesc rb_bytes rb_capacity uartTxRegister emitted].
  replace (length q <? cap)%nat with true by (symmetry; apply Nat.ltb_lt; lia).
  reflexivity.
Qed.

Lemma uartWrite_all_busy policy (l : list Z) :
  forall cap q reg em,
    (length q + length l <= cap)%nat ->
    uartWrite_all policy l (Build_Tx (Build_RingBuffer cap q) true reg em) =
    Build_Tx (Build_RingBuffer cap (q ++ l)) true reg (em ++ l).
Proof.
  induction l as [|b l IH]; intros cap q reg em Hfit.
  - cbn. rewrite !app_nil_r. reflexivity.
  - cbn [length] in Hfit.
    rewrite uartWrite_all_cons, uartWrite_busy by lia.
    rewrite IH by (rewrite length_app; simpl; lia).
    rewrite <- !app_assoc. reflexivity.
Qed.

Lemma uartWrite_all_idle policy (b : Z) (l : list Z) cap q reg em :
  (length q + length l <= cap)%nat ->
  uartWrite_all policy (b :: l) (Build_Tx (Build_RingBuffer cap q) false reg em) =
  Build_Tx (Build_RingBuffer cap (q ++ l)) true (reg ++ [b]) (em ++ b :: l).
Proof.
  intros Hfit. rewrite uartWrite_all_cons.
  change (uartWrite policy b (Build_Tx (Build_RingBuffer cap q) false reg em))
    with (Build_Tx (Build_RingBuffer cap q) true (reg ++ [b]) (em ++ [b])).
  rewrite uartWrite_all_busy by exact Hfit.
  rewrite <- app_assoc. reflexivity.
Qed.

Lemma tx_isr_drains (q : list Z) :
  forall cap busy reg em,
    Nat.iter (length q) tx_isr (Build_Tx (Build_RingBuffer cap q) busy reg em) =
    Build_Tx (Build_RingBuffer cap []) busy (reg ++ q) em.
Proof.
  induction q as [|c q IH]; intros cap busy reg em.
  - cbn. rewrite app_nil_r. reflexivity.
  - cbn [length]. rewrite Nat.iter_succ_r.
    unfold tx_isr at 2, RingBuffer_GetChar.
    cbn [outputRingBufferDesc rb_bytes rb_capacity isTransmitting uartTxRegister emitted].
    rewrite IH, <- app_assoc. reflexivity.
Qed.

(** X8: EMBENET_BRT_Send on a freshly initialised module writes the
    opening flag to the UART, sets the module busy and queues the rest of
    the frame, as long as the frame is at most one byte longer than the
    outbound queue.  One transmit interrupt per byte of the frame then puts
    the whole frame on the UART, in order, and leaves the transmitter idle
    with an empty queue. *)
Theorem Send_then_transmit_interrupts (policy : overflow_policy) (s : BRT) (P : list Z) :
  let wire := wire_of_Send policy P in
  let sent := EMBENET_BRT_Send policy P (length P) (brt_tx (EMBENET_BRT_Init s)) in
  let done := Nat.iter (length wire) tx_isr sent in
  (length wire <= S OUTPUT_RING_BUFFER_SIZE)%nat ->
  EMBENET_BRT_IsBusy sent = true /\
  uartTxRegister sent = uartTxRegister (brt_tx s) ++ [HDLC_FLAG] /\
  HDLC_FLAG :: rb_bytes (outputRingBufferDesc sent) = wire /\
  uartTxRegister done = uartTxRegister (brt_tx s) ++ wire /\
  EMBENET_BRT_IsBusy done = false /\
  RingBuffer_GetLen (outputRingBufferDesc done) = 0%nat.
Proof.
  intros wire sent done Hfit.
  assert (Ewire : wire = HDLC_FLAG
                    :: concat (map stuffed (frame_content P)) ++ [HDLC_FLAG])
    by apply wire_of_Send_eq.
  set (tail := concat (map stuffed (frame_content P)) ++ [HDLC_FLAG]) in *.
  assert (Esent : sent = Build_Tx (Build_RingBuffer OUTPUT_RING_BUFFER_SIZE tail) true
                           (uartTxRegister (brt_tx s) ++ [HDLC_FLAG])
                           (emitted (brt_tx s) ++ HDLC_FLAG :: tail)).
  { unfold sent. rewrite Send_writes. fold tail.
    cbn [EMBENET_BRT_Init brt_tx]. unfold RingBuffer_Init.
    rewrite uartWrite_all_idle; [reflexivity|].
    rewrite Ewire in Hfit. simpl in *. lia. }
  assert (Edone : done = Build_Tx (Build_RingBuffer OUTPUT_RING_BUFFER_SIZE []) false
                           (uartTxRegister (brt_tx s) ++ wire)
                           (emitted (brt_tx s) ++ HDLC_FLAG :: tail)).
  { unfold done. rewrite Esent, Ewire. cbn [length]. rewrite Nat.iter_succ.
    rewrite tx_isr_drains. unfold tx_isr, RingBuffer_GetChar.
    cbn [outputRingBufferDesc rb_bytes isTransmitting uartTxRegister emitted].
    rewrite <- app_assoc. reflexivity. }
  rewrite Esent, Edone, Ewire. repeat split.
Qed.

Lemma Send_then_transmit_interrupts_witness :
  let wire := wire_of_Send RejectWhenFull [0x01; 0x7e; 0x7d; 0x02] in
  let sent := EMBENET_BRT_Send RejectWhenFull [0x01; 0x7e; 0x7d; 0x02]
                (length [0x01; 0x7e; 0x7d; 0x02]) (brt_tx (EMBENET_BRT_Init brt_boot)) in
  let done := Nat.iter (length wire) tx_isr sent in
  EMBENET_BRT_IsBusy sent = true /\
  uartTxRegister sent = uartTxRegister (brt_tx brt_boot) ++ [HDLC_FLAG] /\
  HDLC_FLAG :: rb_bytes (outputRingBufferDesc sent) = wire /\
  uartTxRegister done = uartTxRegister (brt_tx brt_boot) ++ wire /\
  EMBENET_BRT_IsBusy done = false /\
  RingBuffer_GetLen (outputRingBufferDesc done) = 0%nat.
Proof.
  apply (Send_then_transmit_interrupts RejectWhenFull brt_boot [0x01; 0x7e; 0x7d; 0x02]).
  vm_compute. lia.
Defined.

(** X9: on the wire a frame is a flag, a body and a flag; the body holds
    no flag byte, unstuffs to the payload followed by the two CRC bytes, and
    has between one and two wire bytes for each of them. *)
Theorem Send_wire_shape (policy : overflow_policy) (P : list Z) :
  exists body,
    wire_of_Send policy P = HDLC_FLAG :: body ++ [HDLC_FLAG] /\
    Forall (fun b => b <> HDLC_FLAG) body /\
    unstuff HDLC_FLAG body = P ++ [crc_low (frame_crc P); crc_high (frame_crc P)] /\
    (length P + 2 <= length body <= 2 * (length P + 2))%nat.
Proof.
  exists (concat (map stuffed (frame_content P))).
  split; [apply wire_of_Send_eq|].
  split; [apply concat_stuffed_no_flag|].
  split.
  - apply (unstuff_concat_stuffed (frame_content P) HDLC_FLAG). discriminate.
  - rewrite <- length_frame_content. apply length_concat_stuffed.
Qed.

(** X10: as long as every emission finds room in the outbound queue, the
    bytes passed to [uartWrite] so far are the bytes written to the UART
    followed by the bytes still queued, in this order, and an idle
    transmitter has nothing queued: Send, SendRaw and the transmit interrupt
    neither lose nor reorder a byte. *)
Theorem transmit_path_keeps_order (policy : overflow_policy) (tx : Tx) :
  tx_lossless policy tx ->
  emitted tx = uartTxRegister tx ++ rb_bytes (outputRingBufferDesc tx) /\
  (isTransmitting tx = false -> rb_bytes (outputRingBufferDesc tx) = []).
Proof. apply emitted_is_sent_then_queued. Qed.

Lemma transmit_path_keeps_order_witness :
  let tx := uartWrite RejectWhenFull 0x03
              (tx_isr (uartWrite RejectWhenFull 0x02
                         (uartWrite RejectWhenFull 0x01
                            (brt_tx (EMBENET_BRT_Init brt_boot))))) in
  emitted tx = uartTxRegister tx ++ rb_bytes (outputRingBufferDesc tx) /\
  (isTransmitting tx = false -> rb_bytes (outputRingBufferDesc tx) = []).
Proof.
  intros tx. apply (transmit_path_keeps_order RejectWhenFull).
  unfold tx.
  apply tx_lossless_uartWrite; [|vm_compute; lia].
  apply tx_lossless_tx_isr.
  apply tx_lossless_uartWrite; [|vm_compute; lia].
  apply tx_lossless_uartWrite; [|vm_compute; lia].
  apply tx_lossless_init.
Defined.

(** ** The raw path *)

Lemma SendRaw_writes policy (data : list Z) (tx : Tx) :
  EMBENET_BRT_SendRaw policy data (length data) tx = uartWrite_all policy data tx.
Proof.
  unfold EMBENET_BRT_SendRaw. rewrite firstn_all.
  revert tx. induction data as [|b data IH]; intros tx; [reflexivity|].
  cbn [SendRaw_loop]. rewrite IH. reflexivity.
Qed.

Lemma emitted_uartWrite_all policy (l : list Z) (tx : Tx) :
  emitted (uartWrite_all policy l tx) = emitted tx ++ l.
Proof.
  revert tx. induction l as [|b l IH]; intros tx.
  - cbn. rewrite app_nil_r. reflexivity.
  - rewrite uartWrite_all_cons, IH, emitted_uartWrite, <- app_assoc. reflexivity.
Qed.

(** X11: EMBENET_BRT_ReceiveRaw with a capacity of at least one byte
    takes the oldest [min (queue length) (capacity)] bytes from the inbound
    queue, stores them in this order at the start of the buffer, leaves the
    rest of the buffer and of the queue as they were, does not touch the
    decoder session and returns their number. *)
Theorem ReceiveRaw_takes_what_fits (rx : Rx) (data : list Z) (size : nat) :
  (1 <= size)%nat -> (size <= length data)%nat ->
  let bytes := rb_bytes (inputRingBufferDesc rx) in
  let m := Nat.min (length bytes) size in
  EMBENET_BRT_ReceiveRaw rx data size =
  Ok (set_ring (Build_RingBuffer (rb_capacity (inputRingBufferDesc rx)) (drop m bytes)) rx,
      take m bytes ++ drop m data, m).
Proof. apply ReceiveRaw_within_capacity. Qed.

Lemma ReceiveRaw_takes_what_fits_witness :
  EMBENET_BRT_ReceiveRaw (rx_after RejectWhenFull [0x41; 0x42; 0x43]) [0; 0; 0; 0] 2 =
  Ok (rx_after RejectWhenFull [0x43], [0x41; 0x42; 0; 0], 2%nat).
Proof.
  apply (ReceiveRaw_takes_what_fits (rx_after RejectWhenFull [0x41; 0x42; 0x43])
           [0; 0; 0; 0] 2); simpl; lia.
Defined.

(** X12: what EMBENET_BRT_SendRaw emits is the data, byte for byte (no
    flag, no stuffing, no CRC), and when these bytes arrive at a freshly
    initialised receive side, EMBENET_BRT_ReceiveRaw with a capacity of at
    least their number gives them back and empties the queue; the data must
    fit into the inbound queue. *)
Theorem SendRaw_ReceiveRaw_round_trip
  (policy : overflow_policy) (data buf : list Z) (size : nat) :
  let wire := emitted (EMBENET_BRT_SendRaw policy data (length data)
                         (brt_tx (EMBENET_BRT_Init brt_boot))) in
  (1 <= length data <= INPUT_RING_BUFFER_SIZE)%nat ->
  (length data <= size)%nat -> (size <= length buf)%nat ->
  wire = data /\
  EMBENET_BRT_ReceiveRaw (rx_after policy wire) buf size =
    Ok (rx_after policy [], data ++ drop (length data) buf, length data).
Proof.
  intros wire Hlen Hsize Hbuf.
  assert (E : wire = data)
    by (unfold wire; rewrite SendRaw_writes, emitted_uartWrite_all; reflexivity).
  split; [exact E|]. rewrite E.
  rewrite ReceiveRaw_within_capacity by lia.
  rewrite !rx_after_fits by (simpl; lia).
  cbn [inputRingBufferDesc rb_bytes rb_capacity set_ring inputFrame inputFrameDataIndex
       inputFrameReceiving lastDataByte].
  rewrite Nat.min_l by lia. rewrite firstn_all, drop_all. reflexivity.
Qed.

Lemma SendRaw_ReceiveRaw_round_trip_witness :
  emitted (EMBENET_BRT_SendRaw RejectWhenFull [0x7e; 0x7d; 0x00] 3
             (brt_tx (EMBENET_BRT_Init brt_boot))) = [0x7e; 0x7d; 0x00] /\
  EMBENET_BRT_ReceiveRaw
    (rx_after RejectWhenFull
       (emitted (EMBENET_BRT_SendRaw RejectWhenFull [0x7e; 0x7d; 0x00] 3
                   (brt_tx (EMBENET_BRT_Init brt_boot))))) [0; 0; 0; 0] 4 =
    Ok (rx_after RejectWhenFull [], [0x7e; 0x7d; 0x00] ++ drop 3 [0; 0; 0; 0], 3%nat).
Proof.
  apply (SendRaw_ReceiveRaw_round_trip RejectWhenFull [0x7e; 0x7d; 0x00] [0; 0; 0; 0] 4);
    simpl; unfold INPUT_RING_BUFFER_SIZE; lia.
Defined.

(** ** A bracket of the critical section *)

(** X13: EMBENET_CRITICAL_SECTION_Enter followed by
    EMBENET_CRITICAL_SECTION_Exit leaves the nesting counter and the
    interrupt-enable state as they were, both outside of any critical
    section and inside one (where the interrupts are disabled); the counter
    must be below INT_MAX. *)
Theorem critical_section_bracket (cs : CriticalSection) :
  0 <= irqNestCounter cs < INT_MAX ->
  irqNestCounter cs = 0 \/ irq_enabled cs = false ->
  let after := EMBENET_CRITICAL_SECTION_Exit (EMBENET_CRITICAL_SECTION_Enter cs) in
  irq_enabled (EMBENET_CRITICAL_SECTION_Enter cs) = false /\
  irqNestCounter after = irqNestCounter cs /\
  irq_enabled after = irq_enabled cs /\
  (1 <= irqNestCounter cs -> previousIrqState after = previousIrqState cs).
Proof.
  intros Hc Hstate after. split; [reflexivity|].
  unfold after, EMBENET_CRITICAL_SECTION_Exit, EMBENET_CRITICAL_SECTION_Enter, irq_enabled.
  cbn [irqNestCounter PRIMASK previousIrqState].
  rewrite (int32_small (irqNestCounter cs + 1)) by (unfold INT_MAX in *; lia).
  replace (irqNestCounter cs + 1 - 1) with (irqNestCounter cs) by lia.
  rewrite (int32_small (irqNestCounter cs)) by (unfold INT_MAX in *; lia).
  replace (irqNestCounter cs <? 0) with false by (symmetry; apply Z.ltb_ge; lia).
  destruct (Z.eqb_spec 0 (irqNestCounter cs)) as [E0|E0].
  - split; [reflexivity|]. split; [|lia]. cbn [andb].
    destruct (Z.eqb_spec 0 (PRIMASK cs)) as [E|E].
    + rewrite <- E. reflexivity.
    + symmetry. apply Z.eqb_neq. lia.
  - cbn [andb]. split; [reflexivity|]. split; [|reflexivity].
    destruct Hstate as [H|H]; [lia|]. unfold irq_enabled in H. rewrite H. reflexivity.
Qed.

Lemma critical_section_bracket_witness :
  let cs := {| irqNestCounter := 2; previousIrqState := 0; PRIMASK := 1 |} in
  let after := EMBENET_CRITICAL_SECTION_Exit (EMBENET_CRITICAL_SECTION_Enter cs) in
  irq_enabled (EMBENET_CRITICAL_SECTION_Enter cs) = false /\
  irqNestCounter after = irqNestCounter cs /\
  irq_enabled after = irq_enabled cs /\
  (1 <= irqNestCounter cs -> previousIrqState after = previousIrqState cs).
Proof.
  intros cs.
  apply (critical_section_bracket cs).
  - unfold INT_MAX. simpl. lia.
  - right. reflexivity.
Defined.

(** * The timer *)

Lemma u32_small (x : Z) : 0 <= x < 4294967296 -> u32 x = x.
Proof. intros H. unfold u32. apply Z.mod_small. exact H. Qed.

Lemma u64_small (x : Z) : 0 <= x < 18446744073709551616 -> u64 x = x.
Proof. intros H. unfold u64. apply Z.mod_small. exact H. Qed.

(** 2^24 ticks last exactly OVERFLOW_EXTENSION_US microseconds. *)
Lemma scaled_ticks (k : nat) (c : Z) :
  total_ticks k c * PERIOD_SCALED_UP / SCALE_FACTOR =
  c * PERIOD_SCALED_UP / SCALE_FACTOR + OVERFLOW_EXTENSION_US * Z.of_nat k.
Proof.
  unfold total_ticks, PERIOD_SCALED_UP, SCALE_FACTOR, OVERFLOW_EXTENSION_US.
  replace ((c + 16777216 * Z.of_nat k) * 30517578125)
    with (c * 30517578125 + (512000000 * Z.of_nat k) * 1000000000) by lia.
  rewrite Z.div_add by lia. reflexivity.
Qed.

Lemma scaled_counter_range (c : Z) :
  0 <= c < 16777216 ->
  0 <= c * PERIOD_SCALED_UP / SCALE_FACTOR < OVERFLOW_EXTENSION_US.
Proof.
  intros Hc. unfold PERIOD_SCALED_UP, SCALE_FACTOR, OVERFLOW_EXTENSION_US. split.
  - apply Z.div_pos; lia.
  - apply Z.div_lt_upper_bound; lia.
Qed.

Lemma timer_extension_counts (k : nat) (t : Timer) :
  timer_reachable k t -> Z.of_nat k < 4294967296 ->
  timerValueExtension t = OVERFLOW_EXTENSION_US * Z.of_nat k.
Proof.
  induction 1 as [cb t|k t Hr IH|k t Hr IH|k t cs v c1 c2 Hr IH|k t Hr IH]; intros Hk.
  - cbn. lia.
  - cbn. auto.
  - cbn. auto.
  - unfold EMBENET_TIMER_SetCompare.
    destruct (EVENTS_OVRFLW t); cbn [snd];
      match goal with |- context [if ?c then _ else _] => destruct c end;
      cbn [timerValueExtension]; auto.
  - unfold EMBENET_PORT_TIMER_IRQ_HANDLER.
    destruct (EVENTS_OVRFLW t) eqn:E.
    + cbn [EVENTS_COMPARE0 softwareIrq timerValueExtension callback callbackCalls].
      assert (Hext : timerValueExtension t = OVERFLOW_EXTENSION_US * Z.of_nat k)
        by (apply IH; lia).
      assert (Hnew : u64 (timerValueExtension t + OVERFLOW_EXTENSION_US)
                     = OVERFLOW_EXTENSION_US * Z.of_nat (S k)).
      { rewrite Hext. rewrite u64_small; unfold OVERFLOW_EXTENSION_US in *; lia. }
      destruct (EVENTS_COMPARE0 t || softwareIrq t); cbn [timerValueExtension];
        exact Hnew.
    + destruct (EVENTS_COMPARE0 t || softwareIrq t); cbn [timerValueExtension]; auto.
Qed.

Lemma Enter_Exit_restores (cs : CriticalSection) :
  0 <= irqNestCounter cs < INT_MAX ->
  irqNestCounter cs = 0 \/ irq_enabled cs = false ->
  let after := EMBENET_CRITICAL_SECTION_Exit (EMBENET_CRITICAL_SECTION_Enter cs) in
  irqNestCounter after = irqNestCounter cs /\ irq_enabled after = irq_enabled cs.
Proof.
  intros Hc Hstate after.
  unfold after, EMBENET_CRITICAL_SECTION_Exit, EMBENET_CRITICAL_SECTION_Enter, irq_enabled.
  cbn [irqNestCounter PRIMASK previousIrqState].
  rewrite (int32_small (irqNestCounter cs + 1)) by (unfold INT_MAX in *; lia).
  replace (irqNestCounter cs + 1 - 1) with (irqNestCounter cs) by lia.
  rewrite (int32_small (irqNestCounter cs)) by (unfold INT_MAX in *; lia).
  replace (irqNestCounter cs <? 0) with false by (symmetry; apply Z.ltb_ge; lia).
  destruct (Z.eqb_spec 0 (irqNestCounter cs)) as [E0|E0].
  - split; [reflexivity|]. cbn [andb].
    destruct (Z.eqb_spec 0 (PRIMASK cs)) as [E|E].
    + rewrite <- E. reflexivity.
    + symmetry. apply Z.eqb_neq. lia.
  - cbn [andb]. split; [reflexivity|].
    destruct Hstate as [H|H]; [lia|]. unfold irq_enabled in H. rewrite H. reflexivity.
Qed.

(** X14: after EMBENET_TIMER_Init and [k] serviced overflows,
    EMBENET_TIMER_ReadCounter returns the tick count scaled by
    30.517578125 us, rounded down, modulo 2^32: the ticks are the COUNTER
    value plus 2^24 for each serviced overflow, and one more 2^24 (with the
    COUNTER value read again) when an overflow is pending.  The call leaves
    the nesting counter and the interrupt-enable state as it found them. *)
Theorem ReadCounter_is_the_scaled_tick_count
  (k : nat) (t : Timer) (cs : CriticalSection) (counter1 counter2 : Z) :
  timer_reachable k t ->
  Z.of_nat k < 4294967295 ->
  0 <= counter1 < 16777216 -> 0 <= counter2 < 16777216 ->
  0 <= irqNestCounter cs < INT_MAX ->
  irqNestCounter cs = 0 \/ irq_enabled cs = false ->
  let result := EMBENET_TIMER_ReadCounter counter1 counter2 (cs, t) in
  snd result = u32 ((if EVENTS_OVRFLW t
                     then total_ticks (S k) counter2
                     else total_ticks k counter1) * PERIOD_SCALED_UP / SCALE_FACTOR) /\
  irqNestCounter (fst result) = irqNestCounter cs /\
  irq_enabled (fst result) = irq_enabled cs.
Proof.
  intros Hr Hk Hc1 Hc2 Hcs Hstate result.
  pose proof (timer_extension_counts k t Hr ltac:(lia)) as Hext.
  pose proof (scaled_counter_range counter1 Hc1) as H1.
  pose proof (scaled_counter_range counter2 Hc2) as H2.
  unfold result, EMBENET_TIMER_ReadCounter. cbn [fst snd].
  split; [|apply Enter_Exit_restores; assumption].
  rewrite Hext.
  rewrite !(u64_small (_ * PERIOD_SCALED_UP)) by (unfold PERIOD_SCALED_UP; lia).
  destruct (EVENTS_OVRFLW t); rewrite scaled_ticks.
  - rewrite (u64_small (_ / _ + _)) by (unfold OVERFLOW_EXTENSION_US in *; lia).
    rewrite u64_small by (unfold OVERFLOW_EXTENSION_US in *; lia).
    f_equal. lia.
  - rewrite u64_small by (unfold OVERFLOW_EXTENSION_US in *; lia). reflexivity.
Qed.

Lemma ReadCounter_is_the_scaled_tick_count_witness :
  let t := rtc_overflows
             (EMBENET_PORT_TIMER_IRQ_HANDLER
                (rtc_overflows
                   (EMBENET_TIMER_Init true
                      {| callback := false; timerValueExtension := 7; softwareIrq := true;
                         EVENTS_OVRFLW := true; EVENTS_COMPARE0 := true;
                         INTEN_COMPARE0 := false; CC0 := 0; irqPending := true;
                         callbackCalls := 0 |}))) in
  let cs := {| irqNestCounter := 0; previousIrqState := 0; PRIMASK := 0 |} in
  let result := EMBENET_TIMER_ReadCounter 16777215 3 (cs, t) in
  snd result = u32 (total_ticks 2 3 * PERIOD_SCALED_UP / SCALE_FACTOR) /\
  irqNestCounter (fst result) = 0 /\
  irq_enabled (fst result) = true.
Proof.
  intros t cs result.
  assert (Hr : timer_reachable 1 t).
  { unfold t. apply timer_reach_overflow.
    apply (timer_reach_handler 0 (rtc_overflows _)).
    apply timer_reach_overflow. apply timer_reach_init. }
  apply (ReadCounter_is_the_scaled_tick_count 1 t cs 16777215 3 Hr);
    first [lia | unfold INT_MAX; simpl; lia | left; reflexivity].
Defined.

(** ** Arming the compare *)

Lemma u32_range (x : Z) : 0 <= u32 x < 4294967296.
Proof. unfold u32. apply Z.mod_pos_bound. lia. Qed.

Lemma guard_test (d : Z) :
  0 <= d < 4294967296 ->
  (u32 (d - GUARD_US) <? MAX_COMPARE_DURATION_US) = (62 <=? d) && (d <? 250000062).
Proof.
  intros Hd. unfold GUARD_US, MAX_COMPARE_DURATION_US.
  destruct (Z.leb_spec 62 d) as [Hge|Hlt]; cbn [andb].
  - rewrite u32_small by lia.
    destruct (Z.ltb_spec (d - 62) 250000000), (Z.ltb_spec d 250000062);
      (reflexivity || lia).
  - assert (E : u32 (d - 62) = d - 62 + 4294967296).
    { unfold u32. rewrite <- (Z.mod_add (d - 62) 1) by lia.
      rewrite Z.mod_small; lia. }
    rewrite E. apply Z.ltb_ge. lia.
Qed.

Lemma compare_ticks (d : Z) :
  62 <= d < 250000062 ->
  u32 (u64 (d * SCALE_FACTOR) / PERIOD_SCALED_UP) = d * SCALE_FACTOR / PERIOD_SCALED_UP /\
  2 <= d * SCALE_FACTOR / PERIOD_SCALED_UP <= 8192001.
Proof.
  intros Hd. unfold SCALE_FACTOR, PERIOD_SCALED_UP.
  assert (Hb : 2 <= d * 1000000000 / 30517578125 <= 8192001).
  { split.
    - apply Z.div_le_lower_bound; lia.
    - apply Z.lt_succ_r. apply Z.div_lt_upper_bound; lia. }
  split; [|exact Hb].
  rewrite u64_small by lia. apply u32_small. lia.
Qed.

Lemma masked_counter (x : Z) : Z.land (u32 x) TIMER_MAX_VALUE = x mod 16777216.
Proof.
  unfold TIMER_MAX_VALUE, u32. change 0xFFFFFF with (Z.ones 24).
  rewrite Z.land_ones by lia. change (2 ^ 24) with 16777216.
  change 4294967296 with (256 * 16777216).
  rewrite Z.mul_comm. rewrite Z.rem_mul_r by lia.
  rewrite Z.mul_comm, Z.mod_add by lia. apply Z.mod_mod. lia.
Qed.

Lemma SetCompare_unfold
  (t : Timer) (cs : CriticalSection) (compareValue counter1 counter2 : Z) :
  let now := snd (EMBENET_TIMER_ReadCounter counter1 counter2 (cs, t)) in
  let delta := u32 (compareValue - now) in
  let counter := if EVENTS_OVRFLW t then counter2 else counter1 in
  EMBENET_TIMER_SetCompare compareValue counter1 counter2 (cs, t) =
  (EMBENET_CRITICAL_SECTION_Exit (EMBENET_CRITICAL_SECTION_Enter cs),
   if (62 <=? delta) && (delta <? 250000062)
   then {| callback := callback t;
           timerValueExtension := timerValueExtension t;
           softwareIrq := softwareIrq t;
           EVENTS_OVRFLW := EVENTS_OVRFLW t;
           EVENTS_COMPARE0 := EVENTS_COMPARE0 t;
           INTEN_COMPARE0 := true;
           CC0 := Z.land (u32 (counter
                    + u32 (u64 (delta * SCALE_FACTOR) / PERIOD_SCALED_UP)))
                    TIMER_MAX_VALUE;
           irqPending := irqPending t;
           callbackCalls := callbackCalls t |}
   else {| callback := callback t;
           timerValueExtension := timerValueExtension t;
           softwareIrq := true;
           EVENTS_OVRFLW := EVENTS_OVRFLW t;
           EVENTS_COMPARE0 := EVENTS_COMPARE0 t;
           INTEN_COMPARE0 := true;
           CC0 := CC0 t;
           irqPending := true;
           callbackCalls := callbackCalls t |}).
Proof.
  intros now delta counter.
  rewrite <- guard_test by apply u32_range.
  unfold delta, now, counter, EMBENET_TIMER_SetCompare, EMBENET_TIMER_ReadCounter.
  cbn [snd]. destruct (EVENTS_OVRFLW t); reflexivity.
Qed.

(** X15: EMBENET_TIMER_SetCompare takes the time as
    EMBENET_TIMER_ReadCounter would return it for the same reads of COUNTER
    and the distance [delta] from it to the compare value, modulo 2^32.
    For [62 <= delta < 250000062] it programs CC[0] with COUNTER plus
    [delta] converted to ticks, modulo 2^24; these ticks are at least 2 and
    at most 8192001, below MAX_COMPARE_DURATION_TICKS.  For every other
    [delta] (less than the guard ahead, or so far ahead that it counts as
    past) it leaves CC[0] alone, sets [softwareIrq] and pends the
    interrupt.  In both cases the compare interrupt is enabled and the
    nesting counter and the interrupt-enable state are as before. *)
Theorem SetCompare_arms_or_fires
  (t : Timer) (cs : CriticalSection) (compareValue counter1 counter2 : Z) :
  0 <= irqNestCounter cs < INT_MAX ->
  irqNestCounter cs = 0 \/ irq_enabled cs = false ->
  let now := snd (EMBENET_TIMER_ReadCounter counter1 counter2 (cs, t)) in
  let delta := u32 (compareValue - now) in
  let counter := if EVENTS_OVRFLW t then counter2 else counter1 in
  let ticks := delta * SCALE_FACTOR / PERIOD_SCALED_UP in
  let result := EMBENET_TIMER_SetCompare compareValue counter1 counter2 (cs, t) in
  INTEN_COMPARE0 (snd result) = true /\
  timerValueExtension (snd result) = timerValueExtension t /\
  (62 <= delta < 250000062 ->
     CC0 (snd result) = (counter + ticks) mod 16777216 /\
     2 <= ticks <= 8192001 /\ ticks <= MAX_COMPARE_DURATION_TICKS /\
     softwareIrq (snd result) = softwareIrq t /\
     irqPending (snd result) = irqPending t) /\
  (delta < 62 \/ 250000062 <= delta ->
     CC0 (snd result) = CC0 t /\
     softwareIrq (snd result) = true /\
     irqPending (snd result) = true) /\
  irqNestCounter (fst result) = irqNestCounter cs /\
  irq_enabled (fst result) = irq_enabled cs.
Proof.
  intros Hcs Hstate now delta counter ticks result.
  assert (Hd : 0 <= delta < 4294967296) by apply u32_range.
  assert (Hres : result = _) by apply SetCompare_unfold.
  cbv zeta in Hres. fold now in Hres. fold delta in Hres. fold counter in Hres.
  rewrite Hres. cbn [fst snd].
  destruct (Z.leb_spec 62 delta) as [Hlo|Hlo];
    destruct (Z.ltb_spec delta 250000062) as [Hhi|Hhi]; cbn [andb];
    cbn [INTEN_COMPARE0 timerValueExtension CC0 softwareIrq irqPending].
  1: { destruct (compare_ticks delta (conj Hlo Hhi)) as [Et Hb].
       split; [reflexivity|]. split; [reflexivity|]. split.
       - intros _. rewrite Et, masked_counter. fold ticks.
         unfold MAX_COMPARE_DURATION_TICKS. fold ticks in Hb. repeat split; lia.
       - split; [intros [?|?]; lia|]. apply Enter_Exit_restores; assumption. }
  all: split; [reflexivity|]; split; [reflexivity|]; split; [intros ?; lia|];
       split; [intros _; repeat split | apply Enter_Exit_restores; assumption].
Qed.

Lemma SetCompare_arms_or_fires_witness :
  let t := EMBENET_TIMER_Init true
             {| callback := false; timerValueExtension := 0; softwareIrq := false;
                EVENTS_OVRFLW := false; EVENTS_COMPARE0 := false;
                INTEN_COMPARE0 := false; CC0 := 0; irqPending := false;
                callbackCalls := 0 |} in
  let cs := {| irqNestCounter := 0; previousIrqState := 0; PRIMASK := 0 |} in
  CC0 (snd (EMBENET_TIMER_SetCompare 1152 5 5 (cs, t))) = 37 /\
  softwareIrq (snd (EMBENET_TIMER_SetCompare 1152 5 5 (cs, t))) = false /\
  softwareIrq (snd (EMBENET_TIMER_SetCompare 200 5 5 (cs, t))) = true /\
  irq_enabled (fst (EMBENET_TIMER_SetCompare 200 5 5 (cs, t))) = true.
Proof.
  intros t cs.
  assert (H1 : 0 <= irqNestCounter cs < INT_MAX) by (unfold INT_MAX; simpl; lia).
  assert (H2 : irqNestCounter cs = 0 \/ irq_enabled cs = false) by (left; reflexivity).
  destruct (SetCompare_arms_or_fires t cs 1152 5 5 H1 H2) as (_ & _ & Harm & _).
  destruct (SetCompare_arms_or_fires t cs 200 5 5 H1 H2) as (_ & _ & _ & Hfire & _ & Hirq).
  destruct Harm as (E1 & _ & _ & E2 & _);
    [vm_compute; split; [intros X; discriminate X | reflexivity]|].
  destruct Hfire as (_ & E3 & _); [left; vm_compute; reflexivity|].
  split; [exact E1|]. split; [exact E2|]. split; [exact E3 | exact Hirq].
Defined.

(** ** The compare interrupt *)

Lemma handler_settles (t : Timer) :
  let t2 := EMBENET_PORT_TIMER_IRQ_HANDLER t in
  callbackCalls t2 =
    (if (EVENTS_COMPARE0 t || softwareIrq t) && callback t
     then S (callbackCalls t) else callbackCalls t) /\
  EVENTS_OVRFLW t2 = false /\
  ((EVENTS_COMPARE0 t || softwareIrq t) = true ->
     EVENTS_COMPARE0 t2 = false /\ softwareIrq t2 = false /\ INTEN_COMPARE0 t2 = false) /\
  ((EVENTS_COMPARE0 t || softwareIrq t) = true ->
     EMBENET_PORT_TIMER_IRQ_HANDLER t2 = t2).
Proof.
  destruct t as [cb ext sw ov cmp inten cc pend calls].
  unfold EMBENET_PORT_TIMER_IRQ_HANDLER.
  destruct ov, cmp, sw, cb; cbn; repeat split; intros; try discriminate; reflexivity.
Qed.

(** X16: when EMBENET_TIMER_SetCompare finds the compare value less than
    62 us ahead or 250000062 us or more ahead (modulo 2^32), the next run
    of the interrupt handler invokes the registered callback exactly once
    (not at all when none is registered), clears [softwareIrq] and the
    compare event and disables the compare interrupt; a further run of the
    handler without a new event changes nothing. *)
Theorem immediate_compare_calls_back_once
  (t : Timer) (cs : CriticalSection) (compareValue counter1 counter2 : Z) :
  let now := snd (EMBENET_TIMER_ReadCounter counter1 counter2 (cs, t)) in
  let delta := u32 (compareValue - now) in
  let armed := snd (EMBENET_TIMER_SetCompare compareValue counter1 counter2 (cs, t)) in
  let served := EMBENET_PORT_TIMER_IRQ_HANDLER armed in
  delta < 62 \/ 250000062 <= delta ->
  irqPending armed = true /\
  callbackCalls served =
    (if callback t then S (callbackCalls t) else callbackCalls t) /\
  softwareIrq served = false /\
  EVENTS_COMPARE0 served = false /\
  INTEN_COMPARE0 served = false /\
  EMBENET_PORT_TIMER_IRQ_HANDLER served = served.
Proof.
  intros now delta armed served Hd.
  assert (Harmed : armed =
            {| callback := callback t;
               timerValueExtension := timerValueExtension t;
               softwareIrq := true;
               EVENTS_OVRFLW := EVENTS_OVRFLW t;
               EVENTS_COMPARE0 := EVENTS_COMPARE0 t;
               INTEN_COMPARE0 := true;
               CC0 := CC0 t;
               irqPending := true;
               callbackCalls := callbackCalls t |}).
  { unfold armed. rewrite SetCompare_unfold. fold now. fold delta. cbn [snd].
    replace ((62 <=? delta) && (delta <? 250000062)) with false; [reflexivity|].
    symmetry. apply andb_false_iff.
    destruct Hd; [left; apply Z.leb_gt | right; apply Z.ltb_ge]; lia. }
  destruct (handler_settles armed) as (Hcalls & _ & Hclr & Hidem).
  fold served in Hcalls, Hclr, Hidem.
  assert (Hsw : (EVENTS_COMPARE0 armed || softwareIrq armed) = true)
    by (rewrite Harmed; cbn; apply orb_true_r).
  destruct (Hclr Hsw) as (Hc & Hs & Hi).
  split; [rewrite Harmed; reflexivity|].
  split; [|auto].
  rewrite Hcalls, Hsw. rewrite Harmed. reflexivity.
Qed.

Lemma immediate_compare_calls_back_once_witness :
  let t := EMBENET_TIMER_Init true
             {| callback := false; timerValueExtension := 0; softwareIrq := false;
                EVENTS_OVRFLW := false; EVENTS_COMPARE0 := false;
                INTEN_COMPARE0 := false; CC0 := 0; irqPending := false;
                callbackCalls := 0 |} in
  let cs := {| irqNestCounter := 0; previousIrqState := 0; PRIMASK := 0 |} in
  let served := EMBENET_PORT_TIMER_IRQ_HANDLER
                  (snd (EMBENET_TIMER_SetCompare 100 5 5 (cs, t))) in
  callbackCalls served = 1%nat /\
  EMBENET_PORT_TIMER_IRQ_HANDLER served = served.
Proof.
  intros t cs served.
  destruct (immediate_compare_calls_back_once t cs 100 5 5)
    as (_ & E & _ & _ & _ & Hidem);
    [right; vm_compute; intros X; discriminate X|].
  split; [exact E | exact Hidem].
Defined.

(** * A frame that arrives in two parts *)

(** The run lemma again, without the condition on a dangling escape byte:
    it is enough that the run leaves room in the accumulator. *)
Lemma Receive_loop_run_open (w : list Z) :
  forall fuel cap rest frame idx prev,
    Forall (fun b => b <> HDLC_FLAG) w ->
    length frame = EMBENET_BRT_MAX_FRAME_SIZE ->
    (idx + length (unstuff prev w) < EMBENET_BRT_MAX_FRAME_SIZE)%nat ->
    Receive_loop (length w + fuel)
      (Build_Rx (Build_RingBuffer cap (w ++ rest)) frame idx true prev) =
    Receive_loop fuel
      (Build_Rx (Build_RingBuffer cap rest)
         (take idx frame ++ unstuff prev w
            ++ drop (idx + length (unstuff prev w)) frame)
         (idx + length (unstuff prev w)) true (last_of prev w)).
Proof.
  induction w as [|b w IH]; intros fuel cap rest frame idx prev Hw Hlen Hfit.
  - simpl. rewrite Nat.add_0_r, take_drop. reflexivity.
  - inversion Hw as [|? ? Hb Hw']; subst.
    cbn [length Nat.add app]. rewrite Receive_loop_cons.
    assert (Hidx : (idx < length frame)%nat).
    { rewrite Hlen. cbn [unstuff] in Hfit.
      destruct (HDLC_ESCAPE =? b); cbn [length] in Hfit; lia. }
    rewrite Receive_body_data by assumption.
    cbn [unstuff last_of] in *.
    destruct (HDLC_ESCAPE =? b).
    + apply IH; auto.
    + cbn [length] in Hfit.
      rewrite IH; [|assumption|rewrite length_insert; assumption|lia].
      set (v := if HDLC_ESCAPE =? prev then u8 (Z.lxor b HDLC_ESCAPE_MASK) else b).
      rewrite (take_S_r _ _ v) by (apply list_lookup_insert_eq; exact Hidx).
      rewrite take_insert_ge by lia.
      rewrite drop_insert_lt by lia.
      cbn [length]. rewrite <- app_assoc. cbn [app].
      replace (S idx + length (unstuff b w))%nat
        with (idx + S (length (unstuff b w)))%nat by lia.
      reflexivity.
Qed.

(** The first part of a frame: the opening flag and a run that leaves the
    frame open.  The call returns 0 and keeps what it has stored. *)
Lemma Receive_first_part policy (w1 buf : list Z) (size : nat) :
  Forall (fun b => b <> HDLC_FLAG) w1 ->
  (length (unstuff HDLC_FLAG w1) < EMBENET_BRT_MAX_FRAME_SIZE)%nat
  \/ ((w1 = [] \/ last_of HDLC_FLAG w1 <> HDLC_ESCAPE)
      /\ (length (unstuff HDLC_FLAG w1) <= EMBENET_BRT_MAX_FRAME_SIZE)%nat) ->
  (S (length w1) <= INPUT_RING_BUFFER_SIZE)%nat ->
  EMBENET_BRT_Receive (rx_after policy (HDLC_FLAG :: w1)) buf size =
  Ok (Build_Rx (Build_RingBuffer INPUT_RING_BUFFER_SIZE [])
        (unstuff HDLC_FLAG w1
           ++ drop (length (unstuff HDLC_FLAG w1)) (replicate EMBENET_BRT_MAX_FRAME_SIZE 0))
        (length (unstuff HDLC_FLAG w1)) true (last_of HDLC_FLAG w1),
      buf, 0%nat).
Proof.
  intros Hw Hfit Hcap.
  rewrite rx_after_fits by (simpl; lia).
  set (rx0 := Build_Rx _ _ _ _ _).
  erewrite (Receive_after_loop rx0 _ false); [reflexivity|].
  unfold rx0, RingBuffer_GetLen. cbn [inputRingBufferDesc rb_bytes length].
  rewrite Receive_loop_cons, Receive_body_searching, eqb_refl_flag.
  replace (Build_RingBuffer INPUT_RING_BUFFER_SIZE w1)
    with (Build_RingBuffer INPUT_RING_BUFFER_SIZE (w1 ++ []))
    by (rewrite app_nil_r; reflexivity).
  replace (S (length w1)) with (length w1 + 1)%nat by lia.
  destruct Hfit as [Hopen|[Hlast Hle]].
  - rewrite Receive_loop_run_open by (try assumption; apply length_replicate).
    reflexivity.
  - rewrite Receive_loop_run by (try assumption; apply length_replicate).
    reflexivity.
Qed.

(** The rest of a frame: the decoder holds [idx] stored bytes of an open
    frame, the run [w2] and the closing flag arrive. *)
Lemma Receive_second_part policy (w2 frame buf : list Z) (idx size : nat) (prev : Z) :
  Forall (fun b => b <> HDLC_FLAG) w2 ->
  w2 = [] \/ last_of prev w2 <> HDLC_ESCAPE ->
  last_of prev w2 <> HDLC_FLAG ->
  length frame = EMBENET_BRT_MAX_FRAME_SIZE ->
  (2 < idx + length (unstuff prev w2) <= EMBENET_BRT_MAX_FRAME_SIZE)%nat ->
  (S (length w2) <= INPUT_RING_BUFFER_SIZE)%nat ->
  EMBENET_BRT_Receive
    (rx_stream policy (w2 ++ [HDLC_FLAG])
       (Build_Rx (Build_RingBuffer INPUT_RING_BUFFER_SIZE []) frame idx true prev))
    buf size =
  Receive_outcome INPUT_RING_BUFFER_SIZE [] (take idx frame ++ unstuff prev w2)
    frame buf size.
Proof.
  intros Hw Hlast Hnf Hlen Hn Hcap.
  rewrite rx_stream_fits by (rewrite length_app; simpl; lia).
  cbn [app].
  set (rx0 := Build_Rx _ _ _ _ _).
  set (U := take idx frame ++ unstuff prev w2).
  assert (HU : length U = (idx + length (unstuff prev w2))%nat).
  { unfold U. rewrite length_app, length_take. lia. }
  assert (Hloop :
    Receive_loop (S (RingBuffer_GetLen (inputRingBufferDesc rx0))) rx0 =
    Ok (Build_Rx (Build_RingBuffer INPUT_RING_BUFFER_SIZE [])
          (U ++ drop (length U) frame) (length U) false HDLC_FLAG, true)).
  { unfold rx0, RingBuffer_GetLen. cbn [inputRingBufferDesc rb_bytes].
    replace (S (length (w2 ++ [HDLC_FLAG]))) with (length w2 + 2)%nat
      by (rewrite length_app; simpl; lia).
    rewrite Receive_loop_run by (try assumption; lia).
    rewrite Receive_loop_cons, Receive_body_closing_flag by exact Hnf.
    rewrite HU. unfold U. rewrite <- app_assoc.
    replace (2 <? idx + length (unstuff prev w2))%nat with true
      by (symmetry; apply Nat.ltb_lt; lia).
    reflexivity. }
  rewrite (Receive_after_loop _ _ _ _ _ Hloop).
  cbn [inputFrameDataIndex inputFrame andb].
  replace (0 <? length U)%nat with true by (symmetry; apply Nat.ltb_lt; lia).
  rewrite crc_matches_app by lia.
  reflexivity.
Qed.

Lemma split_wire (body w1 s2 : list Z) :
  w1 ++ s2 = body ++ [HDLC_FLAG] -> s2 <> [] ->
  exists w2, s2 = w2 ++ [HDLC_FLAG] /\ w1 ++ w2 = body.
Proof.
  intros E Hne.
  destruct (exists_last Hne) as (w2 & x & ->).
  rewrite app_assoc in E. apply app_inj_tail in E. destruct E as [E ->].
  exists w2. auto.
Qed.

(** The decoder after the first part [FLAG :: w1] of the frame of [P] was
    polled, and what the second part makes of it. *)
Lemma Receive_split_frame policy (P w1 w2 buf1 buf2 : list Z) (size1 size2 : nat) :
  (1 <= length P <= 198)%nat ->
  w1 ++ w2 = concat (map stuffed (frame_content P)) ->
  (length P <= size2)%nat -> (size2 <= length buf2)%nat ->
  exists rx1 rx2,
    EMBENET_BRT_Receive (rx_after policy (HDLC_FLAG :: w1)) buf1 size1
      = Ok (rx1, buf1, 0%nat) /\
    rb_bytes (inputRingBufferDesc rx1) = [] /\
    rb_capacity (inputRingBufferDesc rx1) = INPUT_RING_BUFFER_SIZE /\
    EMBENET_BRT_Receive (rx_stream policy (w2 ++ [HDLC_FLAG]) rx1) buf2 size2
      = Ok (rx2, P ++ drop (length P) buf2, length P).
Proof.
  intros HP Hsplit Hsize Hbuf.
  pose proof (concat_stuffed_no_flag (frame_content P)) as Hnf.
  pose proof (length_concat_stuffed (frame_content P)) as Hwl.
  destruct (unstuff_concat_stuffed (frame_content P) HDLC_FLAG) as [EU Elast];
    [discriminate|].
  rewrite length_frame_content in Hwl.
  rewrite <- Hsplit in Hnf, Hwl, EU, Elast.
  apply Forall_app in Hnf. destruct Hnf as [Hnf1 Hnf2].
  rewrite length_app in Hwl.
  rewrite unstuff_app in EU. rewrite last_of_app in Elast.
  set (U1 := unstuff HDLC_FLAG w1) in *.
  set (p1 := last_of HDLC_FLAG w1) in *.
  assert (Hlen : (length U1 + length (unstuff p1 w2) = length P + 2)%nat).
  { rewrite <- length_app, EU. apply length_frame_content. }
  assert (Hlast2 : w2 = [] \/ last_of p1 w2 <> HDLC_ESCAPE) by (right; exact Elast).
  assert (Hfit1 :
    (length U1 < EMBENET_BRT_MAX_FRAME_SIZE)%nat
    \/ ((w1 = [] \/ last_of HDLC_FLAG w1 <> HDLC_ESCAPE)
        /\ (length U1 <= EMBENET_BRT_MAX_FRAME_SIZE)%nat)).
  { unfold EMBENET_BRT_MAX_FRAME_SIZE. destruct w2 as [|c w2].
    - right. split; [right; exact Elast | lia].
    - left. pose proof (unstuff_stores (c :: w2) p1 ltac:(discriminate) Elast). lia. }
  rewrite Receive_first_part;
    [|exact Hnf1|exact Hfit1|unfold INPUT_RING_BUFFER_SIZE; lia].
  do 2 eexists. split; [reflexivity|]. split; [reflexivity|]. split; [reflexivity|].
  fold U1. fold p1.
  assert (HlenF : length (U1 ++ drop (length U1) (replicate EMBENET_BRT_MAX_FRAME_SIZE 0))
                  = EMBENET_BRT_MAX_FRAME_SIZE).
  { rewrite length_after_run; rewrite length_replicate;
      [reflexivity | unfold EMBENET_BRT_MAX_FRAME_SIZE; lia]. }
  rewrite Receive_second_part;
    [|exact Hnf2|exact Hlast2| |exact HlenF
     |unfold EMBENET_BRT_MAX_FRAME_SIZE; lia|unfold INPUT_RING_BUFFER_SIZE; lia].
  - rewrite take_app_length, EU.
    rewrite Receive_outcome_valid by assumption. reflexivity.
  - destruct w2 as [|c w2].
    + cbn [last_of]. destruct w1 as [|c w1].
      * simpl in Hlen. lia.
      * unfold p1. cbn [last_of]. inversion Hnf1; subst.
        apply (last_of_Forall (fun b => b <> HDLC_FLAG)); assumption.
    + cbn [last_of]. inversion Hnf2; subst.
      apply (last_of_Forall (fun b => b <> HDLC_FLAG)); assumption.
Qed.

(** X17: a frame may arrive in two parts, cut at any place (before or
    behind the opening flag, between the two bytes of a stuffed byte, in the
    CRC, before the closing flag).  The call of EMBENET_BRT_Receive after
    the first part returns 0 and leaves the buffer alone; the call after the
    second part returns the payload. *)
Theorem frame_is_reassembled_across_calls
  (policy : overflow_policy) (P s1 s2 buf1 buf2 : list Z) (size1 size2 : nat) :
  (1 <= length P <= 198)%nat ->
  wire_of_Send policy P = s1 ++ s2 -> s2 <> [] ->
  (length P <= size2)%nat -> (size2 <= length buf2)%nat ->
  exists rx1 rx2,
    EMBENET_BRT_Receive (rx_after policy s1) buf1 size1 = Ok (rx1, buf1, 0%nat) /\
    EMBENET_BRT_Receive (rx_stream policy s2 rx1) buf2 size2
      = Ok (rx2, P ++ drop (length P) buf2, length P).
Proof.
  intros HP Hwire Hs2 Hsize Hbuf.
  rewrite wire_of_Send_eq in Hwire.
  destruct s1 as [|f w1].
  - (* nothing has arrived at the first call *)
    cbn [app] in Hwire. subst s2.
    exists (rx_after policy []), (rx_ready INPUT_RING_BUFFER_SIZE [] (frame_left P)).
    split; [reflexivity|].
    change (rx_stream policy ?l (rx_after policy [])) with (rx_after policy l).
    change (HDLC_FLAG :: ?l) with (replicate 1 HDLC_FLAG ++ l).
    rewrite Receive_valid_frame by (try assumption; lia).
    replace (length P <=? size2)%nat with true by (symmetry; apply Nat.leb_le; lia).
    reflexivity.
  - cbn [app] in Hwire. inversion Hwire as [[Hf Hrest]]. subst f.
    destruct (split_wire _ _ _ (eq_sym Hrest) Hs2) as (w2 & -> & Hbody).
    destruct (Receive_split_frame policy P w1 w2 buf1 buf2 size1 size2
                HP Hbody Hsize Hbuf) as (rx1 & rx2 & E1 & _ & _ & E2).
    exists rx1, rx2. auto.
Qed.

Lemma frame_is_reassembled_across_calls_witness :
  exists rx1 rx2,
    EMBENET_BRT_Receive (rx_after RejectWhenFull [0x7e; 0x01; 0x7d]) [0xaa] 1
      = Ok (rx1, [0xaa], 0%nat) /\
    EMBENET_BRT_Receive
      (rx_stream RejectWhenFull [0x5e; 0x7d; 0x5d; 0x02; 0x08; 0x13; 0x7e] rx1)
      [0; 0; 0; 0; 0] 4
      = Ok (rx2, [0x01; 0x7e; 0x7d; 0x02] ++ drop 4 [0; 0; 0; 0; 0], 4%nat).
Proof.
  apply (frame_is_reassembled_across_calls RejectWhenFull [0x01; 0x7e; 0x7d; 0x02]
           [0x7e; 0x01; 0x7d] [0x5e; 0x7d; 0x5d; 0x02; 0x08; 0x13; 0x7e]
           [0xaa] [0; 0; 0; 0; 0] 1 4).
  - simpl. lia.
  - vm_compute. reflexivity.
  - discriminate.
  - simpl. lia.
  - simpl. lia.
Defined.

(** X18: EMBENET_BRT_Init and EMBENET_BRT_Deinit do not reset the decoder:
    when the first part of a frame has been polled, the module is
    initialised again (or deinitialised), and the second part arrives, the
    next call of EMBENET_BRT_Receive still completes the frame and returns
    the payload. *)
Theorem Init_keeps_a_frame_in_progress
  (policy : overflow_policy) (P w1 w2 buf1 buf2 : list Z) (size1 size2 : nat) (tx : Tx) :
  (1 <= length P <= 198)%nat ->
  w1 ++ w2 = concat (map stuffed (frame_content P)) ->
  (length P <= size2)%nat -> (size2 <= length buf2)%nat ->
  exists rx1 rx2,
    EMBENET_BRT_Receive (rx_after policy (HDLC_FLAG :: w1)) buf1 size1
      = Ok (rx1, buf1, 0%nat) /\
    let again := brt_rx (EMBENET_BRT_Init {| brt_tx := tx; brt_rx := rx1 |}) in
    brt_rx (EMBENET_BRT_Deinit {| brt_tx := tx; brt_rx := rx1 |}) = again /\
    EMBENET_BRT_Receive (rx_stream policy (w2 ++ [HDLC_FLAG]) again) buf2 size2
      = Ok (rx2, P ++ drop (length P) buf2, length P).
Proof.
  intros HP Hbody Hsize Hbuf.
  destruct (Receive_split_frame policy P w1 w2 buf1 buf2 size1 size2
              HP Hbody Hsize Hbuf) as (rx1 & rx2 & E1 & Hq & Hcap & E2).
  exists rx1, rx2. split; [exact E1|]. cbv zeta. split; [reflexivity|].
  destruct rx1 as [[cap q] frame idx recv prev].
  cbn [inputRingBufferDesc rb_bytes rb_capacity] in Hq, Hcap. subst q cap.
  exact E2.
Qed.

Lemma Init_keeps_a_frame_in_progress_witness :
  exists rx1 rx2,
    EMBENET_BRT_Receive (rx_after RejectWhenFull (HDLC_FLAG :: [0x41])) [0xaa] 1
      = Ok (rx1, [0xaa], 0%nat) /\
    let again := brt_rx (EMBENET_BRT_Init {| brt_tx := brt_tx brt_boot; brt_rx := rx1 |}) in
    brt_rx (EMBENET_BRT_Deinit {| brt_tx := brt_tx brt_boot; brt_rx := rx1 |}) = again /\
    EMBENET_BRT_Receive
      (rx_stream RejectWhenFull ([0x42; 0xef; 0x31] ++ [HDLC_FLAG]) again) [0; 0; 0] 2
      = Ok (rx2, [0x41; 0x42] ++ drop 2 [0; 0; 0], 2%nat).
Proof.
  apply (Init_keeps_a_frame_in_progress RejectWhenFull [0x41; 0x42] [0x41]
           [0x42; 0xef; 0x31] [0xaa] [0; 0; 0] 1 2 (brt_tx brt_boot)).
  - simpl. lia.
  - vm_compute. reflexivity.
  - simpl. lia.
  - simpl. lia.
Defined.

(** * The CRC once more *)

Lemma holds_from_spec (f : Z -> bool) (n : nat) (v0 : Z) :
  holds_from f n v0 = true ->
  forall v, v0 <= v < v0 + Z.of_nat n -> f v = true.
Proof.
  revert v0. induction n as [|n IH]; intros v0 H v Hv; [lia|].
  cbn [holds_from] in H. destruct (f v0) eqn:E; [|discriminate].
  destruct (Z.eq_dec v v0) as [->|Hne]; [exact E|].
  apply (IH (v0 + 1) H). lia.
Qed.

Lemma u16_check (f : Z -> bool) :
  holds_from f (Z.to_nat 65536) 0 = true ->
  forall v, is_u16 v -> f v = true.
Proof.
  intros H v Hv. unfold is_u16 in Hv.
  apply (holds_from_spec f _ 0 H). rewrite Z2Nat.id; lia.
Qed.

(** Eight shift-and-reduce rounds on a 16-bit value are one table step. *)
Lemma x25_rounds_are_a_table_step (v : Z) :
  is_u16 v ->
  Nat.iter 8 x25_round v =
  Z.lxor (Z.shiftr v 8) (nth (Z.to_nat (Z.land v 0xff)) fcstab 0).
Proof.
  intros Hv. apply Z.eqb_eq.
  apply (u16_check (fun v => Nat.iter 8 x25_round v
                     =? Z.lxor (Z.shiftr v 8) (nth (Z.to_nat (Z.land v 0xff)) fcstab 0)));
    [vm_compute; reflexivity | exact Hv].
Qed.

Lemma lxor_ffff (v : Z) : is_u16 v -> Z.lxor v 0xffff = 65535 - v.
Proof.
  intros Hv. apply Z.eqb_eq.
  apply (u16_check (fun v => Z.lxor v 0xffff =? 65535 - v));
    [vm_compute; reflexivity | exact Hv].
Qed.

Lemma openhdlc_crc_is_x25_update (crc byte : Z) :
  is_u16 crc -> is_u8 byte -> openhdlc_crc crc byte = x25_update crc byte.
Proof.
  intros Hc Hb. unfold x25_update.
  assert (Hb16 : is_u16 byte) by (unfold is_u8, is_u16 in *; lia).
  rewrite x25_rounds_are_a_table_step by (apply lxor_u16; assumption).
  rewrite openhdlc_crc_unfold by exact Hc.
  rewrite Z.shiftr_lxor. rewrite (shiftr8_div byte).
  unfold is_u8 in Hb. rewrite (Z.div_small byte 256) by lia.
  rewrite Z.lxor_0_r. reflexivity.
Qed.

(** X19: for every payload of bytes, the two bytes that EMBENET_BRT_Send
    appends (and that EMBENET_BRT_Receive compares) are the low and the
    high byte of the CRC-16/X-25 of the payload computed bit by bit:
    reflected polynomial 0x8408, initial value 0xFFFF, final complement. *)
Theorem frame_crc_is_x25 (P : list Z) :
  Forall is_u8 P ->
  frame_crc P = x25_checksum P /\
  frame_content P = P ++ [Z.land (x25_checksum P) 0xff; Z.shiftr (x25_checksum P) 8].
Proof.
  intros HP.
  assert (Hfold : forall c, is_u16 c ->
            fold_left openhdlc_crc P c = fold_left x25_update P c).
  { induction HP as [|b P Hb HP IH]; intros c Hc; [reflexivity|].
    cbn [fold_left]. rewrite <- openhdlc_crc_is_x25_update by assumption.
    apply IH. apply openhdlc_crc_u16. }
  assert (Hinit : is_u16 HDLC_CRCINIT) by (unfold is_u16, HDLC_CRCINIT; lia).
  assert (E : frame_crc P = x25_checksum P).
  { unfold frame_crc, x25_checksum.
    rewrite u16_lnot by (apply crc_fold_u16; exact Hinit).
    pose proof (Hfold _ Hinit) as Hf. unfold HDLC_CRCINIT in Hf.
    rewrite <- Hf. symmetry. apply lxor_ffff.
    apply crc_fold_u16. exact Hinit. }
  split; [exact E|].
  unfold frame_content, crc_low, crc_high. rewrite E.
  rewrite Z.shiftr_0_r.
  rewrite (land_ff_small (Z.shiftr _ 8));
    [reflexivity | apply shiftr8_u16; rewrite <- E; apply u16_range].
Qed.

Lemma frame_crc_is_x25_witness :
  frame_crc [0x31; 0x32; 0x33] = x25_checksum [0x31; 0x32; 0x33] /\
  frame_content [0x31; 0x32; 0x33] =
    [0x31; 0x32; 0x33] ++ [Z.land (x25_checksum [0x31; 0x32; 0x33]) 0xff;
                            Z.shiftr (x25_checksum [0x31; 0x32; 0x33]) 8].
Proof.
  apply (frame_crc_is_x25 [0x31; 0x32; 0x33]).
  repeat (constructor; [unfold is_u8; lia|]). constructor.
Defined.

Lemma crc_residue (s : Z) :
  is_u16 s ->
  openhdlc_crc (openhdlc_crc s (crc_low (u16 (Z.lnot s)))) (crc_high (u16 (Z.lnot s)))
  = HDLC_CRCGOOD.
Proof.
  intros Hs. apply Z.eqb_eq.
  apply (u16_check (fun s =>
           openhdlc_crc (openhdlc_crc s (crc_low (u16 (Z.lnot s))))
             (crc_high (u16 (Z.lnot s))) =? HDLC_CRCGOOD));
    [vm_compute; reflexivity | exact Hs].
Qed.

(** X20: running the CRC step from HDLC_CRCINIT over a payload and then
    over the two CRC bytes that EMBENET_BRT_Send appends always ends in
    HDLC_CRCGOOD (0xF0B8), whatever the payload. *)
Theorem crc_over_frame_content_is_CRCGOOD (P : list Z) :
  fold_left openhdlc_crc (frame_content P) HDLC_CRCINIT = HDLC_CRCGOOD.
Proof.
  unfold frame_content, frame_crc. rewrite fold_left_app. cbn [fold_left].
  apply crc_residue. apply crc_fold_u16. unfold is_u16, HDLC_CRCINIT. lia.
Qed.
